(** * confsync: the tree synchronisation engine

    A shallow embedding of put.go (the push side: the ignore matcher, the
    walk and the transaction it submits) and of watch.go (the pull side:
    key resolution, file replacement, directory pruning, the reload
    counter), with Go's path/filepath on Unix, the etcd transaction and
    the filesystem modelled as far as the two files use them. *)

From Stdlib Require Import Ascii String ZArith.
From stdpp Require Import base gmap strings list.

(** * path/filepath, on Unix

    [Clean] works element by element, as the library documents it: empty
    and [.] elements are dropped, [..] removes the element before it,
    is dropped at the root, and is kept at the head of a relative
    path. [Dir], [Base], [Join] and [Rel] follow the library's code. *)

Module GoPath.

Definition is_sep (c : ascii) : bool := Ascii.eqb c "/".

(** [strings.Split(s, "/")] *)
Fixpoint split_slash (s : string) : list string :=
  match s with
  | EmptyString => [EmptyString]
  | String c s' =>
      if is_sep c then EmptyString :: split_slash s'
      else match split_slash s' with
           | e :: es => String c e :: es
           | [] => [String c EmptyString]
           end
  end.

(** [strings.Join(es, "/")] *)
Fixpoint join_slash (es : list string) : string :=
  match es with
  | [] => ""
  | [e] => e
  | e :: es' => e +:+ "/" +:+ join_slash es'
  end.

Definition rooted (p : string) : bool :=
  match p with String c _ => is_sep c | EmptyString => false end.

(** One element against the output so far, last element first. *)
Definition clean_step (rt : bool) (out : list string) (e : string) : list string :=
  if decide (e = "") then out
  else if decide (e = ".") then out
  else if decide (e = "..") then
    match out with
    | o :: out' => if decide (o = "..") then e :: out else out'
    | [] => if rt then [] else [e]
    end
  else e :: out.

Definition clean_elems (rt : bool) (es : list string) : list string :=
  rev (fold_left (clean_step rt) es []).

Definition render (rt : bool) (es : list string) : string :=
  if rt then "/" +:+ join_slash es
  else match es with [] => "." | _ => join_slash es end.

Definition Clean (p : string) : string :=
  render (rooted p) (clean_elems (rooted p) (split_slash p)).

(** [path[:i+1]], [i] the index of the last separator. *)
Definition dir_part (p : string) : string :=
  match split_slash p with
  | [] | [_] => ""
  | es => join_slash (removelast es ++ [""])
  end.

Definition Dir (p : string) : string := Clean (dir_part p).

(** The last element, trailing separators set aside. *)
Definition Base (p : string) : string :=
  if decide (p = "") then "."
  else match rev (filter (λ e, e ≠ "") (split_slash p)) with
       | e :: _ => e
       | [] => "/"
       end.

(** [filepath.Join] and [path.Join] *)
Fixpoint Join (elem : list string) : string :=
  match elem with
  | [] => ""
  | e :: rest => if decide (e = "") then Join rest else Clean (join_slash elem)
  end.

(** [strings.HasPrefix] *)
Definition HasPrefix (s pre : string) : bool := String.prefix pre s.

Definition IsAbs (p : string) : bool := rooted p.

(** The element before the first separator, and what follows it. *)
Fixpoint cut (s : string) : string * string :=
  match s with
  | EmptyString => (EmptyString, EmptyString)
  | String c s' =>
      if is_sep c then (EmptyString, s')
      else let '(e, r) := cut s' in (String c e, r)
  end.

(** The loop of [Rel] that positions both paths at their first differing
    elements: what is left of [base] and of [targ], and the element of
    [base] the loop broke on ("" when it ran to an end). *)
Fixpoint rel_loop (n : nat) (b t : string) : string * string * string :=
  match n with
  | 0 => (b, t, "")
  | S n' =>
      if decide (b = "") then (b, t, "")
      else if decide (t = "") then (b, t, "")
      else let '(be, b') := cut b in
           let '(te, t') := cut t in
           if decide (te = be) then rel_loop n' b' t' else (b, t, be)
  end.

Fixpoint count_sep (s : string) : nat :=
  match s with
  | EmptyString => 0
  | String c s' => (if is_sep c then 1 else 0) + count_sep s'
  end.

Fixpoint dotdots (n : nat) : string :=
  match n with 0 => "" | S n' => "/.." +:+ dotdots n' end.

(** [filepath.Rel]; [None] is its error. *)
Definition Rel (basepath targpath : string) : option string :=
  let base := Clean basepath in
  let targ := Clean targpath in
  if decide (targ = base) then Some "."
  else
    let base := if decide (base = ".") then "" else base in
    if negb (eqb (rooted base) (rooted targ)) then None
    else
      let '(b, t, be) := rel_loop (String.length base) base targ in
      if decide (be = "..") then None
      else if decide (b = "") then Some t
      else Some (".." +:+ dotdots (count_sep b)
                      +:+ (if decide (t = "") then "" else "/" +:+ t)).

(** ** Predicates on paths *)

(** An element holds no separator. *)
Fixpoint no_slash (e : string) : bool :=
  match e with
  | EmptyString => true
  | String c e' => negb (is_sep c) && no_slash e'
  end.

(** A name: an element that [Clean] keeps as it is. *)
Definition normal (e : string) : Prop :=
  e ≠ "" ∧ e ≠ "." ∧ e ≠ ".." ∧ no_slash e = true.

(** The output of [Clean], innermost element first: names on top of the
    leading [..] elements, which a rooted path never has. *)
Inductive vstk (rt : bool) : list string → Prop :=
  | vstk_nil : vstk rt []
  | vstk_up stk : rt = false → Forall (λ e, e = "..") stk → vstk rt (".." :: stk)
  | vstk_name e stk : normal e → vstk rt stk → vstk rt (e :: stk).

Definition valid (rt : bool) (es : list string) : Prop := vstk rt (rev es).

(** The two paths [Dir] maps to themselves. *)
Definition dir_fixed (p : string) : Prop := p = "." ∨ p = "/".

End GoPath.
Export GoPath.

(** * Libraries the program links against

    Third-party code is taken through its interface: the digest and
    compressor of [getFile], the decompressor of the watcher and
    go-gitignore's compiler, whose result is used through [MatchesPath]
    only. *)

Definition GitIgnore := string → bool.

Class Libs := {
  hex_digest : string → string;
  snappy_encode : string → string;
  snappy_decode : string → option string;
  compile_ignore : string → GitIgnore;
}.

(** * The store

    Modelled from the spec: the transactional key-value cluster of §6 is
    an external collaborator.  A key is present exactly when its creation
    revision is not 0; the conditions of every sub-transaction are
    evaluated on the state the transaction started from, its operations
    are applied in order, and the whole is one atomic commit. *)

Module Etcd.

Inductive Cmp :=
  | CreateRevisionNe0 (key : string)
  | ValueEq (key : string) (v : string).

#[warning="-register-all"] Inductive Op :=
  | OpPut (key val : string)
  | OpDelete (key : string)
  | OpTxn (cmps : list Cmp) (thenOps elseOps : list Op).

Definition cmp_holds (view : gmap string string) (c : Cmp) : bool :=
  match c with
  | CreateRevisionNe0 k => bool_decide (is_Some (view !! k))
  | ValueEq k v => bool_decide (view !! k = Some v)
  end.

Definition cmps_hold (view : gmap string string) (cmps : list Cmp) : bool :=
  forallb (cmp_holds view) cmps.

Fixpoint apply_op (view : gmap string string) (op : Op)
    (s : gmap string string) : gmap string string :=
  match op with
  | OpPut k v => <[k:=v]> s
  | OpDelete k => delete k s
  | OpTxn cmps th el =>
      fold_left (λ s' o, apply_op view o s')
                (if cmps_hold view cmps then th else el) s
  end.

(** [GetResponseTxn] of a response, with its [Succeeded] flag. *)
Definition response (view : gmap string string) (op : Op) : option bool :=
  match op with
  | OpTxn cmps _ _ => Some (cmps_hold view cmps)
  | _ => None
  end.

(** [c.Txn(ctx).If().Then(ops...).Commit()] *)
Definition commit (c : gmap string string) (ops : list Op)
    : gmap string string * list (option bool) :=
  (fold_left (λ s o, apply_op c o s) ops c, map (response c) ops).

(** [c.Get(ctx, key, WithPrefix(), WithKeysOnly())]: the keys only. *)
Definition get_prefix_keys (c : gmap string string) (key : string) : list string :=
  filter (λ k, HasPrefix k key = true) (elements (dom c)).

(** [c.Get(ctx, key, WithPrefix())] *)
Definition get_prefix (c : gmap string string) (key : string)
    : list (string * string) :=
  filter (λ kv, HasPrefix kv.1 key = true) (map_to_list c).

End Etcd.
Export Etcd.

(** * put.go *)

Module Put.

(** The local filesystem as [filepath.Walk] and [os.Stat] see it: a tree
    rooted at "/", the entries of a directory in the order Walk reads
    them. *)
#[warning="-register-all"] Inductive fsnode :=
  | FFile (content : string) (readable : bool)
  | FDir (entries : list (string * fsnode)).

Definition IsDir (n : fsnode) : bool :=
  match n with FDir _ => true | FFile _ _ => false end.

Fixpoint fs_find (name : string) (entries : list (string * fsnode)) : option fsnode :=
  match entries with
  | [] => None
  | (n, c) :: rest => if decide (n = name) then Some c else fs_find name rest
  end.

Fixpoint fs_lookup (n : fsnode) (elems : list string) : option fsnode :=
  match elems with
  | [] => Some n
  | e :: rest =>
      match n with
      | FDir entries =>
          match fs_find e entries with
          | Some c => fs_lookup c rest
          | None => None
          end
      | FFile _ _ => None
      end
  end.

(** What the process is started with: [os.Getwd], the filesystem, and the
    compiled ~/.gitignore_global when it loads. *)
Record env := {
  cwd : string;
  fsroot : fsnode;
  gitignore_global : option GitIgnore;
}.

Definition Stat (e : env) (p : string) : option fsnode :=
  let abs := if IsAbs p then p else cwd e +:+ "/" +:+ p in
  fs_lookup (fsroot e) (clean_elems true (split_slash abs)).

Record confIgnoreMatcher := {
  gitIgnore : option GitIgnore;
  confIgnore : option GitIgnore;
}.

Definition matches (g : option GitIgnore) (path : string) : bool :=
  match g with Some m => m path | None => false end.

Definition MatchesPath (l : confIgnoreMatcher) (path : string) : bool :=
  if matches (gitIgnore l) path then true
  else if matches (confIgnore l) path then true
  else false.

Record treeIgnoreMatcher := {
  root : string;
  global : option GitIgnore;
  local : gmap string confIgnoreMatcher;
}.

Definition newTreeIgnoreMatcher (e : env) (root : string) : treeIgnoreMatcher :=
  {| root := root; global := gitignore_global e; local := ∅ |}.

Section WithLibs.
Context `{Libs}.

(** [os.Stat(fp)] finds a non-directory and [ignore.CompileIgnoreFile(fp)]
    can read it. *)
Definition CompileIgnoreFile (e : env) (fp : string) : option GitIgnore :=
  match Stat e fp with
  | Some (FFile content true) => Some (compile_ignore content)
  | _ => None
  end.

Definition addPath (e : env) (tim : treeIgnoreMatcher) (path : string)
    : treeIgnoreMatcher :=
  match Rel (root tim) path with
  | None => tim
  | Some rel =>
      if HasPrefix rel "../" then tim
      else
        let cim := {| confIgnore := CompileIgnoreFile e (Join [path; ".confignore"]);
                      gitIgnore := CompileIgnoreFile e (Join [path; ".gitignore"]) |} in
        if bool_decide (confIgnore cim ≠ None ∨ gitIgnore cim ≠ None)
        then {| root := root tim; global := global tim;
                local := <[rel := cim]> (local tim) |}
        else tim
  end.

(** The loop of [Match]: one round per ancestor of [path]. *)
Fixpoint match_scopes (fuel : nat) (loc : gmap string confIgnoreMatcher)
    (path dir : string) : bool :=
  match fuel with
  | 0 => false
  | S n =>
      let dir := Dir dir in
      if match loc !! dir with
         | Some cim => MatchesPath cim path
         | None => false
         end
      then true
      else if bool_decide (dir = "." ∨ dir = "/") then false
      else match_scopes n loc path dir
  end.

Definition Match (tim : treeIgnoreMatcher) (path : string) (isDir : bool) : bool :=
  if matches (global tim) path then true
  else match Rel (root tim) path with
       | None => false
       | Some rel =>
           if HasPrefix rel "../" then false
           else match_scopes (length (split_slash rel)) (local tim) rel rel
       end.

(** [getFile] on the file Walk is visiting: compressed bytes and hex
    digest of the raw ones. *)
Definition getFile (info : fsnode) : option (string * string) :=
  match info with
  | FFile content true => Some (snappy_encode content, hex_digest content)
  | _ => None
  end.

Record opDesc := { path : string; isDel : bool }.

Record state := {
  tree : gset string;
  ops : list Op;
  opsDesc : list opDesc;
  gi : treeIgnoreMatcher;
}.

Definition put_txn (key hashKey data digest : string) : Op :=
  OpTxn [CreateRevisionNe0 key; CreateRevisionNe0 hashKey; ValueEq hashKey digest]
        []
        [OpPut key data; OpPut hashKey digest].

Definition del_txn (key : string) : Op :=
  OpTxn [] [OpDelete key; OpDelete (Join [key; ".hash"])] [].

Inductive walk_ret := WalkNil | SkipDir | WalkErr (msg : string).

(** The function handed to [filepath.Walk]. *)
Definition visit (e : env) (prefix root : string) (p : string) (info : fsnode)
    (st : state) : state * walk_ret :=
  if IsDir info then
    if bool_decide (Base p = ".git") then (st, SkipDir)
    else if Match (gi st) p true then (st, SkipDir)
    else ({| tree := tree st; ops := ops st; opsDesc := opsDesc st;
             gi := addPath e (gi st) p |}, WalkNil)
  else if bool_decide (Base p = ".gitignore") || bool_decide (Base p = ".confignore")
          || Match (gi st) p false
  then (st, WalkNil)
  else match getFile info with
       | None => (st, WalkErr ("error reading file " +:+ p))
       | Some (data, digest) =>
           let rel := default "" (Rel root p) in
           let key := Join [prefix; rel] in
           let hashKey := Join [key; ".hash"] in
           ({| tree := tree st ∖ {[key]};
               ops := ops st ++ [put_txn key hashKey data digest];
               opsDesc := opsDesc st ++ [{| path := key; isDel := false |}];
               gi := gi st |}, WalkNil)
       end.

(** [filepath.walk]: the directory before its entries, an entry's SkipDir
    skipping the rest of that directory only when the entry is itself a
    directory. *)
Fixpoint walk (e : env) (prefix root : string) (p : string) (info : fsnode)
    (st : state) {struct info} : state * walk_ret :=
  match info with
  | FFile _ _ => visit e prefix root p info st
  | FDir entries =>
      let '(st1, r) := visit e prefix root p info st in
      match r with
      | WalkNil =>
          (fix walk_names (names : list (string * fsnode)) (st : state)
               : state * walk_ret :=
             match names with
             | [] => (st, WalkNil)
             | (name, fileInfo) :: rest =>
                 let '(st', err) := walk e prefix root (Join [p; name]) fileInfo st in
                 match err with
                 | WalkNil => walk_names rest st'
                 | SkipDir => if IsDir fileInfo then walk_names rest st'
                              else (st', SkipDir)
                 | WalkErr _ => (st', err)
                 end
             end) entries st1
      | _ => (st1, r)
      end
  end.

(** [filepath.Walk]: a root that cannot be stat'ed reaches the callback
    with a nil info, which it dereferences. *)
Definition Walk (e : env) (prefix root : string) (st : state) : state * walk_ret :=
  match Stat e root with
  | None => (st, WalkErr "invalid memory address or nil pointer dereference")
  | Some info =>
      let '(st', err) := walk e prefix root root info st in
      (st', match err with SkipDir => WalkNil | _ => err end)
  end.

Inductive result :=
  | Failed (msg : string)
  | Pushed (c : gmap string string) (stdout : list string).

Definition report (d : opDesc) (r : option bool) : list string :=
  match r with
  | Some succeeded =>
      if isDel d then (if succeeded then ["removed " +:+ path d] else [])
      else if succeeded then [] else ["updated " +:+ path d]
  | None => []
  end.

(** The deletion candidates that are still not ignored.  Go ranges over
    the map [tree] in an order of its own choosing; [elements] fixes
    one. *)
Definition deletions (prefix root : string) (st : state) : list string :=
  filter (λ key, Match (gi st) (Join [root; default "" (Rel prefix key)]) false = false)
         (elements (tree st)).

(** Root and ignore scopes, as the three branches on [root] set them. *)
Definition resolve_root (e : env) (root : string) : option (string * treeIgnoreMatcher) :=
  if bool_decide (root = "") then Some (cwd e, newTreeIgnoreMatcher e (cwd e))
  else if IsAbs root then Some (root, newTreeIgnoreMatcher e root)
  else
    let root := Join [cwd e; root] in
    match Rel (cwd e) root with
    | None => None
    | Some rel =>
        if HasPrefix rel "../" then Some (root, newTreeIgnoreMatcher e root)
        else Some (root, addPath e (newTreeIgnoreMatcher e (cwd e)) (cwd e))
    end.

Definition initial_tree (c : gmap string string) (prefix : string) : gset string :=
  list_to_set (filter (λ key, Base key ≠ ".hash")
                      (get_prefix_keys c (Join [prefix; "/"]))).

(** Everything up to the end of the walk: the resolved root and the
    state the walk leaves, or the error the run stops with. *)
Definition walked (e : env) (c : gmap string string) (prefix root : string)
    : string + string * state :=
  match resolve_root e root with
  | None => inl "error getting source directory"
  | Some (root, gi0) =>
      let st0 := {| tree := initial_tree c prefix; ops := []; opsDesc := [];
                    gi := gi0 |} in
      match Walk e prefix root st0 with
      | (_, WalkErr msg) => inl msg
      | (st, _) => inr (root, st)
      end
  end.

(** The sub-transactions of the one transaction, with their descriptions. *)
Definition transaction (prefix root : string) (st : state) : list Op * list opDesc :=
  let dels := deletions prefix root st in
  (ops st ++ map del_txn dels,
   opsDesc st ++ map (λ key, {| path := key; isDel := true |}) dels).

Definition updateTreeRecursively (e : env) (c : gmap string string)
    (prefix root : string) : result :=
  match walked e c prefix root with
  | inl msg => Failed msg
  | inr (root, st) =>
      let '(ops, opsDesc) := transaction prefix root st in
      let '(c', responses) := commit c ops in
      Pushed c' (concat (zip_with report opsDesc responses))
  end.

(** The walk only takes keys out of the candidate set, every file it
    pushed is out of it, and it appends nothing but put-pairs. *)
Definition walk_inv (tree0 : gset string) (st : state) : Prop :=
  tree st ⊆ tree0
  ∧ (∀ d, d ∈ opsDesc st → (path d ∉ tree st) ∧ isDel d = false)
  ∧ Forall (λ op, ∃ key hashKey data digest, op = put_txn key hashKey data digest)
           (ops st).

End WithLibs.
End Put.

(** * watch.go *)

Module Watch.

(** The filesystem under a watcher, by cleaned path.  "/" and "." always
    name a directory. *)
Inductive node :=
  | File (content : string) (perm uid gid : Z)
  | Directory (perm uid gid : Z).

Definition lookup_node (f : gmap string node) (p : string) : option node :=
  if bool_decide (p = "/" ∨ p = ".") then Some (Directory 493 0 0) else f !! p.

Definition is_directory (n : option node) : bool :=
  match n with Some (Directory _ _ _) => true | _ => false end.

Definition is_file (n : option node) : bool :=
  match n with Some (File _ _ _ _) => true | _ => false end.

(** [Readdirnames(1)] would return a name. *)
Definition has_entry (f : gmap string node) (p : string) : bool :=
  bool_decide (set_Exists (λ q, q ≠ p ∧ Dir q = p) (dom f)).

Inductive syscall :=
  | SysStat (p : string)
  | SysReadFile (p : string)
  | SysMkdir (p : string) (perm : Z)
  | SysChown (p : string) (uid gid : Z)
  | SysChmod (p : string) (perm : Z)
  | SysTempFile (name : string)
  | SysWrite (p : string) (data : string)
  | SysClose (p : string)
  | SysRename (oldpath newpath : string)
  | SysUnlink (p : string)
  | SysOpen (p : string)
  | SysReaddirnames (p : string)
  | SysRmdir (p : string).

Inductive event :=
  | Sys (c : syscall) (ok : bool)
  | Stdout (line : string)
  | Stderr (line : string)
  | Exec (path : string) (argv : list string) (dir : string).

Record world := { fs : gmap string node; trace : list event }.

(** What the operating system decides: which calls fail for reasons
    outside the filesystem's state (permissions, a full disk), how many
    bytes a failing write leaves behind, the name [ioutil.TempFile]
    settles on, and the ids new files get. *)
Record os := {
  fault : syscall → bool;
  short_write : nat;
  random : string;
  euid : Z;
  egid : Z;
}.

Definition log (e : event) (wd : world) : world :=
  {| fs := fs wd; trace := trace wd ++ [e] |}.

Definition sys (c : syscall) (ok : bool) (f : gmap string node) (wd : world) : world :=
  {| fs := f; trace := trace wd ++ [Sys c ok] |}.

Section Syscalls.
Context (o : os).

Definition Stat (p : string) (wd : world) : world * option node :=
  let r := lookup_node (fs wd) p in
  (sys (SysStat p) (bool_decide (is_Some r)) (fs wd) wd, r).

Definition ReadFile (p : string) (wd : world) : world * option string :=
  let r := match lookup_node (fs wd) p with
           | Some (File content _ _ _) =>
               if fault o (SysReadFile p) then None else Some content
           | _ => None
           end in
  (sys (SysReadFile p) (bool_decide (is_Some r)) (fs wd) wd, r).

Definition Mkdir (p : string) (perm : Z) (wd : world) : world * bool :=
  let ok := negb (fault o (SysMkdir p perm))
            && bool_decide (lookup_node (fs wd) p = None)
            && is_directory (lookup_node (fs wd) (Dir p)) in
  (sys (SysMkdir p perm) ok
       (if ok then <[p := Directory perm (euid o) (egid o)]> (fs wd) else fs wd) wd,
   ok).

Definition chown_node (uid gid : Z) (n : node) : node :=
  match n with
  | File c perm _ _ => File c perm uid gid
  | Directory perm _ _ => Directory perm uid gid
  end.

Definition chmod_node (perm : Z) (n : node) : node :=
  match n with
  | File c _ uid gid => File c perm uid gid
  | Directory _ uid gid => Directory perm uid gid
  end.

Definition Chown (p : string) (uid gid : Z) (wd : world) : world * bool :=
  let ok := negb (fault o (SysChown p uid gid))
            && bool_decide (is_Some (fs wd !! p)) in
  (sys (SysChown p uid gid) ok
       (if ok then alter (chown_node uid gid) p (fs wd) else fs wd) wd, ok).

Definition Chmod (p : string) (perm : Z) (wd : world) : world * bool :=
  let ok := negb (fault o (SysChmod p perm))
            && bool_decide (is_Some (fs wd !! p)) in
  (sys (SysChmod p perm) ok
       (if ok then alter (chmod_node perm) p (fs wd) else fs wd) wd, ok).

(** [ioutil.TempFile(dir, ".temp*")]: a new file, opened O_EXCL. *)
Definition TempFile (dir : string) (wd : world) : world * option string :=
  let name := Join [dir; ".temp" +:+ random o] in
  let ok := negb (fault o (SysTempFile name))
            && is_directory (lookup_node (fs wd) dir)
            && bool_decide (lookup_node (fs wd) name = None) in
  (sys (SysTempFile name) ok
       (if ok then <[name := File "" 384 (euid o) (egid o)]> (fs wd) else fs wd) wd,
   if ok then Some name else None).

Definition write_node (data : string) (n : node) : node :=
  match n with
  | File _ perm uid gid => File data perm uid gid
  | Directory _ _ _ => n
  end.

Definition Write (p : string) (data : string) (wd : world) : world * bool :=
  let ok := negb (fault o (SysWrite p data)) in
  let written := if ok then data else String.substring 0 (short_write o) data in
  (sys (SysWrite p data) ok (alter (write_node written) p (fs wd)) wd, ok).

Definition Close (p : string) (wd : world) : world * bool :=
  let ok := negb (fault o (SysClose p)) in
  (sys (SysClose p) ok (fs wd) wd, ok).

Definition Rename (oldpath newpath : string) (wd : world) : world * bool :=
  match fs wd !! oldpath with
  | Some n =>
      let ok := negb (fault o (SysRename oldpath newpath))
                && negb (is_directory (lookup_node (fs wd) newpath)) in
      (sys (SysRename oldpath newpath) ok
           (if ok then <[newpath := n]> (delete oldpath (fs wd)) else fs wd) wd, ok)
  | None => (sys (SysRename oldpath newpath) false (fs wd) wd, false)
  end.

(** Removing an existing non-directory succeeds. *)
Definition Unlink (p : string) (wd : world) : world * bool :=
  let ok := is_file (fs wd !! p) in
  (sys (SysUnlink p) ok (if ok then delete p (fs wd) else fs wd) wd, ok).

Definition OpenFile (p : string) (wd : world) : world * bool :=
  let ok := bool_decide (is_Some (lookup_node (fs wd) p)) in
  (sys (SysOpen p) ok (fs wd) wd, ok).

(** [Readdirnames(1)]: [Some true] with a name, [Some false] at EOF. *)
Definition Readdirnames (p : string) (wd : world) : world * option bool :=
  let r := if is_directory (lookup_node (fs wd) p)
           then Some (has_entry (fs wd) p) else None in
  (sys (SysReaddirnames p) (bool_decide (is_Some r)) (fs wd) wd, r).

Definition Rmdir (p : string) (wd : world) : world * bool :=
  let ok := is_directory (fs wd !! p) && negb (has_entry (fs wd) p) in
  (sys (SysRmdir p) ok (if ok then delete p (fs wd) else fs wd) wd, ok).

End Syscalls.

(** ** Reading a trace *)

Definition is_rename (e : event) : bool :=
  match e with Sys (SysRename _ _) true => true | _ => false end.

Definition is_exec (e : event) : bool :=
  match e with Exec _ _ _ => true | _ => false end.

Definition is_temp (e : event) : bool :=
  match e with Sys (SysTempFile _) _ => true | _ => false end.

Definition count (f : event → bool) (evs : list event) : nat :=
  length (List.filter f evs).

Record watcher := {
  prefix : string;
  root : string;
  rootOwner : Z;
  rootGroup : Z;
  rootMask : Z;
  cmd : string;
  args : list string;
}.

Inductive EventType := EventTypePut | EventTypeDelete.

Record Event := { Type_ : EventType; Key : string; Value : string }.

Record WatchResponse := { Canceled : bool; Events : list Event }.

Definition error := string.

Definition runCmd (w : watcher) (wd : world) : world :=
  log (Exec (cmd w) (args w) (root w)) wd.

Definition keyRelPath (prefix key : string) : option string :=
  if bool_decide (key = prefix) then Some (Base key)
  else match Rel prefix key with
       | None => None
       | Some rel =>
           if HasPrefix rel "../" || bool_decide (Base rel = ".hash") then None
           else Some rel
       end.

(** The mode [mkdirAll] creates directories with; in Go [mode & 4 << n]
    is [(mode & 4) << n]. *)
Definition dir_mode (mode : Z) : Z :=
  if bool_decide (mode = -1)%Z then 493%Z
  else fold_left
         (λ m i, if bool_decide (Z.shiftl (Z.land m 4) (i * 3) ≠ 0)%Z
                 then Z.lor m (Z.shiftl 1 (i * 3)) else m)
         [0; 1; 2]%Z mode.

Section WithOs.
Context `{Libs} (o : os).

(** The first loop of [mkdirAll]: the missing ancestors of [path],
    nearest first. *)
Fixpoint mkdirAll_missing (fuel : nat) (d : string) (elts : list string)
    (wd : world) : option (world * (error + list string)) :=
  match fuel with
  | 0 => None
  | S n =>
      let d := Dir d in
      if bool_decide (d = "." ∨ d = "/") then Some (wd, inr elts)
      else
        let '(wd, dir) := Stat d wd in
        match dir with
        | Some (Directory _ _ _) => Some (wd, inr elts)
        | Some (File _ _ _ _) => Some (wd, inl (d +:+ " is not a directory"))
        | None => mkdirAll_missing n d (elts ++ [d]) wd
        end
  end.

(** The second loop: [elts] from its last element to its first. *)
Fixpoint mkdirAll_create (rev_elts : list string) (owner group mode : Z)
    (wd : world) : world * option error :=
  match rev_elts with
  | [] => (wd, None)
  | d :: rest =>
      let '(wd, ok) := Mkdir o d mode wd in
      if negb ok then (wd, Some ("error creating directory " +:+ d))
      else if bool_decide (0 ≤ owner)%Z then
        let '(wd, ok) := Chown o d owner group wd in
        if negb ok then (wd, Some ("error chown " +:+ d))
        else mkdirAll_create rest owner group mode wd
      else mkdirAll_create rest owner group mode wd
  end.

Definition mkdirAll (fuel : nat) (path : string) (owner group mode : Z)
    (wd : world) : option (world * option error) :=
  let mode := dir_mode mode in
  let '(wd, dir) := Stat path wd in
  match dir with
  | Some (Directory _ _ _) => Some (wd, None)
  | Some (File _ _ _ _) => Some (wd, Some (path +:+ " is not a directory"))
  | None =>
      match mkdirAll_missing fuel path [path] wd with
      | None => None
      | Some (wd, inl err) => Some (wd, Some err)
      | Some (wd, inr elts) => Some (mkdirAll_create (rev elts) owner group mode wd)
      end
  end.

(** What [maybeUpdateFile] does once the temporary file exists. *)
Definition install (w : watcher) (path tmp content : string) (wd : world)
    : world * (bool * option error) :=
  let fail (msg : string) (wd : world) :=
    ((Unlink tmp wd).1, (false, Some (msg +:+ path))) in
  let '(wd, ok) := Write o tmp content wd in
  if negb ok then fail "error updating " wd
  else
    let '(wd, ok) := Close o tmp wd in
    if negb ok then fail "error updating " wd
    else
      let '(wd, ok) := Chmod o tmp (rootMask w) wd in
      if negb ok then fail "error setting permissions on file " wd
      else
        let '(wd, ok) :=
          if bool_decide (0 ≤ rootOwner w)%Z
          then Chown o tmp (rootOwner w) (rootGroup w) wd
          else (wd, true) in
        if negb ok then fail "error setting ownership on file " wd
        else
          let '(wd, ok) := Rename o tmp path wd in
          if negb ok then fail "error updating " wd
          else (wd, (true, None)).

Definition replace_file (w : watcher) (path p content : string) (wd : world)
    : world * (bool * option error) :=
  let '(wd, f) := TempFile o p wd in
  match f with
  | None => (wd, (false, Some ("error updating " +:+ path)))
  | Some tmp => install w path tmp content wd
  end.

Definition maybeUpdateFile (fuel : nat) (w : watcher) (path content : string)
    (wd : world) : option (world * (bool * option error)) :=
  let p := Dir path in
  let '(wd, fi) := Stat path wd in
  match fi with
  | Some (Directory _ _ _) =>
      Some (wd, (false, Some ("error updating file: " +:+ path +:+ " is a direcotry")))
  | Some (File _ _ _ _) =>
      let '(wd, fileContent) := ReadFile o path wd in
      if bool_decide (fileContent = Some content) then Some (wd, (false, None))
      else Some (replace_file w path p content wd)
  | None =>
      let '(wd, fi) := Stat p wd in
      match fi with
      | Some (File _ _ _ _) =>
          Some (wd, (false, Some ("error updating " +:+ path +:+ ": "
                                  +:+ p +:+ " is not a directory")))
      | Some (Directory _ _ _) => Some (replace_file w path p content wd)
      | None =>
          match mkdirAll fuel p (rootOwner w) (rootGroup w) (rootMask w) wd with
          | None => None
          | Some (wd, Some err) =>
              Some (wd, (false, Some ("error updating " +:+ path
                                      +:+ ": can't create directory " +:+ p
                                      +:+ ": " +:+ err)))
          | Some (wd, None) => Some (replace_file w path p content wd)
          end
      end
  end.

Definition maybeRemoveDir (path : string) (wd : world)
    : world * (bool * option error) :=
  let '(wd, ok) := OpenFile path wd in
  if negb ok then (wd, (false, Some ("error reading dir " +:+ path)))
  else
    let '(wd, dn) := Readdirnames path wd in
    match dn with
    | None => (wd, (false, Some ("error reading dir " +:+ path)))
    | Some true => (wd, (false, None))
    | Some false =>
        let '(wd, ok) := Rmdir path wd in
        if negb ok then (wd, (false, Some ("error removing dir " +:+ path)))
        else (wd, (true, None))
    end.

Definition sync_error (fn : string) (err : error) : string :=
  "failed to synchronize file " +:+ fn +:+ ": " +:+ err.

(** The loop after a successful unlink, from the file upwards. *)
Fixpoint prune (fuel : nat) (w : watcher) (d : string) (wd : world)
    : option world :=
  match fuel with
  | 0 => None
  | S n =>
      let d := Dir d in
      if bool_decide (d = root w) then Some wd
      else
        let '(wd, r) := maybeRemoveDir d wd in
        prune n w d
          match r with
          | (_, Some err) => log (Stderr err) wd
          | (true, None) => log (Stdout ("removed " +:+ d +:+ "/")) wd
          | (false, None) => wd
          end
  end.

(** Decompress and materialize, as the initial read and the event loop
    both do; [true] when the file was replaced.  [report] words the error
    of a failed materialization: the event loop prints it as it is, the
    initial read puts "failed to synchronize file" before it. *)
Definition update (fuel : nat) (w : watcher) (report : error → string)
    (fn value : string) (wd : world) : option (world * bool) :=
  match snappy_decode value with
  | None =>
      Some (log (Stderr ("error decompressing file " +:+ fn
                         +:+ " content, skipping")) wd, false)
  | Some data =>
      match maybeUpdateFile fuel w fn data wd with
      | None => None
      | Some (wd, (_, Some err)) => Some (log (Stderr (report err)) wd, false)
      | Some (wd, (updated, None)) => Some (wd, updated)
      end
  end.

(** One event of a watch response; the count of updated files after it. *)
Definition handle_event (fuel : nat) (w : watcher) (ev : Event) (cnt : nat)
    (wd : world) : option (world * nat) :=
  match keyRelPath (prefix w) (Key ev) with
  | None => Some (wd, cnt)
  | Some key =>
      let fn := Join [root w; key] in
      match Type_ ev with
      | EventTypeDelete =>
          let '(wd, ok) := Unlink fn wd in
          if negb ok then Some (log (Stderr ("error removing file " +:+ fn)) wd, cnt)
          else
            match prune fuel w fn (log (Stdout ("removed " +:+ fn)) wd) with
            | None => None
            | Some wd => Some (wd, cnt)
            end
      | EventTypePut =>
          match update fuel w id fn (Value ev) wd with
          | None => None
          | Some (wd, updated) => Some (wd, if updated then S cnt else cnt)
          end
      end
  end.

Fixpoint handle_events (fuel : nat) (w : watcher) (evs : list Event) (cnt : nat)
    (wd : world) : option (world * nat) :=
  match evs with
  | [] => Some (wd, cnt)
  | ev :: rest =>
      match handle_event fuel w ev cnt wd with
      | None => None
      | Some (wd, cnt) => handle_events fuel w rest cnt wd
      end
  end.

(** The body of [for resp := range ch]. *)
Definition handle_response (fuel : nat) (w : watcher) (resp : WatchResponse)
    (wd : world) : option world :=
  let wd := if Canceled resp then log (Stderr "watch was canceled") wd else wd in
  match handle_events fuel w (Events resp) 0 wd with
  | None => None
  | Some (wd, cnt) => Some (if bool_decide (0 < cnt) then runCmd w wd else wd)
  end.

Fixpoint initialSync_kvs (fuel : nat) (w : watcher) (kvs : list (string * string))
    (cnt : nat) (wd : world) : option (world * nat) :=
  match kvs with
  | [] => Some (wd, cnt)
  | (k, v) :: rest =>
      match keyRelPath (prefix w) k with
      | None => initialSync_kvs fuel w rest cnt wd
      | Some key =>
          let fn := Join [root w; key] in
          match update fuel w (sync_error fn) fn v wd with
          | None => None
          | Some (wd, updated) =>
              initialSync_kvs fuel w rest (if updated then S cnt else cnt) wd
          end
      end
  end.

Definition initialSync (fuel : nat) (w : watcher) (c : gmap string string)
    (wd : world) : option (world * nat) :=
  initialSync_kvs fuel w (get_prefix c (prefix w)) 0 wd.

(** [run], over the responses the watch channel delivers. *)
Definition run (fuel : nat) (w : watcher) (c : gmap string string)
    (ch : list WatchResponse) (wd : world) : option world :=
  match initialSync fuel w c wd with
  | None => None
  | Some (wd, cnt) =>
      foldl (λ acc resp, acc ≫= handle_response fuel w resp)
            (Some (if bool_decide (0 < cnt) then runCmd w wd else wd)) ch
  end.

End WithOs.
End Watch.

(** A sub-transaction of a push and its description: a put-pair for a
    pushed file, or the deletion of a key. *)
Definition pair_ok (o : Op) (d : Put.opDesc) : Prop :=
  (Put.isDel d = false
   ∧ ∃ data digest,
       o = Put.put_txn (Put.path d) (Join [Put.path d; ".hash"]) data digest)
  ∨ (Put.isDel d = true ∧ o = Put.del_txn (Put.path d)).

(** Two states of the walk that differ in the deletion candidates only. *)
Definition same_push (st1 st2 : Put.state) : Prop :=
  Put.ops st1 = Put.ops st2 ∧ Put.opsDesc st1 = Put.opsDesc st2
  ∧ Put.gi st1 = Put.gi st2.

(** The keys the put-pairs of a push write: each content key followed by
    its companion. *)
Definition written_keys (ds : list Put.opDesc) : list string :=
  ds ≫= λ d, [Put.path d; Join [Put.path d; ".hash"]].

(** * Inputs for worked examples *)

Module Sample.

(** Stand-ins for the linked libraries: a digest and a compressor that
    tag their input, and ignore files that hold one path to match
    literally. *)
Definition libs : Libs := {|
  hex_digest s := "sha:" +:+ s;
  snappy_encode s := "sz:" +:+ s;
  snappy_decode s :=
    if String.prefix "sz:" s
    then Some (String.substring 3 (String.length s - 3) s) else None;
  compile_ignore content := λ p, bool_decide (p = content);
|}.

(** An operating system on which no call fails for outside reasons. *)
Definition calm : Watch.os := {|
  Watch.fault := λ _, false;
  Watch.short_write := 0;
  Watch.random := "123";
  Watch.euid := 0;
  Watch.egid := 0;
|}.

Definition watcher_at (root : string) : Watch.watcher := {|
  Watch.prefix := "/svc/app";
  Watch.root := root;
  Watch.rootOwner := -1;
  Watch.rootGroup := -1;
  Watch.rootMask := 420;
  Watch.cmd := "/usr/bin/sv";
  Watch.args := ["sv"; "reload"; "app"];
|}.

Definition put (key content : string) : Watch.Event :=
  {| Watch.Type_ := Watch.EventTypePut; Watch.Key := key;
     Watch.Value := "sz:" +:+ content |}.

Definition del (key : string) : Watch.Event :=
  {| Watch.Type_ := Watch.EventTypeDelete; Watch.Key := key; Watch.Value := "" |}.

Definition dirs (ps : list string) : gmap string Watch.node :=
  list_to_map ((λ p, (p, Watch.Directory 493 0 0)) <$> ps).

Definition file (content : string) : Watch.node := Watch.File content 420 0 0.

(** A working directory /work holding a.txt, sub/b.txt and a .gitignore
    that names secret.txt. *)
Definition work_tree : Put.fsnode :=
  Put.FDir [("work", Put.FDir [
    (".gitignore", Put.FFile "secret.txt" true);
    ("a.txt", Put.FFile "hello" true);
    ("secret.txt", Put.FFile "hunter2" true);
    ("sub", Put.FDir [("b.txt", Put.FFile "world" true)])])].

Definition work_env : Put.env :=
  {| Put.cwd := "/work"; Put.fsroot := work_tree; Put.gitignore_global := None |}.

End Sample.

(** * Go's strings and strconv, as far as the command line needs them *)

Module GoStrings.

(** [strings.Split(s, sep)] for a one-byte separator. *)
Fixpoint Split (s : string) (sep : ascii) : list string :=
  match s with
  | EmptyString => [EmptyString]
  | String c s' =>
      if Ascii.eqb c sep then EmptyString :: Split s' sep
      else match Split s' sep with
           | e :: es => String c e :: es
           | [] => [String c EmptyString]
           end
  end.

(** [strings.SplitN(s, sep, 2)]: cut at the first separator. *)
Fixpoint SplitN2 (s : string) (sep : ascii) : list string :=
  match s with
  | EmptyString => [EmptyString]
  | String c s' =>
      if Ascii.eqb c sep then [EmptyString; s']
      else match SplitN2 s' sep with
           | e :: es => String c e :: es
           | [] => [String c EmptyString]
           end
  end.

(** The byte [sep] does not occur in [s]. *)
Fixpoint lacks (sep : ascii) (s : string) : bool :=
  match s with
  | EmptyString => true
  | String c s' => negb (Ascii.eqb c sep) && lacks sep s'
  end.

(** The value of a digit, as [strconv.ParseUint] reads it. *)
Definition digit_val (c : ascii) : option Z :=
  let n := Z.of_N (N_of_ascii c) in
  if bool_decide (48 ≤ n ≤ 57)%Z then Some (n - 48)%Z
  else if bool_decide (97 ≤ n ≤ 122)%Z then Some (n - 97 + 10)%Z
  else if bool_decide (65 ≤ n ≤ 90)%Z then Some (n - 65 + 10)%Z
  else None.

Fixpoint parse_digits (base : Z) (s : string) (acc : Z) : option Z :=
  match s with
  | EmptyString => Some acc
  | String c s' =>
      match digit_val c with
      | Some d => if bool_decide (d < base)%Z
                  then parse_digits base s' (acc * base + d)%Z else None
      | None => None
      end
  end.

(** [strconv.ParseInt(s, base, bitSize)] for an explicit base (8 or 10
    here); [None] is any of its errors, syntax or range. *)
Definition ParseInt (s : string) (base bitSize : Z) : option Z :=
  let '(neg, digits) :=
    match s with
    | String "+" r => (false, r)
    | String "-" r => (true, r)
    | _ => (false, s)
    end in
  if bool_decide (digits = "") then None
  else match parse_digits base digits 0 with
       | None => None
       | Some un =>
           let cutoff := (2 ^ (bitSize - 1))%Z in
           if negb neg && bool_decide (cutoff ≤ un)%Z then None
           else if neg && bool_decide (cutoff < un)%Z then None
           else Some (if neg then - un else un)%Z
       end.

End GoStrings.
Export GoStrings.


(** * watch.go: the command line of [watch] *)

Module WatchCmd.

(** [os/user]: the accounts the host knows. *)
Record User := { Uid : string; Gid : string }.

(** [user.Group]; the field is [Gid] in Go. *)
Record Group := { GroupGid : string }.

Record accounts := {
  Lookup : string → option User;
  LookupId : string → option User;
  LookupGroup : string → option Group;
  LookupGroupId : string → option Group;
  Current : option User;
}.

(** The flags of [watch]. *)
Record flags := {
  watchPrefix : string;
  keepalivedFifo : string;
  keepalivedPrefix : string;
  keepalivedInstance : string;
}.

Section WithHost.
Context (db : accounts) (LookPath : string → option string).

(** [case 4] of [parseRoot]: the mode. *)
Definition parse_umask (a3 : string) : string + Z :=
  if bool_decide (a3 ≠ "") then
    match ParseInt a3 8 8 with
    | None => inl "invalid file umask"
    | Some i => inr i
    end
  else inr 420%Z.

(** [case 3]: the group.  The second test is on [e], the error of
    [LookupGroup], as in the source. *)
Definition parse_group (a2 : string) : string + string :=
  if bool_decide (a2 ≠ "") then
    let e := LookupGroup db a2 in
    match e with
    | Some grp => inr (GroupGid grp)
    | None =>
        let grp := LookupGroupId db a2 in
        if bool_decide (is_Some e) then inr (default "" (GroupGid <$> grp))
        else inl ("no group " +:+ a2 +:+ " found")
    end
  else inr "".

(** [case 2]: the owner; both lookups set [uid] from [usr.Gid]. *)
Definition parse_owner (a1 gid : string) : string + string * string :=
  let with_gid (usr : User) := if bool_decide (gid = "") then Gid usr else gid in
  if bool_decide (a1 ≠ "") then
    match Lookup db a1 with
    | Some usr => inr (Gid usr, with_gid usr)
    | None =>
        match LookupId db a1 with
        | Some usr => inr (Gid usr, with_gid usr)
        | None => inl ("no user " +:+ a1 +:+ " found")
        end
    end
  else
    match Current db with
    | None => inl "user: Current failed"
    | Some usr => inr (Uid usr, with_gid usr)
    end.

(** What follows the switch: the ids as numbers. *)
Definition parse_ids (root uid gid : string) (umask : Z)
    : string + string * Z * Z * Z :=
  match (if bool_decide (gid ≠ "") then
           match ParseInt gid 10 64 with
           | None => inl ("user.LookupGroup returned invalid group id: " +:+ gid)
           | Some i => inr i
           end
         else inr (-1)%Z) with
  | inl err => inl err
  | inr group =>
      match (if bool_decide (uid ≠ "") then
               match ParseInt uid 10 64 with
               | None => inl ("user.LookupUser returned invalid group id: " +:+ uid)
               | Some i => inr i
               end
             else inr (-1)%Z) with
      | inl err => inl err
      | inr owner => inr (root, owner, group, umask)
      end
  end.

(** [parseRoot]: root, owner, group, mode, or the error. *)
Definition parseRoot (arg : string) : string + string * Z * Z * Z :=
  let from_owner (a0 a1 gid : string) (umask : Z) :=
    match parse_owner a1 gid with
    | inl err => inl err
    | inr (uid, gid) => parse_ids a0 uid gid umask
    end in
  let from_group (a0 a1 a2 : string) (umask : Z) :=
    match parse_group a2 with
    | inl err => inl err
    | inr gid => from_owner a0 a1 gid umask
    end in
  match Split arg ":" with
  | [a0; a1; a2; a3] =>
      match parse_umask a3 with
      | inl err => inl err
      | inr umask => from_group a0 a1 a2 umask
      end
  | [a0; a1; a2] => from_group a0 a1 a2 420%Z
  | [a0; a1] => from_owner a0 a1 "" 420%Z
  | [a0] => parse_ids a0 "" "" 420%Z
  | _ => inl ("invalid root string (must be root[:owner[:group[:umask]]]): " +:+ arg)
  end.

(** The words up to the first "--" and the words after it. *)
Fixpoint cut_group (l : list string) : option (list string * list string) :=
  match l with
  | [] => None
  | a :: l' =>
      if bool_decide (a = "--") then Some ([], l')
      else match cut_group l' with
           | Some (before, after) => Some (a :: before, after)
           | None => None
           end
  end.

(** The loop of [watchCommandFunc], entered at [Outer]. *)
Fixpoint definitions (fuel : nat) (watchPrefix : string) (args : list string)
    (watchers : list Watch.watcher) : option (string + list Watch.watcher) :=
  match fuel with
  | 0 => None
  | S n =>
      match args with
      | [] => Some (inl "empty watcher definition (trailing --?)")
      | [_] => Some (inl "watcher root directory missing")
      | [_; _] => Some (inl "watcher command missing")
      | a0 :: a1 :: a2 :: rest =>
          match LookPath a2 with
          | None => Some (inl ("error finding command " +:+ a2))
          | Some cmd =>
              match parseRoot a1 with
              | inl err => Some (inl err)
              | inr (root, owner, group, umask) =>
                  let watcher (args : list string) :=
                    {| Watch.prefix := Join ["/"; watchPrefix; a0];
                       Watch.root := root;
                       Watch.rootOwner := owner;
                       Watch.rootGroup := group;
                       Watch.rootMask := umask;
                       Watch.cmd := cmd;
                       Watch.args := args |} in
                  match cut_group rest with
                  | Some (before, after) =>
                      definitions n watchPrefix after
                        (watchers ++ [watcher (a2 :: before)])
                  | None => Some (inr (watchers ++ [watcher (a2 :: rest)]))
                  end
              end
          end
      end
  end.

(** One watcher definition as typed: prefix, root, command, and the
    further words of the command. *)
Record definition := {
  def_prefix : string;
  def_root : string;
  def_cmd : string;
  def_args : list string;
}.

Definition words (d : definition) : list string :=
  def_prefix d :: def_root d :: def_cmd d :: def_args d.

(** Definitions written one after the other, "--" between them. *)
Fixpoint command_line (ds : list definition) : list string :=
  match ds with
  | [] => []
  | [d] => words d
  | d :: ds' => words d ++ "--" :: command_line ds'
  end.

(** The watcher a definition stands for, when its command is found and
    its root parses. *)
Definition watcher_of (watchPrefix : string) (d : definition) : option Watch.watcher :=
  match LookPath (def_cmd d), parseRoot (def_root d) with
  | Some cmd, inr (root, owner, group, umask) =>
      Some {| Watch.prefix := Join ["/"; watchPrefix; def_prefix d];
              Watch.root := root;
              Watch.rootOwner := owner;
              Watch.rootGroup := group;
              Watch.rootMask := umask;
              Watch.cmd := cmd;
              Watch.args := def_cmd d :: def_args d |}
  | _, _ => None
  end.

(** [watchCommandFunc] up to its call of [runWatchers]: the watchers and
    the key prefix of the keepalived status, or the error. *)
Definition watchCommandFunc (f : flags) (args : list string)
    : option (string + list Watch.watcher * string) :=
  match (if bool_decide (args = []) then Some (inr [])
         else definitions (length args) (watchPrefix f) args []) with
  | None => None
  | Some (inl err) => Some (inl err)
  | Some (inr watchers) =>
      if bool_decide (keepalivedFifo f ≠ "" ∧ keepalivedInstance f = "") then
        Some (inl "--ka-instance name must be set for processing keepalived events")
      else if bool_decide (keepalivedInstance f ≠ "" ∧ keepalivedFifo f = "") then
        Some (inl ("--ka-fifo name must be set for processing keepalived instance "
                   +:+ keepalivedInstance f +:+ " events"))
      else if bool_decide (keepalivedFifo f ≠ "" ∧ keepalivedInstance f ≠ "")
              && bool_decide (watchPrefix f ≠ "") then
        Some (inr (watchers, Join ["/"; watchPrefix f; keepalivedPrefix f]))
      else Some (inr (watchers, keepalivedPrefix f))
  end.

End WithHost.
End WatchCmd.

(** * update-state: keys set and deleted in one transaction *)

Module UpdateState.

(** The operation of one [<op> <key> <value>] triple; [None] for an
    unknown command. *)
Definition operation (basePrefix cmd key value : string) : option Op :=
  let key := if bool_decide (basePrefix ≠ "") then Join [basePrefix; key] else key in
  if bool_decide (cmd = "set") then Some (OpPut key value)
  else if bool_decide (cmd = "del-if-same")
  then Some (OpTxn [ValueEq key value] [OpDelete key] [])
  else None.

(** The loop of [updateStateFunc]: the operations, or the error it
    returns before it contacts the store. *)
Fixpoint operations (basePrefix : string) (args : list string) (ops : list Op)
    {struct args} : string + list Op :=
  match args with
  | [] => inr ops
  | a :: rest =>
      match (if bool_decide (a = "--") then rest else args) with
      | [] => inl "no command (trailing --?)"
      | [_] => inl "key missing"
      | [_; _] => inl "value missing"
      | cmd :: key :: value :: args =>
          match operation basePrefix cmd key value with
          | Some op => operations basePrefix args (ops ++ [op])
          | None => inl ("unknown command " +:+ cmd)
          end
      end
  end.

(** [updateStateFunc]: the store after the commit, or the error. *)
Definition updateStateFunc (basePrefix : string) (args : list string)
    (c : gmap string string) : string + gmap string string :=
  match operations basePrefix args [] with
  | inl err => inl err
  | inr ops => inr (commit c ops).1
  end.

(** One triple as typed, after "--" or not. *)
Record triple := { sep : bool; op : string; key : string; value : string }.

Definition words (t : triple) : list string :=
  (if sep t then ["--"] else []) ++ [op t; key t; value t].

(** The key a triple acts on. *)
Definition full_key (basePrefix : string) (t : triple) : string :=
  if bool_decide (basePrefix ≠ "") then Join [basePrefix; key t] else key t.

(** What a triple does to its key, given the store [c] the transaction
    started from and what the key held before the operation. *)
Definition outcome (basePrefix : string) (c : gmap string string) (t : triple)
    (old : option string) : option string :=
  if bool_decide (op t = "set") then Some (value t)
  else if bool_decide (c !! full_key basePrefix t = Some (value t)) then None else old.

End UpdateState.

(** * watch.go: the keepalived status *)

Module Keepalived.

(** The two operations of [updateKeepalivedStatus]. *)
Definition status_ops (keepalivedPrefix keepalivedInstance kind instance state : string)
    : list Op :=
  let ckey := Join [keepalivedPrefix; "current"; kind; instance] in
  [OpPut (Join [keepalivedPrefix; keepalivedInstance; kind; instance]) state;
   if bool_decide (state = "MASTER") then OpPut ckey keepalivedInstance
   else OpTxn [ValueEq ckey keepalivedInstance] [OpDelete ckey] []].

Definition updateKeepalivedStatus (keepalivedPrefix keepalivedInstance : string)
    (kind instance state : string) (c : gmap string string) : gmap string string :=
  (commit c (status_ops keepalivedPrefix keepalivedInstance kind instance state)).1.

(** One line of the events FIFO in [runKeepaliveStateUpdater]; [parse] is
    go-shellwords. *)
Definition handle_line (parse : string → option (list string))
    (keepalivedPrefix keepalivedInstance : string) (line : string)
    (c : gmap string string) : gmap string string :=
  match parse line with
  | Some (kind :: instance :: state :: _) =>
      updateKeepalivedStatus keepalivedPrefix keepalivedInstance kind instance state c
  | _ => c
  end.

End Keepalived.

(** * client.go: the client configuration *)

Module Client.

Record tls_files := { certFile : string; keyFile : string; caFile : string }.

Record globals := {
  endpoints : list string;
  serviceName : string;
  insecure : bool;
  insecureDiscovery : bool;
  insecureSkipVerify : bool;
  tls : tls_files;
  user : string;
}.

(** [transport.TLSInfo], as far as [mustClient] fills it. *)
Record TLSInfo := {
  CertFile : string;
  KeyFile : string;
  TrustedCAFile : string;
  ServerName : string;
}.

(** [tls.Config]: built from a [TLSInfo] or empty, and the flag
    [mustClient] may set. *)
Record tls_config := { info : option TLSInfo; InsecureSkipVerify : bool }.

Record Config := {
  Endpoints : list string;
  TLS : option tls_config;
  Username : string;
  Password : string;
}.

(** What the host answers: the SRV lookup, whether the TLS files load,
    and the password typed at the prompt. *)
Record host := {
  GetClient : string → option (list string);
  ClientConfig : TLSInfo → bool;
  Ask : option string;
}.

(** The loop over the discovered endpoints; the test is
    [strings.HasPrefix("http://", eps[i])]. *)
Fixpoint secure_only (eps : list string) : list string :=
  match eps with
  | [] => []
  | ep :: eps' =>
      if HasPrefix "http://" ep then secure_only eps' else ep :: secure_only eps'
  end.

Definition pick_endpoints (h : host) (g : globals) : string + list string :=
  if bool_decide (0 < length (endpoints g)) then inr (endpoints g)
  else if bool_decide (serviceName g ≠ "") then
    match GetClient h (serviceName g) with
    | None => inl "srv lookup failed"
    | Some eps =>
        let eps := if negb (insecureDiscovery g) then secure_only eps else eps in
        if bool_decide (length eps = 0)
        then inl ("no endpoints discovered for " +:+ serviceName g)
        else inr eps
    end
  else inr ["127.0.0.1:2379"].

Definition pick_tls (h : host) (g : globals) : string + option tls_config :=
  let cert := certFile (tls g) in
  let key := keyFile (tls g) in
  if bool_decide (cert = "") && bool_decide (key ≠ "")
  then inl "no TLS cert file specified"
  else if bool_decide (cert ≠ "") && bool_decide (key = "")
  then inl "no TLS key file specified"
  else
    let useTLS := bool_decide (cert ≠ "") in
    let tlsInfo := {| CertFile := if useTLS then cert else "";
                      KeyFile := if useTLS then key else "";
                      TrustedCAFile := caFile (tls g);
                      ServerName := "" |} in
    let useTLS := useTLS || bool_decide (caFile (tls g) ≠ "") in
    let tlsInfo :=
      if useTLS && bool_decide (serviceName g ≠ "")
      then {| CertFile := CertFile tlsInfo; KeyFile := KeyFile tlsInfo;
              TrustedCAFile := TrustedCAFile tlsInfo; ServerName := serviceName g |}
      else tlsInfo in
    match (if useTLS then
             if ClientConfig h tlsInfo
             then inr (Some {| info := Some tlsInfo; InsecureSkipVerify := false |})
             else inl "TLS configuration failed"
           else inr None) with
    | inl err => inl err
    | inr cfg =>
        let cfg := match cfg with
                   | None => if negb (insecure g)
                             then Some {| info := None; InsecureSkipVerify := false |}
                             else None
                   | Some _ => cfg
                   end in
        inr (match cfg with
             | Some t => if insecureSkipVerify g
                         then Some {| info := info t; InsecureSkipVerify := true |}
                         else cfg
             | None => None
             end)
    end.

Definition pick_user (h : host) (g : globals) : string + string * string :=
  if bool_decide (user g ≠ "") then
    match SplitN2 (user g) ":" with
    | [name; password] => inr (name, password)
    | _ => match Ask h with
           | Some pw => inr (user g, pw)
           | None => inl "password prompt failed"
           end
    end
  else inr ("", "").

(** [mustClient] up to [clientv3.New]: the configuration, or the error
    [fail] exits with. *)
Definition mustClient (h : host) (g : globals) : string + Config :=
  match pick_endpoints h g with
  | inl err => inl err
  | inr eps =>
      match pick_tls h g with
      | inl err => inl err
      | inr t =>
          match pick_user h g with
          | inl err => inl err
          | inr (name, password) =>
              inr {| Endpoints := eps; TLS := t; Username := name; Password := password |}
          end
      end
  end.

End Client.

(** * More inputs for worked examples *)

Module Host.

(** A host with the user www (uid 33, gid 34), the group staff (gid 50),
    run by the user with uid 1000 and gid 1001. *)
Definition db : WatchCmd.accounts := {|
  WatchCmd.Lookup n :=
    if bool_decide (n = "www")
    then Some {| WatchCmd.Uid := "33"; WatchCmd.Gid := "34" |} else None;
  WatchCmd.LookupId n :=
    if bool_decide (n = "33")
    then Some {| WatchCmd.Uid := "33"; WatchCmd.Gid := "34" |} else None;
  WatchCmd.LookupGroup n :=
    if bool_decide (n = "staff") then Some {| WatchCmd.GroupGid := "50" |} else None;
  WatchCmd.LookupGroupId n :=
    if bool_decide (n = "50") then Some {| WatchCmd.GroupGid := "50" |} else None;
  WatchCmd.Current := Some {| WatchCmd.Uid := "1000"; WatchCmd.Gid := "1001" |};
|}.

(** A PATH on which only sv is found. *)
Definition LookPath (c : string) : option string :=
  if bool_decide (c = "sv") then Some "/usr/bin/sv" else None.

Definition no_keepalived (watchPrefix : string) : WatchCmd.flags :=
  {| WatchCmd.watchPrefix := watchPrefix; WatchCmd.keepalivedFifo := "";
     WatchCmd.keepalivedPrefix := ""; WatchCmd.keepalivedInstance := "" |}.

End Host.

(** * Facts about paths *)

Section PathFacts.

(** ** Splitting and joining *)


Lemma is_sep_true c : is_sep c = true → c = "/"%char.
Proof. unfold is_sep. intros H. by apply Ascii.eqb_eq in H. Qed.

Lemma split_slash_nonnil s : split_slash s ≠ [].
Proof.
  destruct s as [|c s]; simpl; [done|].
  destruct (is_sep c); [done|]. by destruct (split_slash s).
Qed.

Lemma split_slash_no_slash s : Forall (λ e, no_slash e = true) (split_slash s).
Proof.
  induction s as [|c s IH]; simpl.
  - by repeat constructor.
  - destruct (is_sep c) eqn:Hc.
    + by constructor.
    + destruct (split_slash s) as [|e es]; [by repeat constructor; simpl; rewrite Hc|].
      inversion_clear IH. constructor; [|done]. simpl. by rewrite Hc.
Qed.

Lemma split_slash_single e : no_slash e = true → split_slash e = [e].
Proof.
  induction e as [|c e IH]; simpl; [done|].
  intros [Hc He]%andb_prop. apply negb_true_iff in Hc. rewrite Hc.
  by rewrite IH.
Qed.

Lemma split_slash_app a b :
  split_slash (a +:+ "/" +:+ b) = split_slash a ++ split_slash b.
Proof.
  induction a as [|c a IH]; simpl; [done|].
  destruct (is_sep c); [by rewrite IH|].
  rewrite IH. pose proof (split_slash_nonnil a).
  by destruct (split_slash a).
Qed.

Lemma split_join es :
  es ≠ [] → Forall (λ e, no_slash e = true) es → split_slash (join_slash es) = es.
Proof.
  induction es as [|e es IH]; [done|]. intros _ Hall.
  apply Forall_cons in Hall as [He Hes].
  destruct es as [|e' es]; [by apply split_slash_single|].
  change (join_slash (e :: e' :: es)) with (e +:+ "/" +:+ join_slash (e' :: es)).
  rewrite split_slash_app, split_slash_single, IH by done. done.
Qed.

Lemma join_slash_cons_char c e es :
  join_slash (String c e :: es) = String c (join_slash (e :: es)).
Proof. by destruct es. Qed.

(** ** Clean paths as element stacks *)



Lemma vstk_ups stk : Forall (λ e, e = "..") stk → vstk false stk.
Proof.
  induction 1 as [|e stk -> Hs IH]; [constructor|]. by apply vstk_up.
Qed.

Lemma vstk_elems rt stk :
  vstk rt stk → Forall (λ e, e ≠ "" ∧ e ≠ "." ∧ no_slash e = true) stk.
Proof.
  induction 1 as [|stk _ Hs|e stk (?&?&?&?) _ IH].
  - constructor.
  - constructor; [done|]. eapply Forall_impl; [exact Hs|]. by intros ? ->.
  - by constructor.
Qed.

Lemma vstk_no_slash rt stk : vstk rt stk → Forall (λ e, no_slash e = true) stk.
Proof.
  intros H. eapply Forall_impl; [by apply vstk_elems in H|]. by intros ? (?&?&?).
Qed.

Lemma valid_no_slash rt es : valid rt es → Forall (λ e, no_slash e = true) es.
Proof.
  intros H%vstk_no_slash. rewrite <-(rev_involutive es). by apply Forall_rev.
Qed.

Lemma valid_nil rt : valid rt [].
Proof. constructor. Qed.

Lemma valid_snoc_inv rt es e : valid rt (es ++ [e]) → valid rt es.
Proof.
  unfold valid. rewrite rev_unit. inversion 1 as [|? Hrt Hs|]; [|done].
  rewrite Hrt. by apply vstk_ups.
Qed.

Lemma valid_snoc_name rt es e : valid rt es → normal e → valid rt (es ++ [e]).
Proof. unfold valid. rewrite rev_unit. intros. by constructor. Qed.

Lemma valid_app_names rt es names :
  valid rt es → Forall normal names → valid rt (es ++ names).
Proof.
  intros Hes Hn. revert es Hes.
  induction Hn as [|e names He _ IH]; intros es Hes.
  - by rewrite app_nil_r.
  - rewrite (assoc_L (++) es [e] names : es ++ e :: names = (es ++ [e]) ++ names).
    apply IH. by apply valid_snoc_name.
Qed.

Lemma clean_step_vstk rt stk e :
  vstk rt stk → no_slash e = true → vstk rt (clean_step rt stk e).
Proof.
  intros Hstk He. unfold clean_step.
  repeat case_decide; subst; try done.
  - destruct stk as [|o out].
    + destruct rt; [constructor|]. by apply vstk_up.
    + case_decide; subst.
      * inversion Hstk as [|? Hrt Hs|? ? Hn Hv]; subst.
        -- apply vstk_up; [done|]. by constructor.
        -- by destruct Hn as (?&?&?&?).
      * inversion Hstk; subst; done.
  - by apply vstk_name.
Qed.

Lemma fold_clean_step_vstk rt es stk :
  vstk rt stk → Forall (λ e, no_slash e = true) es →
  vstk rt (fold_left (clean_step rt) es stk).
Proof.
  intros Hstk Hes. revert stk Hstk.
  induction Hes as [|e es He _ IH]; intros stk Hstk; simpl; [done|].
  apply IH. by apply clean_step_vstk.
Qed.

Lemma clean_elems_valid rt es :
  Forall (λ e, no_slash e = true) es → valid rt (clean_elems rt es).
Proof.
  intros Hes. unfold valid, clean_elems. rewrite rev_involutive.
  apply fold_clean_step_vstk; [constructor|done].
Qed.

Lemma clean_step_name rt stk e : normal e → clean_step rt stk e = e :: stk.
Proof.
  intros (?&?&?&?). unfold clean_step. by repeat case_decide.
Qed.

Lemma fold_clean_step_vstk_id rt stk :
  vstk rt stk → fold_left (clean_step rt) (rev stk) [] = stk.
Proof.
  induction 1 as [|stk Hrt Hs|e stk He Hstk IH]; simpl; [done| |].
  - subst rt. rewrite fold_left_app. simpl.
    assert (fold_left (clean_step false) (rev stk) [] = stk) as ->.
    { clear -Hs. induction Hs as [|e stk -> Hs IH]; simpl; [done|].
      rewrite fold_left_app, IH. simpl. unfold clean_step. simpl.
      destruct stk as [|o out]; [done|]. inversion_clear Hs; subst.
      by rewrite decide_True. }
    unfold clean_step. simpl. destruct stk as [|o out]; [done|].
    inversion_clear Hs; subst. by rewrite decide_True.
  - rewrite fold_left_app, IH. simpl. by apply clean_step_name.
Qed.

Lemma clean_elems_id rt es : valid rt es → clean_elems rt es = es.
Proof.
  intros H. unfold clean_elems.
  rewrite <-(rev_involutive es) at 1.
  by rewrite fold_clean_step_vstk_id, rev_involutive.
Qed.

Lemma fold_clean_step_length rt es stk :
  length (fold_left (clean_step rt) es stk)
  ≤ length stk + length (filter (λ e, e ≠ "") es).
Proof.
  revert stk. induction es as [|e es IH]; intros stk; simpl; [lia|].
  etrans; [apply IH|]. unfold clean_step. rewrite filter_cons.
  repeat case_decide; subst; simpl; try lia; try done.
  destruct stk as [|o out]; [destruct rt; simpl; lia|].
  case_decide; simpl; lia.
Qed.

Lemma clean_elems_length rt es :
  length (clean_elems rt es) ≤ length (filter (λ e, e ≠ "") es).
Proof.
  unfold clean_elems. rewrite length_rev.
  etrans; [apply fold_clean_step_length|]. simpl. lia.
Qed.

(** ** Rendering: the string of a clean path *)

Lemma split_render_true es :
  Forall (λ e, no_slash e = true) es →
  split_slash (render true es) = "" :: (if decide (es = []) then [""] else es).
Proof.
  intros Hes. unfold render. simpl. f_equal.
  case_decide; subst; [done|]. by apply split_join.
Qed.

Lemma split_render_false es :
  es ≠ [] → Forall (λ e, no_slash e = true) es →
  split_slash (render false es) = es.
Proof.
  intros Hne Hes. destruct es; [done|]. by apply split_join.
Qed.

Lemma rooted_join e es :
  e ≠ "" → no_slash e = true → rooted (join_slash (e :: es)) = false.
Proof.
  destruct e as [|c e]; [done|]. intros _ [Hc _]%andb_prop.
  rewrite join_slash_cons_char. simpl. by apply negb_true_iff.
Qed.

Lemma rooted_render rt es : valid rt es → rooted (render rt es) = rt.
Proof.
  intros Hv. destruct rt; [done|]. destruct es as [|e es]; [done|].
  apply valid_no_slash in Hv as Hns. apply Forall_cons in Hns as [He _].
  apply vstk_elems, Forall_rev in Hv. rewrite rev_involutive in Hv.
  apply Forall_cons in Hv as [(?&?&?) _]. by apply rooted_join.
Qed.

Lemma clean_elems_cons_empty rt es : clean_elems rt ("" :: es) = clean_elems rt es.
Proof. done. Qed.

Lemma clean_elems_snoc_empty rt es : clean_elems rt (es ++ [""]) = clean_elems rt es.
Proof. unfold clean_elems. by rewrite fold_left_app. Qed.

Lemma Clean_render rt es : valid rt es → Clean (render rt es) = render rt es.
Proof.
  intros Hv. unfold Clean. rewrite rooted_render by done.
  pose proof (valid_no_slash _ _ Hv) as Hns.
  destruct rt.
  - rewrite split_render_true, clean_elems_cons_empty by done.
    case_decide; subst; [done|]. by rewrite clean_elems_id.
  - destruct (decide (es = [])) as [->|Hne]; [done|].
    by rewrite split_render_false, clean_elems_id.
Qed.

Lemma Clean_is_render p :
  ∃ es, valid (rooted p) es ∧ Clean p = render (rooted p) es
        ∧ length es ≤ length (filter (λ e, e ≠ "") (split_slash p)).
Proof.
  exists (clean_elems (rooted p) (split_slash p)). split_and!; [|done|].
  - apply clean_elems_valid, split_slash_no_slash.
  - apply clean_elems_length.
Qed.

Lemma Clean_idemp p : Clean (Clean p) = Clean p.
Proof.
  destruct (Clean_is_render p) as (es & Hv & -> & _). by apply Clean_render.
Qed.

Lemma render_inj rt es1 es2 :
  valid rt es1 → valid rt es2 → render rt es1 = render rt es2 → es1 = es2.
Proof.
  intros Hv1 Hv2 Heq.
  assert (∀ es, valid rt es → split_slash (render rt es)
            = if rt then "" :: (if decide (es = []) then [""] else es)
              else if decide (es = []) then ["."] else es) as Hsp.
  { intros es Hv. pose proof (valid_no_slash _ _ Hv). destruct rt.
    - by apply split_render_true.
    - case_decide; subst; [done|]. by apply split_render_false. }
  assert (∀ es, valid rt es → es ≠ [""] ∧ es ≠ ["."]) as Hne.
  { intros es Hv. apply vstk_elems, Forall_rev in Hv.
    rewrite rev_involutive in Hv.
    split; intros ->; apply Forall_cons in Hv as [(?&?&?) _]; done. }
  pose proof (Hsp _ Hv1) as H1. pose proof (Hsp _ Hv2) as H2.
  rewrite Heq, H2 in H1.
  destruct (Hne _ Hv1), (Hne _ Hv2).
  destruct rt; repeat case_decide; simplify_eq; done.
Qed.

(** ** Dir on clean paths *)

Lemma Dir_render_nil rt : Dir (render rt []) = render rt [].
Proof. by destruct rt. Qed.

Lemma removelast_snoc {A} (l : list A) x : removelast (l ++ [x]) = l.
Proof. by rewrite removelast_app, app_nil_r. Qed.

Lemma dir_part_split p l e :
  split_slash p = l ++ [e] → l ≠ [] → dir_part p = join_slash (l ++ [""]).
Proof.
  intros Hsp Hl. unfold dir_part. rewrite Hsp.
  rewrite <-(removelast_snoc l e) at 2.
  destruct l as [|a [|b l]]; done.
Qed.

Lemma Dir_render_snoc rt es e :
  valid rt (es ++ [e]) → Dir (render rt (es ++ [e])) = render rt es.
Proof.
  intros Hv. pose proof (valid_snoc_inv _ _ _ Hv) as Hes.
  pose proof (valid_no_slash _ _ Hv) as Hns.
  pose proof (valid_no_slash _ _ Hes) as Hns'.
  unfold Dir. destruct rt.
  - rewrite (dir_part_split _ ("" :: es) e); [| |done].
    + assert (join_slash (("" :: es) ++ [""]) = render true (es ++ [""])) as ->
        by (by destruct es).
      unfold Clean. simpl rooted. cbv iota.
      rewrite split_render_true by (apply Forall_app; split; [done|by constructor]).
      rewrite decide_False by (by destruct es).
      by rewrite clean_elems_cons_empty, clean_elems_snoc_empty, clean_elems_id.
    + rewrite split_render_true by done.
      by rewrite decide_False by (by destruct es).
  - destruct (decide (es = [])) as [->|Hne].
    + unfold dir_part. simpl app. rewrite split_render_false by done. done.
    + rewrite (dir_part_split _ es e); [|by rewrite split_render_false by (done || by destruct es)|done].
      assert (rooted (join_slash (es ++ [""])) = false) as Hr.
      { destruct es as [|a es]; [done|].
        apply vstk_elems, Forall_rev in Hes. rewrite rev_involutive in Hes.
        apply Forall_cons in Hes as [(?&?&?) _]. by apply rooted_join. }
      unfold Clean. rewrite Hr, split_join.
      * rewrite clean_elems_snoc_empty, clean_elems_id by done.
        by destruct es.
      * by destruct es.
      * apply Forall_app; split; [done|by constructor].
Qed.

Lemma Dir_is_render p :
  ∃ rt es, valid rt es ∧ Dir p = render rt es
           ∧ length es < length (split_slash p).
Proof.
  unfold Dir. destruct (Clean_is_render (dir_part p)) as (es & Hv & Hc & Hlen).
  exists (rooted (dir_part p)), es. split_and!; [done..|].
  eapply Nat.le_lt_trans; [exact Hlen|]. unfold dir_part.
  pose proof (split_slash_nonnil p) as Hnn.
  pose proof (split_slash_no_slash p) as Hns.
  destruct (split_slash p) as [|a [|b l]] eqn:Hsp; [done|simpl; lia|].
  rewrite split_join.
  - rewrite filter_app, length_app.
    assert (filter (λ e : string, e ≠ "") [""] = []) as -> by done.
    pose proof (length_filter (λ e, e ≠ "") (removelast (a :: b :: l))).
    change (length (@nil string)) with 0.
    assert (length (removelast (a :: b :: l)) < length (a :: b :: l)); [|lia].
    destruct (exists_last (l := a :: b :: l)) as (l' & x & ->); [done|].
    rewrite removelast_snoc, length_app. simpl. lia.
  - by destruct (removelast (a :: b :: l)).
  - apply Forall_app; split; [|by repeat constructor].
    destruct (exists_last (l := a :: b :: l)) as (l' & x & Heq); [done|].
    rewrite Heq, removelast_snoc. rewrite Heq in Hns.
    by apply Forall_app in Hns as [? _].
Qed.

Lemma Clean_Dir p : Clean (Dir p) = Dir p.
Proof. apply Clean_idemp. Qed.

(** ** Iterating Dir *)

Lemma Dir_iter_render rt es n :
  valid rt es →
  Nat.iter n Dir (render rt es) = render rt (take (length es - n) es).
Proof.
  revert es. induction n as [|n IH]; intros es Hv.
  - by rewrite Nat.sub_0_r, firstn_all.
  - rewrite Nat.iter_succ_r.
    destruct (decide (es = [])) as [->|Hne].
    + rewrite Dir_render_nil, IH by done. done.
    + destruct (exists_last Hne) as (es' & e & ->).
      rewrite Dir_render_snoc, IH by (done || by eapply valid_snoc_inv).
      rewrite length_app. simpl.
      replace (length es' + 1 - S n) with (length es' - n) by lia.
      by rewrite take_app_le by lia.
Qed.


Lemma render_nil_fixed rt : dir_fixed (render rt []).
Proof. destruct rt; [by right|by left]. Qed.

(** Dir is eventually constant at "/" or ".", after at most as many
    steps as the path has elements. *)
Lemma Dir_iter_fixed p n :
  length (split_slash p) ≤ n → dir_fixed (Nat.iter n Dir p).
Proof.
  intros Hn. pose proof (split_slash_nonnil p).
  destruct n as [|n]; [destruct (split_slash p); [done|simpl in Hn; lia]|].
  rewrite Nat.iter_succ_r.
  destruct (Dir_is_render p) as (rt & es & Hv & -> & Hlen).
  rewrite Dir_iter_render by done.
  replace (length es - n) with 0 by lia. apply render_nil_fixed.
Qed.

Lemma Dir_fixed p : dir_fixed p → Dir p = p.
Proof. by intros [->| ->]. Qed.

Lemma Dir_iter_stays p n : dir_fixed p → Nat.iter n Dir p = p.
Proof.
  intros Hp. induction n as [|n IH]; [done|]. simpl. rewrite IH. by apply Dir_fixed.
Qed.

Lemma valid_take rt es k : valid rt es → valid rt (take k es).
Proof.
  induction es as [|e es IH] using rev_ind; intros Hv; [by rewrite take_nil|].
  destruct (decide (k ≤ length es)).
  - rewrite take_app_le by done. apply IH. by eapply valid_snoc_inv.
  - rewrite take_ge; [done|]. rewrite length_app. simpl. lia.
Qed.

(** Only "/" and "." are their own ancestors. *)
Lemma Dir_iter_cycle p n : Nat.iter (S n) Dir p = p → dir_fixed p.
Proof.
  intros Heq.
  destruct (Dir_is_render (Nat.iter n Dir p)) as (rt & es & Hv & Hd & _).
  simpl in Heq. rewrite Heq in Hd. subst p.
  rewrite <-Nat.iter_succ, Dir_iter_render in Heq by done.
  apply render_inj in Heq; [|by apply valid_take|done].
  apply (f_equal length) in Heq. rewrite length_take in Heq.
  destruct es; [apply render_nil_fixed|simpl in Heq; lia].
Qed.

(** ** Joining a clean root with names below it *)

Lemma rooted_app_sep a b : a ≠ "" → rooted (a +:+ "/" +:+ b) = rooted a.
Proof. by destruct a. Qed.

Lemma fold_clean_step_names rt names stk :
  Forall normal names →
  fold_left (clean_step rt) names stk = rev names ++ stk.
Proof.
  intros Hn. revert stk. induction Hn as [|e names He _ IH]; intros stk; [done|].
  simpl. rewrite IH, clean_step_name by done. by rewrite <-app_assoc.
Qed.

Lemma Join_render rt es names :
  valid rt es → Forall normal names → names ≠ [] →
  Join [render rt es; join_slash names] = render rt (es ++ names).
Proof.
  intros Hv Hn Hne.
  assert (render rt es ≠ "") as Hr by (destruct rt, es as [|a []]; try done;
    apply vstk_elems, Forall_rev in Hv; rewrite rev_involutive in Hv;
    apply Forall_cons in Hv as [(?&?&?) _]; (by destruct a) ).
  simpl. rewrite decide_False by done.
  unfold Clean. rewrite rooted_app_sep, rooted_render by done.
  rewrite split_slash_app. f_equal.
  assert (Forall (λ e, no_slash e = true) names) as Hns
    by (eapply Forall_impl; [exact Hn|]; by intros ? (?&?&?&?)).
  rewrite (split_join names) by done.
  unfold clean_elems. rewrite fold_left_app, fold_clean_step_names by done.
  rewrite rev_app_distr, rev_involutive. f_equal.
  change (rev (fold_left (clean_step rt) (split_slash (render rt es)) []))
    with (clean_elems rt (split_slash (render rt es))).
  pose proof (Clean_render _ _ Hv) as Hc. unfold Clean in Hc.
  rewrite rooted_render in Hc by done.
  apply render_inj in Hc; [done| |done].
  apply clean_elems_valid, split_slash_no_slash.
Qed.

(** A clean root is reached from any path below it by taking Dir once per
    name. *)
Lemma Dir_iter_Join root names :
  Clean root = root → Forall normal names → names ≠ [] →
  Nat.iter (length names) Dir (Join [root; join_slash names]) = root.
Proof.
  intros Hc Hn Hne.
  destruct (Clean_is_render root) as (es & Hv & Hr & _). rewrite Hc in Hr.
  rewrite Hr at 1. rewrite Join_render, Dir_iter_render by (done || by apply valid_app_names).
  rewrite length_app, Nat.add_sub, take_app_length. done.
Qed.



End PathFacts.

(** * The pruning loop: when it ends *)

Section PruneTermination.
Import Watch.

Lemma prune_is_Some fuel w d wd :
  is_Some (prune fuel w d wd) ↔ ∃ n, n < fuel ∧ Nat.iter (S n) Dir d = root w.
Proof.
  revert d wd. induction fuel as [|fuel IH]; intros d wd.
  - split; [by intros [? ?]|]. intros (n & ? & _). lia.
  - cbn [prune]. case_bool_decide as Hd.
    + split; [|by eauto]. intros _. exists 0. split; [lia|done].
    + destruct (maybeRemoveDir (Dir d) wd) as [wd' r]. rewrite IH. split.
      * intros (n & Hn & Hit). exists (S n). split; [lia|].
        by rewrite Nat.iter_succ_r.
      * intros (n & Hn & Hit). destruct n as [|n]; [done|].
        exists n. split; [lia|]. by rewrite <-Nat.iter_succ_r.
Qed.

Lemma prune_terminates_iff w fn wd :
  (∃ fuel, is_Some (prune fuel w fn wd)) ↔ ∃ n, Nat.iter (S n) Dir fn = root w.
Proof.
  split.
  - intros (fuel & (n & _ & Hn)%prune_is_Some). eauto.
  - intros (n & Hn). exists (S n). apply prune_is_Some. eauto.
Qed.

Lemma prune_mono fuel fuel' w d wd wd' :
  prune fuel w d wd = Some wd' → fuel ≤ fuel' → prune fuel' w d wd = Some wd'.
Proof.
  revert fuel' d wd. induction fuel as [|fuel IH]; intros fuel' d wd; [done|].
  intros Hp Hle. destruct fuel' as [|fuel']; [lia|].
  cbn [prune] in *. case_bool_decide; [done|].
  destruct (maybeRemoveDir (Dir d) wd) as [wd1 r]. apply IH; [done|lia].
Qed.

Lemma Dir_iter_eventually p :
  ∃ n, dir_fixed (Nat.iter n Dir p)
       ∧ ∀ m, n ≤ m → Nat.iter m Dir p = Nat.iter n Dir p.
Proof.
  exists (length (split_slash p)).
  pose proof (Dir_iter_fixed p _ (Nat.le_refl _)) as Hfix.
  split; [done|]. intros m Hm.
  replace m with ((m - length (split_slash p)) + length (split_slash p)) by lia.
  rewrite Nat.iter_add. by apply Dir_iter_stays.
Qed.

Lemma Dir_iter_clean p n : Clean (Nat.iter (S n) Dir p) = Nat.iter (S n) Dir p.
Proof. simpl. apply Clean_Dir. Qed.

(** With a root string that is not a cleaned path the loop never ends:
    every string it compares with the root is a result of Dir, which is
    cleaned. *)
Lemma prune_unclean_root fuel w fn wd :
  Clean (root w) ≠ root w → prune fuel w fn wd = None.
Proof.
  intros Hc. apply eq_None_not_Some. intros (n & _ & Heq)%prune_is_Some.
  apply Hc. rewrite <-Heq. apply Dir_iter_clean.
Qed.

End PruneTermination.

(** C10.  The loop that follows a successful unlink, [d = filepath.Dir(d)]
    until [d == w.root], ends exactly when the root string is an iterate
    of Dir on the deleted file's path (with no fuel bound it would
    otherwise run for ever).  It ends when the root is a cleaned path and
    the file lies one or more names below it.  It never ends when the
    root string does not occur among the iterates, in particular when it
    is not a cleaned path, as with a trailing slash.  The reason is that
    the iterates of Dir become constant at "/" or ".". *)
Theorem C10_prune_loop_termination :
  (∀ w fn wd,
     (∃ fuel, is_Some (Watch.prune fuel w fn wd))
     ↔ ∃ n, Nat.iter (S n) Dir fn = Watch.root w)
  ∧ (∀ w names wd,
       Clean (Watch.root w) = Watch.root w → Forall normal names → names ≠ [] →
       ∃ fuel, is_Some (Watch.prune fuel w (Join [Watch.root w; join_slash names]) wd))
  ∧ (∀ w fn wd,
       (∀ n, Nat.iter (S n) Dir fn ≠ Watch.root w) →
       ∀ fuel, Watch.prune fuel w fn wd = None)
  ∧ (∀ w fn wd,
       Clean (Watch.root w) ≠ Watch.root w →
       ∀ fuel, Watch.prune fuel w fn wd = None)
  ∧ (∀ w fn wd fuel,
       Watch.root w = "/etc/app/" → Watch.prune fuel w fn wd = None)
  ∧ (∀ p, ∃ n,
       (Nat.iter n Dir p = "." ∨ Nat.iter n Dir p = "/")
       ∧ ∀ m, n ≤ m → Nat.iter m Dir p = Nat.iter n Dir p).
Proof.
  assert (∀ w fn wd, (∀ n, Nat.iter (S n) Dir fn ≠ Watch.root w) →
            ∀ fuel, Watch.prune fuel w fn wd = None) as Hnever.
  { intros w fn wd Hn fuel. apply eq_None_not_Some.
    intros (n & _ & Heq)%prune_is_Some. by eapply Hn. }
  assert (∀ w fn wd, Clean (Watch.root w) ≠ Watch.root w →
            ∀ fuel, Watch.prune fuel w fn wd = None) as Hunclean.
  { intros w fn wd Hc fuel. by apply prune_unclean_root. }
  split_and!.
  - apply prune_terminates_iff.
  - intros w names wd Hc Hn Hne. apply prune_terminates_iff.
    destruct names as [|e names]; [done|]. exists (length names).
    by apply (Dir_iter_Join _ (e :: names)).
  - done.
  - done.
  - intros w fn wd fuel Hr. apply Hunclean. by rewrite Hr.
  - apply Dir_iter_eventually.
Qed.

(** * The ignore matcher *)

Section MatchFacts.
Import Put.




End MatchFacts.



(** * What a reported update leaves behind *)

Section Materialized.
Import Watch.
Context `{Libs} (o : os).

Lemma install_ok w path tmp content wd wd' e c0 p0 u0 g0 :
  install o w path tmp content wd = (wd', (true, e)) →
  fs wd !! tmp = Some (File c0 p0 u0 g0) →
  ∃ uid gid, fs wd' !! path = Some (File content (rootMask w) uid gid).
Proof.
  intros Hin Htmp. revert Hin.
  unfold install, Write, Close, Chmod, Chown, Rename, Unlink, sys. simpl.
  destruct (fault o (SysWrite tmp content)); simpl; [by intros ?; simplify_eq|].
  destruct (fault o (SysClose tmp)); simpl; [by intros ?; simplify_eq|].
  destruct (negb (fault o (SysChmod tmp (rootMask w))) && _) eqn:Hchmod; simpl;
    [|by intros ?; simplify_eq].
  destruct (bool_decide (0 ≤ rootOwner w)%Z); simpl.
  - destruct (negb (fault o (SysChown tmp _ _)) && _) eqn:Hchown; simpl;
      [|by intros ?; simplify_eq].
    rewrite !lookup_alter_eq, Htmp. simpl.
    destruct (negb (fault o (SysRename tmp path)) && _); simpl;
      intros ?; simplify_eq. simpl. rewrite lookup_insert_eq. eauto.
  - rewrite !lookup_alter_eq, Htmp. simpl.
    destruct (negb (fault o (SysRename tmp path)) && _); simpl;
      intros ?; simplify_eq. simpl. rewrite lookup_insert_eq. eauto.
Qed.

Lemma replace_file_ok w path p content wd wd' e :
  replace_file o w path p content wd = (wd', (true, e)) →
  ∃ uid gid, fs wd' !! path = Some (File content (rootMask w) uid gid).
Proof.
  unfold replace_file, TempFile.
  set (name := Join [p; ".temp" +:+ random o]).
  destruct (negb (fault o (SysTempFile name)) && _ && _); [|by intros ?; simplify_eq].
  intros Hin. eapply install_ok; [exact Hin|]. simpl. apply lookup_insert_eq.
Qed.

(** A call that reports an update leaves the content at the target. *)
Lemma maybeUpdateFile_ok fuel w path content wd wd' e :
  maybeUpdateFile o fuel w path content wd = Some (wd', (true, e)) →
  ∃ uid gid, fs wd' !! path = Some (File content (rootMask w) uid gid).
Proof.
  unfold maybeUpdateFile, Stat, ReadFile.
  destruct (lookup_node (fs wd) path) as [[]|]; simpl.
  - case_bool_decide; [by intros ?; simplify_eq|].
    intros [= Hr]. by eapply replace_file_ok.
  - by intros ?; simplify_eq.
  - destruct (lookup_node (fs wd) (Dir path)) as [[]|]; simpl.
    + by intros ?; simplify_eq.
    + intros [= Hr]. by eapply replace_file_ok.
    + destruct (mkdirAll _ _ _ _ _ _ _) as [[wdm [err|]]|]; [by intros ?; simplify_eq| |done].
      intros [= Hr]. by eapply replace_file_ok.
Qed.

Lemma update_ok fuel w report fn value wd wd' :
  update o fuel w report fn value wd = Some (wd', true) →
  ∃ data uid gid, snappy_decode value = Some data
                  ∧ fs wd' !! fn = Some (File data (rootMask w) uid gid).
Proof.
  unfold update. destruct (snappy_decode value) as [data|]; [|by intros ?; simplify_eq].
  destruct (maybeUpdateFile _ _ _ _ _ _) as [[wd1 [b [err|]]]|] eqn:Hm;
    [by intros ?; simplify_eq| |done].
  intros ?; simplify_eq. apply maybeUpdateFile_ok in Hm as (uid & gid & ?). eauto.
Qed.

End Materialized.

(** * Key resolution on the pull side *)

Section KeyFacts.
Import Watch.
Context `{Libs} (o : os).

Lemma handle_event_skipped fuel w ev cnt wd :
  keyRelPath (prefix w) (Key ev) = None →
  handle_event o fuel w ev cnt wd = Some (wd, cnt).
Proof. unfold handle_event. by intros ->. Qed.

Lemma handle_event_put fuel w ev cnt wd key :
  keyRelPath (prefix w) (Key ev) = Some key → Type_ ev = EventTypePut →
  handle_event o fuel w ev cnt wd
  = (λ r : world * bool, (r.1, if r.2 then S cnt else cnt))
      <$> update o fuel w id (Join [root w; key]) (Value ev) wd.
Proof.
  unfold handle_event. intros -> ->.
  by destruct (update _ _ _ _ _ _ _) as [[? []]|].
Qed.

Lemma initialSync_skipped fuel w k v rest cnt wd :
  keyRelPath (prefix w) k = None →
  initialSync_kvs o fuel w ((k, v) :: rest) cnt wd
  = initialSync_kvs o fuel w rest cnt wd.
Proof. cbn [initialSync_kvs]. by intros ->. Qed.

Lemma initialSync_update fuel w k v rest cnt wd key :
  keyRelPath (prefix w) k = Some key →
  initialSync_kvs o fuel w ((k, v) :: rest) cnt wd
  = update o fuel w (sync_error (Join [root w; key])) (Join [root w; key]) v wd
    ≫= λ r : world * bool,
        initialSync_kvs o fuel w rest (if r.2 then S cnt else cnt) r.1.
Proof.
  cbn [initialSync_kvs]. intros ->.
  by destruct (update _ _ _ _ _ _ _) as [[? []]|].
Qed.

End KeyFacts.

(** C8, as the code has it.  A key other than the prefix is resolved
    through its path relative to the prefix: it is skipped when that
    path does not exist, begins with "../" or has the base name ".hash",
    and is otherwise materialized at the root joined with that path.  The
    key equal to the prefix is materialized at the root joined with the
    key's own base name.  A skipped key changes nothing; a resolved key
    of the initial read or of a put event is decompressed and
    materialized at the resolved path, and a materialization that reports
    an update leaves a regular file with the decompressed value and the
    configured mode at that path. *)
Theorem C8_key_resolution `{Libs} (o : Watch.os) (fuel : nat) (w : Watch.watcher) :
  Watch.keyRelPath (Watch.prefix w) (Watch.prefix w) = Some (Base (Watch.prefix w))
  ∧ (∀ key, key ≠ Watch.prefix w →
       Watch.keyRelPath (Watch.prefix w) key
       = match Rel (Watch.prefix w) key with
         | Some rel =>
             if HasPrefix rel "../" then None
             else if bool_decide (Base rel = ".hash") then None
             else Some rel
         | None => None
         end)
  ∧ (∀ ev cnt wd,
       Watch.keyRelPath (Watch.prefix w) (Watch.Key ev) = None →
       Watch.handle_event o fuel w ev cnt wd = Some (wd, cnt))
  ∧ (∀ k v rest cnt wd,
       Watch.keyRelPath (Watch.prefix w) k = None →
       Watch.initialSync_kvs o fuel w ((k, v) :: rest) cnt wd
       = Watch.initialSync_kvs o fuel w rest cnt wd)
  ∧ (∀ ev cnt wd rel,
       Watch.keyRelPath (Watch.prefix w) (Watch.Key ev) = Some rel →
       Watch.Type_ ev = Watch.EventTypePut →
       Watch.handle_event o fuel w ev cnt wd
       = (λ r : Watch.world * bool, (r.1, if r.2 then S cnt else cnt))
           <$> Watch.update o fuel w id (Join [Watch.root w; rel]) (Watch.Value ev) wd)
  ∧ (∀ k v rest cnt wd rel,
       Watch.keyRelPath (Watch.prefix w) k = Some rel →
       Watch.initialSync_kvs o fuel w ((k, v) :: rest) cnt wd
       = Watch.update o fuel w (Watch.sync_error (Join [Watch.root w; rel]))
           (Join [Watch.root w; rel]) v wd
         ≫= λ r : Watch.world * bool,
             Watch.initialSync_kvs o fuel w rest (if r.2 then S cnt else cnt) r.1)
  ∧ (∀ report fn v wd wd',
       Watch.update o fuel w report fn v wd = Some (wd', true) →
       ∃ data uid gid,
         snappy_decode v = Some data
         ∧ Watch.fs wd' !! fn = Some (Watch.File data (Watch.rootMask w) uid gid)).
Proof.
  split_and!.
  - unfold Watch.keyRelPath. by rewrite bool_decide_eq_true_2.
  - intros key Hne. unfold Watch.keyRelPath.
    rewrite bool_decide_eq_false_2 by done.
    destruct (Rel _ _) as [rel|]; [|done]. by destruct (HasPrefix _ _).
  - intros. by apply handle_event_skipped.
  - intros. by apply initialSync_skipped.
  - intros. by apply handle_event_put.
  - intros. by apply initialSync_update.
  - intros report fn v wd wd'. apply update_ok.
Qed.

(** C8 as stated fails twice: the key equal to the prefix lands under the
    key's base name, not the root's, and a key whose relative path
    escapes the prefix is not materialized although its base name is not
    ".hash". *)
Lemma C8_prefix_key_lands_under_its_own_name :
  let w := Sample.watcher_at "/etc/conf" in
  let wd := {| Watch.fs := Sample.dirs ["/etc"; "/etc/conf"]; Watch.trace := [] |} in
  Base (Watch.root w) = "conf"
  ∧ (∃ wd', Watch.handle_event (H := Sample.libs) Sample.calm 8 w
              (Sample.put "/svc/app" "hello") 0 wd = Some (wd', 1)
            ∧ Watch.fs wd' !! "/etc/conf/app" = Some (Sample.file "hello")
            ∧ Watch.fs wd' !! Join [Watch.root w; Base (Watch.root w)] = None)
  ∧ Base "/svc/application/x" ≠ ".hash"
  ∧ Watch.handle_event (H := Sample.libs) Sample.calm 8 w
      (Sample.put "/svc/application/x" "hello") 0 wd = Some (wd, 0).
Proof.
  split_and!; [done| |done|by vm_compute].
  eexists. split_and!; [by vm_compute|by vm_compute..].
Qed.

(** C9.  A key whose path relative to the prefix begins with "../" is
    dropped before any call to the filesystem; but the path ".." itself
    does not begin with "../", so the key "<prefix>/.." is resolved, and
    the watcher writes the parent of its root. *)
Theorem C9_dotdot_key_leaves_root :
  (∀ (L : Libs) o fuel w ev cnt wd rel,
     Watch.Key ev ≠ Watch.prefix w →
     Rel (Watch.prefix w) (Watch.Key ev) = Some rel → HasPrefix rel "../" = true →
     Watch.handle_event o fuel w ev cnt wd = Some (wd, cnt))
  ∧ let w := Sample.watcher_at "/var/lib/app/conf" in
    let wd := {| Watch.fs := Sample.dirs ["/var"; "/var/lib"]; Watch.trace := [] |} in
    Rel (Watch.prefix w) "/svc/app/.." = Some ".."
    ∧ HasPrefix ".." "../" = false
    ∧ Watch.keyRelPath (Watch.prefix w) "/svc/app/.." = Some ".."
    ∧ Join [Watch.root w; ".."] = "/var/lib/app"
    ∧ ∃ wd', Watch.handle_event (H := Sample.libs) Sample.calm 8 w
               (Sample.put "/svc/app/.." "x") 0 wd = Some (wd', 1)
             ∧ Watch.fs wd !! "/var/lib/app" = None
             ∧ Watch.fs wd' !! "/var/lib/app" = Some (Sample.file "x").
Proof.
  split.
  - intros L o fuel w ev cnt wd rel Hne Hrel Hp.
    apply handle_event_skipped. unfold Watch.keyRelPath.
    by rewrite bool_decide_eq_false_2, Hrel, Hp.
  - split_and!; [by vm_compute..|].
    eexists. split_and!; by vm_compute.
Qed.

(** * The sub-transaction of a pushed file *)

Section PutTxn.
Import Put.
Context `{Libs}.

Lemma put_txn_guard view key hashKey digest :
  cmps_hold view [CreateRevisionNe0 key; CreateRevisionNe0 hashKey; ValueEq hashKey digest]
  = bool_decide (is_Some (view !! key) ∧ is_Some (view !! hashKey)
                 ∧ view !! hashKey = Some digest).
Proof.
  cbn. rewrite andb_true_r.
  apply eq_true_iff_eq. rewrite !andb_true_iff, !bool_decide_eq_true. tauto.
Qed.

Lemma put_txn_unchanged view key hashKey data digest s :
  is_Some (view !! key) ∧ is_Some (view !! hashKey) ∧ view !! hashKey = Some digest →
  apply_op view (put_txn key hashKey data digest) s = s
  ∧ response view (put_txn key hashKey data digest) = Some true.
Proof.
  intros Hu. unfold put_txn. cbn [apply_op response].
  by rewrite put_txn_guard, bool_decide_eq_true_2.
Qed.

Lemma put_txn_changed view key hashKey data digest s :
  ¬ (is_Some (view !! key) ∧ is_Some (view !! hashKey)
     ∧ view !! hashKey = Some digest) →
  apply_op view (put_txn key hashKey data digest) s
  = <[hashKey := digest]> (<[key := data]> s)
  ∧ response view (put_txn key hashKey data digest) = Some false.
Proof.
  intros Hu. unfold put_txn. cbn [apply_op response].
  by rewrite put_txn_guard, bool_decide_eq_false_2.
Qed.

Lemma visit_file e prefix root p content st :
  Base p ≠ ".gitignore" → Base p ≠ ".confignore" →
  Match (gi st) p false = false →
  visit e prefix root p (FFile content true) st
  = (let key := Join [prefix; default "" (Rel root p)] in
     let hashKey := Join [key; ".hash"] in
     {| tree := tree st ∖ {[key]};
        ops := ops st ++ [put_txn key hashKey (snappy_encode content) (hex_digest content)];
        opsDesc := opsDesc st ++ [{| path := key; isDel := false |}];
        gi := gi st |}, WalkNil).
Proof.
  intros Hg Hc Hm. unfold visit. cbn [IsDir getFile].
  by rewrite !bool_decide_eq_false_2, Hm by done.
Qed.

End PutTxn.

(** C1.  On a regular file that Walk hands over, that the walk does not
    skip (its name is neither .gitignore nor .confignore and the Ignore
    Model does not match it) and that can be read, the callback appends
    exactly one sub-transaction.  Its guard is the conjunction: the
    content key exists, the companion key exists, and the companion key
    holds the hex digest of the file's raw bytes.  When the guard holds
    the sub-transaction changes nothing and reports success; when it
    fails the sub-transaction puts the compressed bytes under the content
    key and the digest under the companion key, and reports failure. *)
Theorem C1_conditional_put_pair `{Libs} (e : Put.env) (prefix root p content : string)
    (st : Put.state) :
  Base p ≠ ".gitignore" → Base p ≠ ".confignore" →
  Put.Match (Put.gi st) p false = false →
  let key := Join [prefix; default "" (Rel root p)] in
  let hashKey := Join [key; ".hash"] in
  let digest := hex_digest content in
  let txn := OpTxn [CreateRevisionNe0 key; CreateRevisionNe0 hashKey;
                    ValueEq hashKey digest]
                   []
                   [OpPut key (snappy_encode content); OpPut hashKey digest] in
  let guard (view : gmap string string) :=
    is_Some (view !! key) ∧ is_Some (view !! hashKey)
    ∧ view !! hashKey = Some digest in
  (∃ st', Put.visit e prefix root p (Put.FFile content true) st = (st', Put.WalkNil)
          ∧ Put.ops st' = Put.ops st ++ [txn])
  ∧ ∀ view s,
      (guard view → apply_op view txn s = s ∧ response view txn = Some true)
      ∧ (¬ guard view →
         apply_op view txn s = <[hashKey := digest]> (<[key := snappy_encode content]> s)
         ∧ response view txn = Some false).
Proof.
  intros Hg Hc Hm key hashKey digest txn guard. split.
  - rewrite visit_file by done. eexists. split; [done|]. done.
  - intros view s. split.
    + apply put_txn_unchanged.
    + apply put_txn_changed.
Qed.

Lemma C1_conditional_put_pair_witness :
  let st := {| Put.tree := ∅; Put.ops := []; Put.opsDesc := [];
               Put.gi := Put.newTreeIgnoreMatcher Sample.work_env "/work" |} in
  Base "/work/a.txt" ≠ ".gitignore" ∧ Base "/work/a.txt" ≠ ".confignore"
  ∧ Put.Match (Put.gi st) "/work/a.txt" false = false
  ∧ ∃ st', Put.visit (H := Sample.libs) Sample.work_env "/svc/app" "/work"
             "/work/a.txt" (Put.FFile "hello" true) st = (st', Put.WalkNil)
           ∧ Put.ops st'
             = [OpTxn [CreateRevisionNe0 "/svc/app/a.txt";
                       CreateRevisionNe0 "/svc/app/a.txt/.hash";
                       ValueEq "/svc/app/a.txt/.hash" "sha:hello"]
                      []
                      [OpPut "/svc/app/a.txt" "sz:hello";
                       OpPut "/svc/app/a.txt/.hash" "sha:hello"]].
Proof.
  intros st.
  assert (Base "/work/a.txt" ≠ ".gitignore") as Hg by done.
  assert (Base "/work/a.txt" ≠ ".confignore") as Hc by done.
  assert (Put.Match (Put.gi st) "/work/a.txt" false = false) as Hm by done.
  split_and!; [done..|].
  exact (proj1 (C1_conditional_put_pair (H := Sample.libs) Sample.work_env
                  "/svc/app" "/work" "/work/a.txt" "hello" st Hg Hc Hm)).
Defined.

(** * What the walk leaves behind *)

Section WalkFacts.
Import Put.
Context `{Libs}.

Lemma fsnode_nested_ind (P : fsnode → Prop) :
  (∀ content readable, P (FFile content readable)) →
  (∀ entries, Forall (λ ne, P ne.2) entries → P (FDir entries)) →
  ∀ n, P n.
Proof.
  intros Hfile Hdir. fix IH 1. intros [content readable|entries].
  - apply Hfile.
  - apply Hdir. induction entries as [|[name child] rest IHrest].
    + constructor.
    + constructor; [apply IH|apply IHrest].
Qed.

(** A property of the state that every call of the callback keeps is kept
    by the whole walk. *)
Lemma walk_preserves (P : state → Prop) e prefix root :
  (∀ p info st, P st → P (visit e prefix root p info st).1) →
  ∀ info p st, P st → P (walk e prefix root p info st).1.
Proof.
  intros Hvisit info.
  induction info as [content readable|entries IH] using fsnode_nested_ind;
    intros p st Hst.
  - by apply Hvisit.
  - cbn [walk]. pose proof (Hvisit p (FDir entries) st Hst) as Hst1.
    destruct (visit e prefix root p (FDir entries) st) as [st1 r].
    simpl in Hst1. destruct r; [|done..].
    clear Hst. revert st1 Hst1.
    induction IH as [|[name child] rest Hchild _ IHrest]; intros st1 Hst1; [done|].
    simpl in Hchild. pose proof (Hchild (Join [p; name]) st1 Hst1) as Hst'.
    destruct (walk e prefix root (Join [p; name]) child st1) as [st' err].
    simpl in Hst'. destruct err; [by apply IHrest| |done].
    destruct (IsDir child); [by apply IHrest|done].
Qed.

Lemma Walk_preserves (P : state → Prop) e prefix root st :
  (∀ p info st, P st → P (visit e prefix root p info st).1) →
  P st → P (Walk e prefix root st).1.
Proof.
  intros Hvisit Hst. unfold Walk. destruct (Stat e root) as [info|]; [|done].
  pose proof (walk_preserves P e prefix root Hvisit info root st Hst) as Hw.
  by destruct (walk e prefix root root info st).
Qed.

Lemma visit_walk_inv tree0 e prefix root p info st :
  walk_inv tree0 st → walk_inv tree0 (visit e prefix root p info st).1.
Proof.
  intros (Hsub & Hdesc & Hops). unfold visit.
  destruct (IsDir info).
  { case_bool_decide; [done|]. by destruct (Match _ _ _). }
  destruct (_ || _); [done|].
  destruct (getFile info) as [[data digest]|]; [|done].
  split_and!; simpl.
  - etrans; [apply subseteq_difference_l|]; done.
  - intros d Hd. apply elem_of_app in Hd as [Hd|Hd].
    + destruct (Hdesc d Hd) as [Hnin ?]. split; [|done].
      rewrite elem_of_difference. tauto.
    + apply list_elem_of_singleton in Hd as ->. simpl. split; [|done].
      rewrite elem_of_difference, elem_of_singleton. tauto.
  - apply Forall_app. split; [done|]. repeat constructor. eauto.
Qed.

Lemma walked_inv e c prefix root0 root st :
  walked e c prefix root0 = inr (root, st) →
  walk_inv (initial_tree c prefix) st.
Proof.
  unfold walked. destruct (resolve_root e root0) as [[root' gi0]|]; [|done].
  set (st0 := {| tree := _ |}).
  pose proof (Walk_preserves (walk_inv (initial_tree c prefix)) e prefix root' st0
                (visit_walk_inv _ e prefix root')) as Hinv.
  destruct (Walk e prefix root' st0) as [st' err]. simpl in Hinv.
  assert (walk_inv (initial_tree c prefix) st') as Hst'.
  { apply Hinv. split_and!; [done| |constructor]. intros d Hd. by inversion Hd. }
  destruct err; naive_solver.
Qed.

Lemma elem_of_initial_tree c prefix key :
  key ∈ initial_tree c prefix
  ↔ key ∈ get_prefix_keys c (Join [prefix; "/"]) ∧ Base key ≠ ".hash".
Proof.
  unfold initial_tree. rewrite elem_of_list_to_set, list_elem_of_filter. tauto.
Qed.

Lemma elem_of_deletions prefix root st key :
  key ∈ deletions prefix root st
  ↔ key ∈ tree st
    ∧ Match (gi st) (Join [root; default "" (Rel prefix key)]) false = false.
Proof.
  unfold deletions. rewrite list_elem_of_filter, elem_of_elements. tauto.
Qed.

Lemma del_txn_inj key key' : del_txn key = del_txn key' → key = key'.
Proof. by intros [= ->]. Qed.

Lemma del_txn_in_transaction tree0 prefix root st key :
  walk_inv tree0 st →
  del_txn key ∈ (transaction prefix root st).1 ↔ key ∈ deletions prefix root st.
Proof.
  intros (_ & _ & Hops). unfold transaction. simpl.
  rewrite elem_of_app, list_elem_of_fmap. split.
  - intros [Hin|(k & ->%del_txn_inj & Hk)]; [|done].
    rewrite Forall_forall in Hops. by destruct (Hops _ Hin) as (?&?&?&?&?).
  - intros Hk. right. eauto.
Qed.

End WalkFacts.

(** C2, as the code has it.  A deletion sub-transaction is appended for a
    key only if the key was listed under the prefix with a base name
    other than ".hash", the Ignore Model, as the walk left it, does not
    match the local path that corresponds to the key, and no file pushed
    by the walk has the key as its content key.  The local path need not
    be absent. *)
Theorem C2_deletion_only_for_unpushed_unignored `{Libs} (e : Put.env)
    (c : gmap string string) (prefix root0 root : string) (st : Put.state)
    (key : string) :
  Put.walked e c prefix root0 = inr (root, st) →
  Put.del_txn key ∈ (Put.transaction prefix root st).1 →
  key ∈ get_prefix_keys c (Join [prefix; "/"])
  ∧ Base key ≠ ".hash"
  ∧ Put.Match (Put.gi st) (Join [root; default "" (Rel prefix key)]) false = false
  ∧ (∀ d, d ∈ Put.opsDesc st → Put.path d ≠ key)
  ∧ (∀ d, d ∈ Put.opsDesc st → d ∈ (Put.transaction prefix root st).2).
Proof.
  intros Hw Hdel. pose proof (walked_inv _ _ _ _ _ _ Hw) as Hinv.
  apply (del_txn_in_transaction _ _ _ _ _ Hinv), elem_of_deletions in Hdel
    as [Htree Hm].
  destruct Hinv as (Hsub & Hdesc & _).
  pose proof (Hsub _ Htree) as Hlisted.
  apply elem_of_initial_tree in Hlisted as [? ?].
  split_and!; [done..| |].
  - intros d Hd Heq. destruct (Hdesc d Hd) as [Hn _]. apply Hn. by rewrite Heq.
  - intros d Hd. unfold Put.transaction. simpl. apply elem_of_app. by left.
Qed.


Lemma C2_deletion_only_for_unpushed_unignored_witness :
  let c : gmap string string :=
    {[ "/svc/app/sub" := "sz:old"; "/svc/app/sub/.hash" := "sha:old" ]} in
  ∃ st, Put.walked (H := Sample.libs) Sample.work_env c "/svc/app" "" = inr ("/work", st)
    ∧ Put.del_txn "/svc/app/sub" ∈ (Put.transaction "/svc/app" "/work" st).1
    ∧ "/svc/app/sub" ∈ get_prefix_keys c (Join ["/svc/app"; "/"])
    ∧ Base "/svc/app/sub" ≠ ".hash"
    ∧ ∀ d, d ∈ Put.opsDesc st → Put.path d ≠ "/svc/app/sub".
Proof.
  intros c.
  destruct (Put.walked (H := Sample.libs) Sample.work_env c "/svc/app" "")
    as [msg|[root st]] eqn:Hw; [by vm_compute in Hw|].
  pose proof Hw as Hv. vm_compute in Hv. injection Hv as Hroot Hst.
  rewrite <-Hroot in Hw |- *. clear Hroot.
  assert (Put.del_txn "/svc/app/sub" ∈ (Put.transaction "/svc/app" "/work" st).1)
    as Hdel.
  { rewrite <-Hst. vm_compute. apply list_elem_of_In. simpl. tauto. }
  exists st. split; [done|]. split; [done|].
  destruct (C2_deletion_only_for_unpushed_unignored (H := Sample.libs)
              Sample.work_env c "/svc/app" "" "/work" st "/svc/app/sub" Hw Hdel)
    as (Hlisted & Hbase & _ & Hpushed & _).
  by split_and!.
Defined.

(** C2 as stated fails: in /work, sub is a directory and .gitignore a
    file, both present and not matched as ignored, and the keys stored
    for them are deleted all the same. *)
Lemma C2_present_paths_deleted :
  let c : gmap string string :=
    {[ "/svc/app/sub" := "sz:old"; "/svc/app/sub/.hash" := "sha:old";
       "/svc/app/.gitignore" := "sz:secret.txt" ]} in
  ∃ st, Put.walked (H := Sample.libs) Sample.work_env c "/svc/app" "" = inr ("/work", st)
    ∧ (Put.transaction "/svc/app" "/work" st).1
      = Put.ops st ++ [Put.del_txn "/svc/app/sub"; Put.del_txn "/svc/app/.gitignore"]
    ∧ Forall (λ key,
        Put.Match (Put.gi st) (Join ["/work"; default "" (Rel "/svc/app" key)]) false
        = false
        ∧ is_Some (Put.Stat Sample.work_env
                     (Join ["/work"; default "" (Rel "/svc/app" key)])))
        ["/svc/app/sub"; "/svc/app/.gitignore"].
Proof.
  intros c. eexists. split; [vm_compute; reflexivity|].
  split; [vm_compute; reflexivity|].
  constructor; [|constructor; [|constructor]].
  all: split; [vm_compute; reflexivity|eexists; vm_compute; reflexivity].
Qed.

(** C3.  The store holds one stale key that is not in cleaned form,
    /svc/app//a.txt.  The first push writes /svc/app/a.txt with its
    companion and deletes the stale key together with
    path.Join(key, ".hash"), which is the companion it has just written;
    the second push, nothing having changed in between, finds the
    companion missing and reports the file as updated. *)
Theorem C3_second_push_not_silent :
  let c0 : gmap string string := {[ "/svc/app//a.txt" := "sz:stale" ]} in
  Join ["/svc/app//a.txt"; ".hash"] = "/svc/app/a.txt/.hash"
  ∧ ∃ c1 c2,
      Put.updateTreeRecursively (H := Sample.libs) Sample.work_env c0 "/svc/app" ""
      = Put.Pushed c1 ["updated /svc/app/a.txt"; "updated /svc/app/sub/b.txt";
                       "removed /svc/app//a.txt"]
      ∧ c1 !! "/svc/app/a.txt" = Some "sz:hello"
      ∧ c1 !! "/svc/app/a.txt/.hash" = None
      ∧ Put.updateTreeRecursively (H := Sample.libs) Sample.work_env c1 "/svc/app" ""
        = Put.Pushed c2 ["updated /svc/app/a.txt"].
Proof.
  intros c0. split; [by vm_compute|].
  eexists _, _. split_and!; [vm_compute; reflexivity| | |vm_compute; reflexivity].
  all: vm_compute; reflexivity.
Qed.

(** * The pull side: files, traces, fuel *)

Ltac trace_ext :=
  eexists; split; [simpl; rewrite <-?app_assoc; reflexivity|simpl].

Section WatchFs.
Import Watch.
Context `{Libs} (o : os).

Lemma count_app f evs1 evs2 : count f (evs1 ++ evs2) = count f evs1 + count f evs2.
Proof. unfold count. by rewrite List.filter_app, length_app. Qed.

Lemma count_nil f : count f [] = 0.
Proof. done. Qed.

Lemma lookup_node_None f p : lookup_node f p = None → f !! p = None.
Proof. unfold lookup_node. by case_bool_decide. Qed.

Lemma lookup_node_fixed f p : dir_fixed p → lookup_node f p = Some (Directory 493 0 0).
Proof. by intros [-> | ->]. Qed.

Lemma is_file_alter (g : node → node) (f : gmap string node) p :
  (∀ n, is_file (Some (g n)) = is_file (Some n)) →
  is_file (alter g p f !! p) = is_file (f !! p).
Proof. intros Hg. rewrite lookup_alter_eq. destruct (f !! p); simpl; [apply Hg|done]. Qed.

Lemma is_file_write data (f : gmap string node) p : is_file (alter (write_node data) p f !! p) = is_file (f !! p).
Proof. apply is_file_alter. by intros []. Qed.
Lemma is_file_chmod perm (f : gmap string node) p : is_file (alter (chmod_node perm) p f !! p) = is_file (f !! p).
Proof. apply is_file_alter. by intros []. Qed.
Lemma is_file_chown uid gid (f : gmap string node) p : is_file (alter (chown_node uid gid) p f !! p) = is_file (f !! p).
Proof. apply is_file_alter. by intros []. Qed.

(** [install]: a failure removes the temporary file and nothing else
    changes; success is one rename, the last call. *)
Lemma install_spec w path tmp content wd wd' b e :
  install o w path tmp content wd = (wd', (b, e)) →
  ∃ evs, trace wd' = trace wd ++ evs
         ∧ count is_exec evs = 0 ∧ count is_temp evs = 0
         ∧ count is_rename evs = (if b then 1 else 0)
         ∧ (b = true ↔ e = None)
         ∧ (is_file (fs wd !! tmp) = true → b = false → fs wd' = delete tmp (fs wd)).
Proof.
  unfold install, Write, Close, Chmod, Chown, Rename, Unlink, sys. simpl.
  destruct (fault o (SysWrite tmp content)); simpl.
  { intros ?; simplify_eq. trace_ext.
    split_and!; try done. intros Hf _. rewrite is_file_write, Hf. by rewrite delete_alter_eq. }
  destruct (fault o (SysClose tmp)); simpl.
  { intros ?; simplify_eq. trace_ext.
    split_and!; try done. intros Hf _. rewrite is_file_write, Hf. by rewrite delete_alter_eq. }
  destruct (negb (fault o (SysChmod tmp (rootMask w))) && _) eqn:Hchmod; simpl; last first.
  { intros ?; simplify_eq. trace_ext.
    split_and!; try done. intros Hf _. rewrite is_file_write, Hf. by rewrite delete_alter_eq. }
  destruct (bool_decide (0 ≤ rootOwner w)%Z); simpl.
  - destruct (negb (fault o (SysChown tmp _ _)) && _) eqn:Hchown; simpl; last first.
    { intros ?; simplify_eq. trace_ext.
      split_and!; try done. intros Hf _.
      rewrite is_file_chmod, is_file_write, Hf. by rewrite !delete_alter_eq. }
    destruct (alter _ tmp (alter _ tmp (alter _ tmp (fs wd))) !! tmp) as [n|] eqn:Hn; simpl.
    + destruct (negb (fault o (SysRename tmp path)) && _) eqn:Hren; simpl.
      * intros ?; simplify_eq. trace_ext. done.
      * intros ?; simplify_eq. trace_ext.
        split_and!; try done. intros Hf _.
        rewrite is_file_chown, is_file_chmod, is_file_write, Hf. by rewrite !delete_alter_eq.
    + intros ?; simplify_eq. trace_ext.
      split_and!; try done. intros Hf _.
      rewrite is_file_chown, is_file_chmod, is_file_write, Hf. by rewrite !delete_alter_eq.
  - destruct (alter _ tmp (alter _ tmp (fs wd)) !! tmp) as [n|] eqn:Hn; simpl.
    + destruct (negb (fault o (SysRename tmp path)) && _) eqn:Hren; simpl.
      * intros ?; simplify_eq. trace_ext. done.
      * intros ?; simplify_eq. trace_ext.
        split_and!; try done. intros Hf _.
        rewrite is_file_chmod, is_file_write, Hf. by rewrite !delete_alter_eq.
    + intros ?; simplify_eq. trace_ext.
      split_and!; try done. intros Hf _.
      rewrite is_file_chmod, is_file_write, Hf. by rewrite !delete_alter_eq.
Qed.

Lemma count_zero f evs e : count f evs = 0 → e ∈ evs → f e = false.
Proof.
  unfold count. intros Hc He. destruct (f e) eqn:Hf; [|done].
  assert (e ∈ List.filter f evs) as Hin.
  { apply list_elem_of_In, List.filter_In. by rewrite <-list_elem_of_In. }
  destruct (List.filter f evs); [by inversion Hin|done].
Qed.

Lemma replace_file_spec w path p content wd wd' b e :
  replace_file o w path p content wd = (wd', (b, e)) →
  ∃ evs, trace wd' = trace wd ++ evs
         ∧ count is_exec evs = 0
         ∧ count is_rename evs = (if b then 1 else 0)
         ∧ (b = true ↔ e = None)
         ∧ (b = false →
            fs wd' = fs wd
            ∧ ∀ tmp, Sys (SysTempFile tmp) true ∈ evs → fs wd' !! tmp = None).
Proof.
  unfold replace_file, TempFile.
  set (name := Join [p; ".temp" +:+ random o]).
  destruct (negb (fault o (SysTempFile name)) && _ && _) eqn:Hok.
  - destruct (install _ _ _ _ _ _) as [wd1 [b1 e1]] eqn:Hin. intros ?; simplify_eq.
    apply andb_prop in Hok as [_ Hfree%bool_decide_eq_true%lookup_node_None].
    apply install_spec in Hin as (evs & Htr & Hex & Htmp & Hren & Hbe & Hfs).
    simpl in Htr, Hfs. rewrite lookup_insert_eq in Hfs.
    exists (Sys (SysTempFile name) true :: evs). split_and!; try done.
    + rewrite Htr, <-app_assoc. reflexivity.
    + intros ->. specialize (Hfs eq_refl eq_refl).
      rewrite delete_insert_eq, delete_id in Hfs by done. split; [done|].
      intros tmp [[= <-]|Hin]%elem_of_cons; [by rewrite Hfs|].
      by apply (count_zero _ _ _ Htmp) in Hin.
  - intros ?; simplify_eq. trace_ext. split_and!; try done.
    intros _. split; [done|]. by intros tmp [[=]|Hin%elem_of_nil]%elem_of_cons.
Qed.

Lemma mkdirAll_missing_spec fuel d elts wd wd' r :
  mkdirAll_missing fuel d elts wd = Some (wd', r) →
  fs wd' = fs wd
  ∧ (∃ evs, trace wd' = trace wd ++ evs ∧ count is_exec evs = 0
            ∧ count is_rename evs = 0 ∧ count is_temp evs = 0)
  ∧ ∀ elts', r = inr elts' →
      ∀ x, x ∈ elts' → x ∈ elts ∨ ∃ n, x = Nat.iter (S n) Dir d.
Proof.
  revert d elts wd. induction fuel as [|fuel IH]; intros d elts wd; [done|].
  cbn [mkdirAll_missing]. case_bool_decide.
  { intros ?; simplify_eq. split_and!; [done| |by intros ? [= <-]; eauto].
    exists []. by rewrite app_nil_r. }
  unfold Stat. destruct (lookup_node (fs wd) (Dir d)) as [[]|] eqn:Hl.
  - intros ?; simplify_eq. split_and!; [done| |done]. by trace_ext.
  - intros ?; simplify_eq. split_and!; [done| |by intros ? [= <-]; eauto].
    by trace_ext.
  - intros (Hfs & (evs & Htr & ? & ? & ?) & Helts)%IH. simpl in Hfs, Htr.
    split_and!; [done| |].
    + exists (Sys (SysStat (Dir d)) false :: evs). split_and!; try done.
      rewrite Htr, <-app_assoc; reflexivity.
    + intros elts' -> x Hx.
      destruct (Helts _ eq_refl x Hx) as [[?| ->%list_elem_of_singleton]%elem_of_app|[n ->]].
      * by left.
      * right. by exists 0.
      * right. exists (S n). by rewrite <-Nat.iter_succ_r.
Qed.

Lemma mkdirAll_create_spec l owner group mode wd wd' r :
  mkdirAll_create o l owner group mode wd = (wd', r) →
  (∀ q, q ∉ l → fs wd' !! q = fs wd !! q)
  ∧ ∃ evs, trace wd' = trace wd ++ evs ∧ count is_exec evs = 0
           ∧ count is_rename evs = 0 ∧ count is_temp evs = 0.
Proof.
  revert wd. induction l as [|d l IH]; intros wd; cbn [mkdirAll_create].
  { intros ?; simplify_eq. split; [done|]. exists []. by rewrite app_nil_r. }
  unfold Mkdir, Chown.
  destruct (negb (fault o (SysMkdir d mode)) && _ && _) eqn:Hokm; simpl.
  2:{ intros ?; simplify_eq. split; [done|]. by trace_ext. }
  destruct (bool_decide (0 ≤ owner)%Z); simpl.
  - destruct (negb (fault o (SysChown d owner group)) && _) eqn:Hoko; simpl.
    + intros (Hfs & evs & Htr & ? & ? & ?)%IH. simpl in Hfs, Htr. split.
      * intros q [Hqd Hql]%not_elem_of_cons. rewrite Hfs by done.
        by rewrite lookup_alter_ne, lookup_insert_ne.
      * eexists. split; [rewrite Htr, <-!app_assoc; reflexivity|]. done.
    + intros ?; simplify_eq. split; [|by trace_ext]. simpl.
      intros q [Hqd Hql]%not_elem_of_cons. by rewrite lookup_insert_ne.
  - intros (Hfs & evs & Htr & ? & ? & ?)%IH. simpl in Hfs, Htr. split.
    + intros q [Hqd Hql]%not_elem_of_cons. rewrite Hfs by done.
      by rewrite lookup_insert_ne.
    + eexists. split; [rewrite Htr, <-!app_assoc; reflexivity|]. done.
Qed.

Lemma mkdirAll_spec fuel path owner group mode wd wd' r :
  mkdirAll o fuel path owner group mode wd = Some (wd', r) →
  (∀ q, (∀ n, Nat.iter n Dir path ≠ q) → fs wd' !! q = fs wd !! q)
  ∧ ∃ evs, trace wd' = trace wd ++ evs ∧ count is_exec evs = 0
           ∧ count is_rename evs = 0 ∧ count is_temp evs = 0.
Proof.
  unfold mkdirAll, Stat. destruct (lookup_node (fs wd) path) as [[]|] eqn:Hl.
  - intros ?; simplify_eq. split; [done|]. by trace_ext.
  - intros ?; simplify_eq. split; [done|]. by trace_ext.
  - destruct (mkdirAll_missing _ _ _ _) as [[wd1 [err|elts]]|] eqn:Hmiss; [| |done].
    + intros ?; simplify_eq.
      apply mkdirAll_missing_spec in Hmiss as (Hfs & (evs & Htr & ? & ? & ?) & _).
      split; [by rewrite Hfs|]. simpl in Htr.
      eexists. split; [rewrite Htr, <-app_assoc; reflexivity|]. done.
    + intros ?; simplify_eq.
      apply mkdirAll_missing_spec in Hmiss as (Hfs & (evs & Htr & ? & ? & ?) & Helts).
      destruct (mkdirAll_create o (rev elts) owner group (dir_mode mode) wd1)
        as [wd2 r2] eqn:Hc.
      apply mkdirAll_create_spec in Hc as (Hfs2 & evs2 & Htr2 & ? & ? & ?).
      simpl in *. simplify_eq. split.
      * intros q Hq. rewrite Hfs2, Hfs; [done|].
        intros Hin. rewrite list_elem_of_In, <-in_rev, <-list_elem_of_In in Hin.
        destruct (Helts _ eq_refl _ Hin) as [->%list_elem_of_singleton|[n ->]].
        -- by apply (Hq 0).
        -- by apply (Hq (S n)).
      * exists (Sys (SysStat path) false :: evs ++ evs2). split_and!.
        -- rewrite Htr2, Htr, <-!app_assoc; reflexivity.
        -- unfold count in *. simpl. rewrite List.filter_app, length_app. lia.
        -- unfold count in *. simpl. rewrite List.filter_app, length_app. lia.
        -- unfold count in *. simpl. rewrite List.filter_app, length_app. lia.
Qed.


Lemma count_cons f e evs : count f (e :: evs) = (if f e then 1 else 0) + count f evs.
Proof. unfold count. simpl. by destruct (f e). Qed.

Lemma not_own_ancestor (f : gmap string node) path n :
  lookup_node f path = None → Nat.iter n Dir (Dir path) ≠ path.
Proof.
  intros Hl Heq. rewrite <-Nat.iter_succ_r in Heq.
  apply Dir_iter_cycle, (lookup_node_fixed f) in Heq. congruence.
Qed.

Lemma maybeUpdateFile_spec fuel w path content wd wd' b e :
  maybeUpdateFile o fuel w path content wd = Some (wd', (b, e)) →
  ∃ evs, trace wd' = trace wd ++ evs
         ∧ count is_exec evs = 0
         ∧ count is_rename evs = (if b then 1 else 0)
         ∧ (b = true → e = None)
         ∧ (e ≠ None →
            fs wd' !! path = fs wd !! path
            ∧ ∀ tmp, Sys (SysTempFile tmp) true ∈ evs → fs wd' !! tmp = None).
Proof.
  unfold maybeUpdateFile, Stat, ReadFile.
  destruct (lookup_node (fs wd) path) as [[c0 ? ? ?|]|] eqn:Hl; simpl.
  - case_bool_decide as Hsame.
    { intros ?; simplify_eq. trace_ext. by split_and!. }
    destruct (replace_file _ _ _ _ _ _) as [wd1 [b1 e1]] eqn:Hr.
    intros ?; simplify_eq.
    apply replace_file_spec in Hr as (evs & Htr & ? & ? & Hbe & Hfail).
    simpl in Htr, Hfail.
    eexists. split; [rewrite Htr, <-!app_assoc; reflexivity|].
    simpl. rewrite !count_cons. simpl. split_and!; try done; [by apply Hbe|].
    intros He. destruct b; [by destruct He; apply Hbe|].
    destruct (Hfail eq_refl) as [-> Htmp]. split; [done|].
    intros tmp [[=]|[[=]|Hin]%elem_of_cons]%elem_of_cons. by apply Htmp.
  - intros ?; simplify_eq. trace_ext. split_and!; try done.
    intros _. split; [done|]. by intros tmp [[=]|?%elem_of_nil]%elem_of_cons.
  - destruct (lookup_node (fs wd) (Dir path)) as [[]|] eqn:Hp; simpl.
    + intros ?; simplify_eq. trace_ext. split_and!; try done.
      intros _. split; [done|].
      by intros tmp [[=]|[[=]|?%elem_of_nil]%elem_of_cons]%elem_of_cons.
    + destruct (replace_file _ _ _ _ _ _) as [wd1 [b1 e1]] eqn:Hr.
      intros ?; simplify_eq.
      apply replace_file_spec in Hr as (evs & Htr & ? & ? & Hbe & Hfail).
      simpl in Htr, Hfail.
      eexists. split; [rewrite Htr, <-!app_assoc; reflexivity|].
      simpl. rewrite !count_cons. simpl. split_and!; try done; [by apply Hbe|].
      intros He. destruct b; [by destruct He; apply Hbe|].
      destruct (Hfail eq_refl) as [-> Htmp]. split; [done|].
      intros tmp [[=]|[[=]|Hin]%elem_of_cons]%elem_of_cons. by apply Htmp.
    + destruct (mkdirAll _ _ _ _ _ _ _) as [[wdm [err|]]|] eqn:Hm; [| |done].
      * intros ?; simplify_eq.
        apply mkdirAll_spec in Hm as (Hfs & evs & Htr & ? & ? & Htmp).
        simpl in Htr, Hfs.
        eexists. split; [rewrite Htr, <-!app_assoc; reflexivity|].
        simpl. rewrite !count_cons. simpl. split_and!; try done.
        intros _. split.
        -- apply Hfs. intros n. by eapply not_own_ancestor.
        -- intros tmp [[=]|[[=]|Hin]%elem_of_cons]%elem_of_cons.
           by apply (count_zero _ _ _ Htmp) in Hin.
      * destruct (replace_file _ _ _ _ _ _) as [wd1 [b1 e1]] eqn:Hr.
        intros ?; simplify_eq.
        apply mkdirAll_spec in Hm as (Hfs & evs & Htr & ? & ? & Htmp).
        apply replace_file_spec in Hr as (evs2 & Htr2 & ? & ? & Hbe & Hfail).
        simpl in Htr, Hfs.
        exists (Sys (SysStat path) false :: Sys (SysStat (Dir path)) false
                  :: evs ++ evs2).
        split; [rewrite Htr2, Htr, <-!app_assoc; reflexivity|].
        rewrite !count_cons, !count_app. simpl.
        split_and!; [lia|lia|by apply Hbe|].
        intros He. destruct b; [by destruct He; apply Hbe|].
        destruct (Hfail eq_refl) as [Hfs2 Htmp2]. split.
        -- rewrite Hfs2. apply Hfs. intros n. by eapply not_own_ancestor.
        -- intros tmp [[=]|[[=]|[Hin|Hin]%elem_of_app]%elem_of_cons]%elem_of_cons.
           ++ by apply (count_zero _ _ _ Htmp) in Hin.
           ++ by apply Htmp2.
Qed.


(** ** Pruning and the events of a response *)

Lemma maybeRemoveDir_spec d wd wd' r :
  maybeRemoveDir d wd = (wd', r) →
  fs wd' = (if is_directory (fs wd !! d) && negb (has_entry (fs wd) d)
            then delete d (fs wd) else fs wd)
  ∧ ∃ evs, trace wd' = trace wd ++ Sys (SysOpen d) (bool_decide (is_Some (lookup_node (fs wd) d))) :: evs
           ∧ count is_exec evs = 0 ∧ count is_rename evs = 0.
Proof.
  unfold maybeRemoveDir, OpenFile, Readdirnames, Rmdir. cbn [fs sys].
  assert (is_directory (fs wd !! d) = true → is_directory (lookup_node (fs wd) d) = true)
    as Hdir.
  { unfold lookup_node. by case_bool_decide. }
  destruct (lookup_node (fs wd) d) as [n|] eqn:Hl; simpl.
  2:{ intros ?; simplify_eq. split; [|by trace_ext].
      destruct (is_directory (fs wd !! d)); [by specialize (Hdir eq_refl)|done]. }
  destruct n as [|perm uid gid]; simpl.
  { intros ?; simplify_eq. split; [|by trace_ext].
    destruct (is_directory (fs wd !! d)); [by specialize (Hdir eq_refl)|done]. }
  destruct (has_entry (fs wd) d) eqn:He; simpl.
  { intros ?; simplify_eq. split; [|by trace_ext]. by rewrite andb_false_r. }
  rewrite andb_true_r.
  destruct (is_directory (fs wd !! d)); simpl; intros ?; simplify_eq.
  - split; [done|]. by trace_ext.
  - split; [done|]. by trace_ext.
Qed.

Lemma prune_spec fuel w d wd wd' :
  prune fuel w d wd = Some wd' →
  ∃ evs, trace wd' = trace wd ++ evs
         ∧ count is_exec evs = 0 ∧ count is_rename evs = 0.
Proof.
  revert d wd. induction fuel as [|fuel IH]; intros d wd; [done|].
  cbn [prune]. case_bool_decide.
  { intros ?; simplify_eq. exists []. by rewrite app_nil_r. }
  destruct (maybeRemoveDir (Dir d) wd) as [wd1 [b e]] eqn:Hr.
  apply maybeRemoveDir_spec in Hr as (_ & evs1 & Htr1 & ? & ?).
  intros (evs & Htr & ? & ?)%IH.
  destruct b, e as [err|]; simpl in Htr;
    (eexists; split; [rewrite Htr, Htr1, <-!app_assoc; reflexivity|]);
    simpl; rewrite !count_cons, !count_app, ?count_cons; simpl; lia.
Qed.

Lemma update_spec fuel w report fn value wd wd' b :
  update o fuel w report fn value wd = Some (wd', b) →
  ∃ evs, trace wd' = trace wd ++ evs
         ∧ count is_exec evs = 0
         ∧ count is_rename evs = (if b then 1 else 0).
Proof.
  unfold update. destruct (snappy_decode value) as [data|].
  2:{ intros ?; simplify_eq. by trace_ext. }
  destruct (maybeUpdateFile _ _ _ _ _ _) as [[wd1 [b1 [err|]]]|] eqn:Hm; [| |done];
    intros ?; simplify_eq;
    apply maybeUpdateFile_spec in Hm as (evs & Htr & ? & Hren & Hb & _).
  - destruct b1; [by specialize (Hb eq_refl)|].
    eexists. split; [simpl; rewrite Htr, <-!app_assoc; reflexivity|].
    rewrite !count_app. simpl. unfold count at 2 4. simpl. lia.
  - by exists evs.
Qed.

Lemma handle_event_spec fuel w ev cnt wd wd' cnt' :
  handle_event o fuel w ev cnt wd = Some (wd', cnt') →
  ∃ evs, trace wd' = trace wd ++ evs
         ∧ count is_exec evs = 0
         ∧ cnt' = cnt + count is_rename evs.
Proof.
  unfold handle_event. destruct (keyRelPath _ _) as [key|].
  2:{ intros ?; simplify_eq. exists []. rewrite app_nil_r. split_and!; [done..|].
      unfold count. simpl. lia. }
  destruct (Type_ ev).
  - destruct (update _ _ _ _ _ _ _) as [[wd1 b]|] eqn:Hu; [|done].
    intros ?; simplify_eq. apply update_spec in Hu as (evs & ? & ? & Hren).
    exists evs. split_and!; [done..|]. rewrite Hren. destruct b; lia.
  - unfold Unlink. destruct (is_file _); simpl.
    + destruct (prune _ _ _ _) as [wd1|] eqn:Hp; [|done].
      intros ?; simplify_eq. apply prune_spec in Hp as (evs & Htr & ? & ?).
      simpl in Htr.
      eexists. split; [rewrite Htr, <-!app_assoc; reflexivity|].
      simpl. rewrite !count_cons. simpl. lia.
    + intros ?; simplify_eq. trace_ext. split; [done|]. unfold count. simpl. lia.
Qed.

Lemma handle_events_spec fuel w evts cnt wd wd' cnt' :
  handle_events o fuel w evts cnt wd = Some (wd', cnt') →
  ∃ evs, trace wd' = trace wd ++ evs
         ∧ count is_exec evs = 0
         ∧ cnt' = cnt + count is_rename evs.
Proof.
  revert cnt wd. induction evts as [|ev evts IH]; intros cnt wd; simpl.
  { intros ?; simplify_eq. exists []. rewrite app_nil_r. split_and!; [done..|].
    unfold count. simpl. lia. }
  destruct (handle_event _ _ _ _ _ _) as [[wd1 cnt1]|] eqn:Hev; [|done].
  apply handle_event_spec in Hev as (evs1 & Htr1 & ? & ->).
  intros (evs2 & Htr2 & ? & ->)%IH.
  exists (evs1 ++ evs2). split_and!.
  - by rewrite Htr2, Htr1, <-app_assoc.
  - rewrite count_app. lia.
  - rewrite count_app. lia.
Qed.

(** After a response is handled the trace has grown by the events of the
    batch, none of them a command, and then by the reload command
    exactly when a file was replaced. *)
Lemma handle_response_spec fuel w resp wd wd' :
  handle_response o fuel w resp wd = Some wd' →
  ∃ evs, count is_exec evs = 0
         ∧ trace wd' = trace wd ++ evs
                       ++ (if bool_decide (0 < count is_rename evs)
                           then [Exec (cmd w) (args w) (root w)] else []).
Proof.
  unfold handle_response.
  destruct (handle_events _ _ _ _ _ _) as [[wd1 cnt]|] eqn:Hevs; [|done].
  intros ?; simplify_eq.
  apply handle_events_spec in Hevs as (evs & Htr & Hex & ->). simpl.
  destruct (Canceled resp); simpl in Htr.
  - exists (Stderr "watch was canceled" :: evs). rewrite !count_cons. simpl.
    split; [done|]. case_bool_decide; simpl; rewrite Htr, <-?app_assoc; try done.
    by rewrite app_nil_r.
  - exists evs. split; [done|]. case_bool_decide; simpl; rewrite Htr, <-?app_assoc; try done.
    by rewrite app_nil_r.
Qed.

(** ** Enough fuel *)

Lemma mkdirAll_missing_total fuel d elts wd :
  (∃ k, 1 ≤ k ≤ fuel ∧ dir_fixed (Nat.iter k Dir d)) →
  is_Some (mkdirAll_missing fuel d elts wd).
Proof.
  revert d elts wd. induction fuel as [|fuel IH]; intros d elts wd (k & Hk & Hfix);
    [lia|].
  cbn [mkdirAll_missing]. case_bool_decide as Hd; [done|].
  unfold Stat. destruct (lookup_node (fs wd) (Dir d)) as [[]|]; [done..|].
  apply IH. destruct k as [|[|k]]; [lia| |].
  - destruct Hd. simpl in Hfix. by destruct Hfix; [left|right].
  - exists (S k). split; [lia|]. by rewrite <-Nat.iter_succ_r.
Qed.

Lemma mkdirAll_total fuel path owner group mode wd :
  length (split_slash path) ≤ fuel →
  is_Some (mkdirAll o fuel path owner group mode wd).
Proof.
  intros Hfuel. unfold mkdirAll, Stat.
  destruct (lookup_node (fs wd) path) as [[]|]; [done..|].
  destruct (mkdirAll_missing fuel path [path] _) as [[wd1 [err|elts]]|] eqn:Hm.
  - done.
  - by destruct (mkdirAll_create _ _ _ _ _ _).
  - apply eq_None_not_Some in Hm. destruct Hm. apply mkdirAll_missing_total.
    exists (length (split_slash path)). split_and!; [|done|by apply Dir_iter_fixed].
    pose proof (split_slash_nonnil path). destruct (split_slash path); [done|simpl; lia].
Qed.

Lemma maybeUpdateFile_total fuel w path content wd :
  length (split_slash (Dir path)) ≤ fuel →
  is_Some (maybeUpdateFile o fuel w path content wd).
Proof.
  intros Hfuel. unfold maybeUpdateFile, Stat.
  destruct (lookup_node (fs wd) path) as [[]|]; simpl.
  - by case_bool_decide.
  - done.
  - destruct (lookup_node (fs wd) (Dir path)) as [[]|]; [done..|].
    destruct (mkdirAll o fuel _ _ _ _ _) as [[wd1 [err|]]|] eqn:Hm; [done..|].
    apply eq_None_not_Some in Hm. destruct Hm. by apply mkdirAll_total.
Qed.

Lemma update_total fuel w report fn value wd :
  length (split_slash (Dir fn)) ≤ fuel → is_Some (update o fuel w report fn value wd).
Proof.
  intros Hfuel. unfold update. destruct (snappy_decode value); [|done].
  destruct (maybeUpdateFile o fuel w fn _ wd) as [[wd1 [b [err|]]]|] eqn:Hm; [done..|].
  apply eq_None_not_Some in Hm. destruct Hm. by apply maybeUpdateFile_total.
Qed.

Lemma handle_event_total fuel w ev cnt wd :
  (∀ key, keyRelPath (prefix w) (Key ev) = Some key →
     length (split_slash (Dir (Join [root w; key]))) ≤ fuel
     ∧ (Type_ ev = EventTypeDelete →
        ∃ n, n < fuel ∧ Nat.iter (S n) Dir (Join [root w; key]) = root w)) →
  is_Some (handle_event o fuel w ev cnt wd).
Proof.
  intros Hen. unfold handle_event. destruct (keyRelPath _ _) as [key|]; [|done].
  destruct (Hen key eq_refl) as [Hlen Hdel]. destruct (Type_ ev).
  - destruct (update o fuel w _ _ _ wd) as [[wd1 b]|] eqn:Hu; [done|].
    apply eq_None_not_Some in Hu. destruct Hu. by apply update_total.
  - unfold Unlink. destruct (is_file _); simpl; [|done].
    destruct (prune fuel w _ _) as [wd1|] eqn:Hp; [done|].
    apply eq_None_not_Some in Hp. destruct Hp. apply prune_is_Some. by apply Hdel.
Qed.

Lemma handle_events_total fuel w (evts : list Event) cnt wd :
  (∀ ev key, ev ∈ evts → keyRelPath (prefix w) (Key ev) = Some key →
     length (split_slash (Dir (Join [root w; key]))) ≤ fuel
     ∧ (Type_ ev = EventTypeDelete →
        ∃ n, n < fuel ∧ Nat.iter (S n) Dir (Join [root w; key]) = root w)) →
  is_Some (handle_events o fuel w evts cnt wd).
Proof.
  revert cnt wd. induction evts as [|ev evts IH]; intros cnt wd Hen; [done|].
  simpl. destruct (handle_event_total fuel w ev cnt wd) as [[wd1 cnt1] ->].
  { intros key. apply Hen. by left. }
  apply IH. intros ev' key Hin. apply Hen. by right.
Qed.

(** A bound on the fuel a list of events needs, when the loop after every
    delete event in it ends. *)
Lemma events_fuel w (evts : list Event) :
  (∀ ev key, ev ∈ evts → Type_ ev = EventTypeDelete →
     keyRelPath (prefix w) (Key ev) = Some key →
     ∃ n, Nat.iter (S n) Dir (Join [root w; key]) = root w) →
  ∃ fuel, ∀ ev key, ev ∈ evts → keyRelPath (prefix w) (Key ev) = Some key →
     length (split_slash (Dir (Join [root w; key]))) ≤ fuel
     ∧ (Type_ ev = EventTypeDelete →
        ∃ n, n < fuel ∧ Nat.iter (S n) Dir (Join [root w; key]) = root w).
Proof.
  induction evts as [|ev evts IH]; intros Hends.
  { exists 0. by intros ev key Hin%elem_of_nil. }
  destruct IH as [fuel Hfuel].
  { intros ev' key Hin. apply Hends. by right. }
  destruct (keyRelPath (prefix w) (Key ev)) as [key|] eqn:Hkey.
  2:{ exists fuel. intros ev' key' [->|Hin]%elem_of_cons Hk; [congruence|].
      by apply Hfuel. }
  set (len := length (split_slash (Dir (Join [root w; key])))).
  assert (∃ m, Type_ ev = EventTypeDelete →
               ∃ n, n < m ∧ Nat.iter (S n) Dir (Join [root w; key]) = root w)
    as [m Hm].
  { destruct (Type_ ev) eqn:Hty; [by exists 0|].
    destruct (Hends ev key) as [n Hn]; [by left|done..|].
    exists (S n). intros _. exists n. split; [lia|done]. }
  exists (fuel `max` (len `max` m)).
  intros ev' key' [->|Hin]%elem_of_cons Hk.
  - assert (key' = key) as -> by congruence. split; [unfold len; lia|].
    intros Hty. destruct (Hm Hty) as (n & ? & ?). exists n. split; [lia|done].
  - destruct (Hfuel ev' key' Hin Hk) as [Hlen Hdel]. split; [lia|].
    intros Hty. destruct (Hdel Hty) as (n & ? & ?). exists n. split; [lia|done].
Qed.

(** A delete event whose file is unlinked never ends when the root is
    not a cleaned path. *)
Lemma handle_event_delete_unclean_root fuel w ev cnt wd key :
  Clean (root w) ≠ root w →
  keyRelPath (prefix w) (Key ev) = Some key → Type_ ev = EventTypeDelete →
  is_file (fs wd !! Join [root w; key]) = true →
  handle_event o fuel w ev cnt wd = None.
Proof.
  intros Hc Hkey Hty Hfile. unfold handle_event, Unlink.
  rewrite Hkey, Hty, Hfile. simpl. by rewrite prune_unclean_root.
Qed.

End WatchFs.



(** Handling a watch response appends the events of the batch to the
    trace, none of them a command, and after them the reload command,
    once, exactly when the batch holds a successful rename of a temporary
    file over its target, that is, when a materialization replaced a
    file; with no such rename the command is not run.  Handling ends
    whenever the pruning loop after each delete event of the batch ends.
    The renames of a batch count its changed materializations: the
    materialization of one value contributes one rename when it reports
    a change and none otherwise. *)
Lemma one_reload_per_handled_response `{Libs} (o : Watch.os) (w : Watch.watcher)
    (resp : Watch.WatchResponse) (wd : Watch.world) :
  (∀ fuel wd',
     Watch.handle_response o fuel w resp wd = Some wd' →
     ∃ evs, Watch.count Watch.is_exec evs = 0
            ∧ Watch.trace wd'
              = Watch.trace wd ++ evs
                ++ (if bool_decide (0 < Watch.count Watch.is_rename evs)
                    then [Watch.Exec (Watch.cmd w) (Watch.args w) (Watch.root w)]
                    else []))
  ∧ ((∀ ev key, ev ∈ Watch.Events resp →
        Watch.Type_ ev = Watch.EventTypeDelete →
        Watch.keyRelPath (Watch.prefix w) (Watch.Key ev) = Some key →
        ∃ n, Nat.iter (S n) Dir (Join [Watch.root w; key]) = Watch.root w) →
     ∃ fuel, is_Some (Watch.handle_response o fuel w resp wd))
  ∧ (∀ fuel report fn value wd0 wd1 changed,
       Watch.update o fuel w report fn value wd0 = Some (wd1, changed) →
       ∃ evs, Watch.trace wd1 = Watch.trace wd0 ++ evs
              ∧ Watch.count Watch.is_rename evs = (if changed then 1 else 0)).
Proof.
  split_and!.
  - intros fuel wd'. apply handle_response_spec.
  - intros [fuel Hfuel]%events_fuel. exists fuel. unfold Watch.handle_response.
    destruct (handle_events_total o fuel w (Watch.Events resp) 0
                (if Watch.Canceled resp
                 then Watch.log (Watch.Stderr "watch was canceled") wd else wd))
      as [[wd1 cnt] ->]; done.
  - intros fuel report fn value wd0 wd1 changed Hu.
    apply update_spec in Hu as (evs & ? & _ & ?). by exists evs.
Qed.

(** C5.  A watcher whose root was given with a trailing slash receives a
    response with a put event and a delete event.  The put event
    replaces a file, so the batch has a changed materialization and the
    reload command is due once the batch has been applied.  The delete
    event unlinks its file and enters the pruning loop, which never
    reaches the root string; handling the response never ends, with
    whatever fuel, and the reload command is never run. *)
Theorem C5_reload_lost_in_endless_pruning :
  let w := Sample.watcher_at "/etc/app/" in
  let wd := {| Watch.fs := <["/etc/app/old/c.txt" := Sample.file "bye"]>
                             (Sample.dirs ["/etc"; "/etc/app"; "/etc/app/old"]);
               Watch.trace := [] |} in
  let resp := {| Watch.Canceled := false;
                 Watch.Events := [Sample.put "/svc/app/a.txt" "hello";
                                  Sample.del "/svc/app/old/c.txt"] |} in
  (∃ wd1,
     (∀ fuel, Watch.handle_event (H := Sample.libs) Sample.calm fuel w
                (Sample.put "/svc/app/a.txt" "hello") 0 wd = Some (wd1, 1))
     ∧ Watch.fs wd !! "/etc/app/a.txt" = None
     ∧ Watch.fs wd1 !! "/etc/app/a.txt" = Some (Sample.file "hello")
     ∧ Watch.count Watch.is_exec (Watch.trace wd1) = 0
     ∧ ∀ fuel, Watch.handle_event (H := Sample.libs) Sample.calm fuel w
                 (Sample.del "/svc/app/old/c.txt") 1 wd1 = None)
  ∧ ∀ fuel, Watch.handle_response (H := Sample.libs) Sample.calm fuel w resp wd = None.
Proof.
  intros w wd resp.
  destruct (Watch.handle_event (H := Sample.libs) Sample.calm 0 w
              (Sample.put "/svc/app/a.txt" "hello") 0 wd) as [[wd1 cnt1]|] eqn:Hput0;
    [|by vm_compute in Hput0].
  assert (∀ fuel, Watch.handle_event (H := Sample.libs) Sample.calm fuel w
                    (Sample.put "/svc/app/a.txt" "hello") 0 wd
                  = Watch.handle_event (H := Sample.libs) Sample.calm 0 w
                      (Sample.put "/svc/app/a.txt" "hello") 0 wd) as Hput.
  { intros fuel. by vm_compute. }
  rewrite Hput0 in Hput.
  pose proof Hput0 as Hv. vm_compute in Hv. injection Hv as Hwd1 Hcnt1.
  assert (∀ fuel, Watch.handle_event (H := Sample.libs) Sample.calm fuel w
                    (Sample.del "/svc/app/old/c.txt") cnt1 wd1 = None) as Hdel.
  { intros fuel. apply (handle_event_delete_unclean_root _ _ _ _ _ _ "old/c.txt");
      [done|done|done|]. by rewrite <-Hwd1. }
  split.
  - exists wd1. rewrite <-Hcnt1 in *. split_and!; [done|done| | |done].
    + by rewrite <-Hwd1.
    + by rewrite <-Hwd1.
  - intros fuel. unfold Watch.handle_response. cbn [Watch.Canceled Watch.Events resp].
    cbn [Watch.handle_events]. by rewrite Hput, Hdel.
Qed.


(** Two files replaced and one deleted in a batch: one reload, at the
    end. *)
Example one_reload_for_two_updates :
  let w := Sample.watcher_at "/etc/app" in
  let wd := {| Watch.fs := <["/etc/app/old/c.txt" := Sample.file "bye"]>
                             (Sample.dirs ["/etc"; "/etc/app"; "/etc/app/old"]);
               Watch.trace := [] |} in
  let resp := {| Watch.Canceled := false;
                 Watch.Events := [Sample.put "/svc/app/a.txt" "hello";
                                  Sample.del "/svc/app/old/c.txt";
                                  Sample.put "/svc/app/b.txt" "world"] |} in
  ∃ wd' evs,
    Watch.handle_response (H := Sample.libs) Sample.calm 8 w resp wd = Some wd'
    ∧ Watch.trace wd' = evs ++ [Watch.Exec "/usr/bin/sv" ["sv"; "reload"; "app"] "/etc/app"]
    ∧ Watch.count Watch.is_rename evs = 2
    ∧ Watch.count Watch.is_exec evs = 0
    ∧ Watch.fs wd' !! "/etc/app/old" = None.
Proof.
  eexists _, _. split; [vm_compute; reflexivity|].
  split; [simpl; by rewrite <-(app_nil_l [Watch.Exec _ _ _]), !app_comm_cons|].
  by vm_compute.
Qed.

(** * The pull side: pruning emptied directories *)

Section PruneFs.
Import Watch.



(** What [maybeRemoveDir] does to the filesystem. *)
Local Abbreviation remove_if_empty :=
  (λ (f : gmap string node) (q : string),
     if is_directory (f !! q) && negb (has_entry f q) then delete q f else f).












End PruneFs.





(** * update-state and the keepalived status *)

Section UpdateStateFacts.
Import UpdateState.

Lemma operation_not_sep bp cmd k v o : operation bp cmd k v = Some o → cmd ≠ "--".
Proof. intros Ho ->. unfold operation in Ho. by rewrite !bool_decide_eq_false_2 in Ho. Qed.

Lemma operations_triple bp (t : triple) tail ops o :
  operation bp (op t) (key t) (value t) = Some o →
  operations bp (words t ++ tail) ops = operations bp tail (ops ++ [o]).
Proof.
  intros Ho. pose proof (operation_not_sep _ _ _ _ _ Ho) as Hns.
  unfold words. destruct (sep t); simpl.
  - by rewrite Ho.
  - rewrite bool_decide_eq_false_2 by done. by rewrite Ho.
Qed.

(** Triples with known commands are read one after the other, whatever
    follows them. *)
Lemma operations_triples bp (ts : list triple) tail ops new :
  mapM (λ t, operation bp (op t) (key t) (value t)) ts = Some new →
  operations bp (concat (words <$> ts) ++ tail) ops = operations bp tail (ops ++ new).
Proof.
  rewrite mapM_Some. intros Hnew. revert ops.
  induction Hnew as [|t o ts new Ho _ IH]; intros ops.
  { simpl. by rewrite app_nil_r. }
  cbn [fmap list_fmap concat]. rewrite <-app_assoc.
  rewrite (operations_triple _ _ _ _ o) by done.
  rewrite IH. by rewrite <-app_assoc.
Qed.

Lemma apply_operation bp c (t : triple) o (s : gmap string string) q :
  operation bp (op t) (key t) (value t) = Some o →
  apply_op c o s !! q
  = if decide (q = full_key bp t) then outcome bp c t (s !! q) else s !! q.
Proof.
  unfold operation, outcome, full_key.
  set (k := if bool_decide (bp ≠ "") then Join [bp; key t] else key t).
  destruct (bool_decide (op t = "set")); [|destruct (bool_decide (op t = "del-if-same"))];
    intros ?; simplify_eq; simpl.
  - destruct (decide (q = k)) as [->|]; [by rewrite lookup_insert_eq|].
    by rewrite lookup_insert_ne.
  - rewrite andb_true_r. destruct (bool_decide (c !! k = Some (value t))); simpl.
    + destruct (decide (q = k)) as [->|]; [by rewrite lookup_delete_eq|].
      by rewrite lookup_delete_ne.
    + by destruct (decide (q = k)) as [->|].
Qed.

Lemma fold_operations bp c (ts : list triple) ops (s : gmap string string) :
  Forall2 (λ t o, operation bp (op t) (key t) (value t) = Some o) ts ops →
  NoDup (full_key bp <$> ts) →
  let s' := fold_left (λ s o, apply_op c o s) ops s in
  (∀ t, t ∈ ts → s' !! full_key bp t = outcome bp c t (s !! full_key bp t))
  ∧ (∀ q, q ∉ full_key bp <$> ts → s' !! q = s !! q).
Proof.
  intros Hops. revert s. induction Hops as [|t o ts ops Ho _ IH]; intros s Hnd.
  { simpl. split; [by intros t ?%elem_of_nil|done]. }
  rewrite fmap_cons in Hnd. apply NoDup_cons in Hnd as [Hnew Hnd].
  cbn [fold_left]. destruct (IH (apply_op c o s) Hnd) as [Hin Hout].
  split.
  - intros t' [->|Ht']%elem_of_cons.
    + rewrite Hout by done. rewrite (apply_operation bp c t) by done.
      by rewrite decide_True.
    + rewrite Hin by done. rewrite (apply_operation bp c t) by done.
      rewrite decide_False; [done|]. intros Heq. apply Hnew. rewrite <-Heq.
      by apply list_elem_of_fmap_2.
  - intros q Hq. rewrite fmap_cons in Hq. apply not_elem_of_cons in Hq as [Hne Hq].
    rewrite Hout by done. rewrite (apply_operation bp c t) by done.
    by rewrite decide_False.
Qed.

End UpdateStateFacts.

(** X12.  A command line made of triples whose commands are
    set or del-if-same, each written with or without "--" before it, is
    read as exactly those operations, in order, and committed as one
    transaction. *)
Theorem update_state_reads_triples (basePrefix : string)
    (ts : list UpdateState.triple) (ops : list Op) (c : gmap string string) :
  mapM (λ t, UpdateState.operation basePrefix (UpdateState.op t) (UpdateState.key t)
               (UpdateState.value t)) ts = Some ops →
  UpdateState.operations basePrefix (concat (UpdateState.words <$> ts)) [] = inr ops
  ∧ UpdateState.updateStateFunc basePrefix (concat (UpdateState.words <$> ts)) c
    = inr (commit c ops).1.
Proof.
  intros Hops.
  assert (UpdateState.operations basePrefix (concat (UpdateState.words <$> ts)) []
          = inr ops) as Hparse.
  { rewrite <-(app_nil_r (concat _)). by rewrite (operations_triples _ _ _ _ ops). }
  split; [done|]. unfold UpdateState.updateStateFunc. by rewrite Hparse.
Qed.

Lemma update_state_reads_triples_witness :
  let ts := [{| UpdateState.sep := false; UpdateState.op := "set";
                UpdateState.key := "backup"; UpdateState.value := "BACKUP" |};
             {| UpdateState.sep := true; UpdateState.op := "del-if-same";
                UpdateState.key := "current"; UpdateState.value := "backup" |}] in
  let c : gmap string string := {[ "/etc/router/state/current" := "backup" ]} in
  concat (UpdateState.words <$> ts)
  = ["set"; "backup"; "BACKUP"; "--"; "del-if-same"; "current"; "backup"]
  ∧ UpdateState.updateStateFunc "/etc/router/state"
      ["set"; "backup"; "BACKUP"; "--"; "del-if-same"; "current"; "backup"] c
    = inr {[ "/etc/router/state/backup" := "BACKUP" ]}.
Proof.
  intros ts c. split; [done|].
  etrans; [exact (proj2 (update_state_reads_triples "/etc/router/state" ts
    [OpPut "/etc/router/state/backup" "BACKUP";
     OpTxn [ValueEq "/etc/router/state/current" "backup"]
           [OpDelete "/etc/router/state/current"] []] c eq_refl))|].
  done.
Defined.

(** X13.  After any number of well-formed triples, a trailing "--", a
    triple cut short, or a command other than set and del-if-same makes
    the call return an error; it returns before the store is contacted,
    so none of the operations read so far is applied. *)
Theorem update_state_rejects_malformed (basePrefix : string)
    (ts : list UpdateState.triple) (ops : list Op) (c : gmap string string) :
  mapM (λ t, UpdateState.operation basePrefix (UpdateState.op t) (UpdateState.key t)
               (UpdateState.value t)) ts = Some ops →
  let line := concat (UpdateState.words <$> ts) in
  UpdateState.updateStateFunc basePrefix (line ++ ["--"]) c
  = inl "no command (trailing --?)"
  ∧ (∀ w, w ≠ "--" →
       UpdateState.updateStateFunc basePrefix (line ++ [w]) c = inl "key missing")
  ∧ (∀ w k, w ≠ "--" →
       UpdateState.updateStateFunc basePrefix (line ++ [w; k]) c = inl "value missing")
  ∧ (∀ w k v rest, w ≠ "--" → UpdateState.operation basePrefix w k v = None →
       UpdateState.updateStateFunc basePrefix (line ++ w :: k :: v :: rest) c
       = inl ("unknown command " +:+ w)).
Proof.
  intros Hops line. unfold UpdateState.updateStateFunc, line.
  split_and!; intros; rewrite (operations_triples _ _ _ _ ops) by done; simpl;
    rewrite ?bool_decide_eq_false_2 by done; try done.
  by rewrite H0.
Qed.

Lemma update_state_rejects_malformed_witness :
  let c : gmap string string := {[ "backup" := "MASTER" ]} in
  UpdateState.updateStateFunc "" ["set"; "backup"; "BACKUP"; "--"] c
  = inl "no command (trailing --?)"
  ∧ UpdateState.updateStateFunc "" ["set"; "backup"; "BACKUP"; "delete"; "current"; "x"] c
    = inl "unknown command delete".
Proof.
  intros c.
  pose proof (update_state_rejects_malformed ""
    [{| UpdateState.sep := false; UpdateState.op := "set";
        UpdateState.key := "backup"; UpdateState.value := "BACKUP" |}]
    [OpPut "backup" "BACKUP"] c eq_refl) as (Htrail & _ & _ & Hunknown).
  split; [exact Htrail|].
  exact (Hunknown "delete" "current" "x" [] ltac:(done) eq_refl).
Defined.

(** X14.  When the triples of a command line act on pairwise different
    keys, the run leaves every key of a set triple at the value given,
    removes the key of a del-if-same triple exactly when the store held
    the value given before the run and leaves it as it was otherwise, and
    changes no other key. *)
Theorem update_state_effect (basePrefix : string) (ts : list UpdateState.triple)
    (ops : list Op) (c : gmap string string) :
  mapM (λ t, UpdateState.operation basePrefix (UpdateState.op t) (UpdateState.key t)
               (UpdateState.value t)) ts = Some ops →
  NoDup (UpdateState.full_key basePrefix <$> ts) →
  ∃ c', UpdateState.updateStateFunc basePrefix (concat (UpdateState.words <$> ts)) c
        = inr c'
        ∧ (∀ t, t ∈ ts →
             c' !! UpdateState.full_key basePrefix t
             = if bool_decide (UpdateState.op t = "set")
               then Some (UpdateState.value t)
               else if bool_decide (c !! UpdateState.full_key basePrefix t
                                    = Some (UpdateState.value t))
               then None else c !! UpdateState.full_key basePrefix t)
        ∧ (∀ q, q ∉ UpdateState.full_key basePrefix <$> ts → c' !! q = c !! q).
Proof.
  intros Hops Hnd. eexists. split.
  - unfold UpdateState.updateStateFunc.
    rewrite <-(app_nil_r (concat _)). by rewrite (operations_triples _ _ _ _ ops).
  - apply mapM_Some in Hops.
    by destruct (fold_operations basePrefix c ts ops c Hops Hnd).
Qed.

Lemma update_state_effect_witness :
  let t1 := {| UpdateState.sep := false; UpdateState.op := "set";
               UpdateState.key := "backup"; UpdateState.value := "BACKUP" |} in
  let t2 := {| UpdateState.sep := true; UpdateState.op := "del-if-same";
               UpdateState.key := "current"; UpdateState.value := "backup" |} in
  let c : gmap string string := {[ "/s/current" := "other" ]} in
  ∃ c', UpdateState.updateStateFunc "/s"
          ["set"; "backup"; "BACKUP"; "--"; "del-if-same"; "current"; "backup"] c
        = inr c'
        ∧ c' !! "/s/backup" = Some "BACKUP"
        ∧ c' !! "/s/current" = Some "other".
Proof.
  intros t1 t2 c.
  assert (NoDup (UpdateState.full_key "/s" <$> [t1; t2])) as Hnd.
  { apply NoDup_cons. split; [|apply NoDup_singleton].
    by intros [=]%list_elem_of_singleton. }
  destruct (update_state_effect "/s" [t1; t2] _ c eq_refl Hnd) as (c' & Hrun & Hin & _).
  exists c'. split; [exact Hrun|]. split.
  - change "/s/backup" with (UpdateState.full_key "/s" t1).
    rewrite Hin by (by left). by vm_compute.
  - change "/s/current" with (UpdateState.full_key "/s" t2).
    rewrite Hin by (right; by left). by vm_compute.
Defined.

Section KeepalivedFacts.
Import Keepalived.


End KeepalivedFacts.


(** * More on the pull side *)

Section DirMode.
Import Watch.

Lemma land_4 m : Z.land m 4 = if Z.testbit m 2 then 4%Z else 0%Z.
Proof.
  apply Z.bits_inj'. intros n Hn. rewrite Z.land_spec.
  change 4%Z with (2 ^ 2)%Z at 1. rewrite Z.pow2_bits_eqb by lia.
  destruct (Z.eqb_spec 2 n) as [<-|Hne].
  - rewrite andb_true_r. destruct (Z.testbit m 2); [|by rewrite Z.bits_0].
    change 4%Z with (2 ^ 2)%Z. by rewrite Z.pow2_bits_true.
  - rewrite andb_false_r. destruct (Z.testbit m 2); [|by rewrite Z.bits_0].
    change 4%Z with (2 ^ 2)%Z. rewrite Z.pow2_bits_false by done. done.
Qed.

Lemma testbit_2_lor m k :
  Z.testbit k 2 = false → Z.testbit (Z.lor m k) 2 = Z.testbit m 2.
Proof. intros Hk. by rewrite Z.lor_spec, Hk, orb_false_r. Qed.

Lemma dir_mode_step m i :
  (0 ≤ i)%Z →
  (if bool_decide (Z.shiftl (Z.land m 4) (i * 3) ≠ 0)%Z
   then Z.lor m (Z.shiftl 1 (i * 3)) else m)
  = if Z.testbit m 2 then Z.lor m (Z.shiftl 1 (i * 3)) else m.
Proof.
  intros Hi. rewrite land_4. destruct (Z.testbit m 2).
  - rewrite bool_decide_eq_true_2; [done|].
    rewrite Z.shiftl_mul_pow2 by lia. pose proof (Z.pow_pos_nonneg 2 (i * 3)). lia.
  - rewrite Z.shiftl_0_l. by rewrite bool_decide_eq_false_2 by (by intros []).
Qed.

Lemma dir_mode_bits mode :
  dir_mode mode
  = if bool_decide (mode = -1)%Z then 493%Z
    else if Z.testbit mode 2 then Z.lor mode 73 else mode.
Proof.
  unfold dir_mode. destruct (bool_decide (mode = -1)%Z); [done|].
  cbn [fold_left]. rewrite !dir_mode_step by lia.
  destruct (Z.testbit mode 2) eqn:Hb; cbv iota; [|by rewrite !Hb].
  rewrite testbit_2_lor, Hb by done. cbv iota.
  rewrite !testbit_2_lor, Hb by done.
  by rewrite <-!Z.lor_assoc.
Qed.

End DirMode.

Section MkdirAll.
Import Watch.
Context (o : os).


(** Creating directories leaves every entry that was there as it was. *)
Lemma mkdirAll_create_keeps l owner group mode wd wd' r q n :
  mkdirAll_create o l owner group mode wd = (wd', r) →
  fs wd !! q = Some n → fs wd' !! q = Some n.
Proof.
  revert wd. induction l as [|d l IH]; intros wd; cbn [mkdirAll_create].
  { by intros ?; simplify_eq. }
  unfold Mkdir, Chown.
  destruct (negb (fault o (SysMkdir d mode)) && _ && _) eqn:Hokm; simpl.
  2:{ by intros ?; simplify_eq. }
  apply andb_prop in Hokm as [[_ Hfree%bool_decide_eq_true%lookup_node_None]%andb_prop _].
  intros Hc Hq. assert (d ≠ q) as Hne by congruence.
  destruct (bool_decide (0 ≤ owner)%Z); simpl in Hc.
  - destruct (negb (fault o (SysChown d owner group)) && _) eqn:Hoko; simpl in Hc.
    + apply IH in Hc; [done|]. simpl. by rewrite lookup_alter_ne, lookup_insert_ne.
    + simplify_eq. simpl. by rewrite lookup_insert_ne.
  - apply IH in Hc; [done|]. simpl. by rewrite lookup_insert_ne.
Qed.


Lemma mkdirAll_keeps fuel path owner group mode wd wd' r q n :
  mkdirAll o fuel path owner group mode wd = Some (wd', r) →
  fs wd !! q = Some n → fs wd' !! q = Some n.
Proof.
  unfold mkdirAll, Stat. destruct (lookup_node (fs wd) path) as [[]|].
  - by intros ?; simplify_eq.
  - by intros ?; simplify_eq.
  - destruct (mkdirAll_missing _ _ _ _) as [[wd1 [err|elts]]|] eqn:Hmiss; [| |done].
    + intros ?; simplify_eq.
      apply mkdirAll_missing_spec in Hmiss as (Hfs & _). by rewrite Hfs.
    + intros [= Hc] Hq. apply mkdirAll_missing_spec in Hmiss as (Hfs & _).
      eapply mkdirAll_create_keeps; [exact Hc|]. by rewrite Hfs.
Qed.


End MkdirAll.

Section Frame.
Import Watch.
Context `{Libs} (o : os).

Lemma install_others w path tmp content wd wd' r q :
  install o w path tmp content wd = (wd', r) → q ≠ path → q ≠ tmp →
  fs wd' !! q = fs wd !! q.
Proof.
  intros Hin Hp Ht. revert Hin.
  unfold install, Write, Close, Chmod, Chown, Rename, Unlink, sys. simpl.
  repeat (match goal with
          | |- context [if ?b then _ else _] => destruct b eqn:?
          | |- context [match ?x with Some _ => _ | None => _ end] => destruct x eqn:?
          end; simpl);
    intros ?; simplify_eq; simpl;
    by rewrite ?lookup_insert_ne, ?lookup_delete_ne, ?lookup_alter_ne by done.
Qed.

Lemma replace_file_keeps w path p content wd wd' r q n :
  replace_file o w path p content wd = (wd', r) → q ≠ path →
  fs wd !! q = Some n → fs wd' !! q = Some n.
Proof.
  unfold replace_file, TempFile.
  set (name := Join [p; ".temp" +:+ random o]).
  destruct (negb (fault o (SysTempFile name)) && _ && _) eqn:Hok.
  - apply andb_prop in Hok as [_ Hfree%bool_decide_eq_true%lookup_node_None].
    intros Hin Hp Hq. assert (q ≠ name) by congruence.
    erewrite install_others; [|exact Hin|done..]. simpl. by rewrite lookup_insert_ne.
  - by intros ?; simplify_eq.
Qed.

(** Materializing one path leaves every other entry that was there as it
    was. *)
Lemma maybeUpdateFile_keeps fuel w path content wd wd' r q n :
  maybeUpdateFile o fuel w path content wd = Some (wd', r) → q ≠ path →
  fs wd !! q = Some n → fs wd' !! q = Some n.
Proof.
  unfold maybeUpdateFile, Stat, ReadFile.
  destruct (lookup_node (fs wd) path) as [[]|]; simpl.
  - case_bool_decide; [by intros ?; simplify_eq|].
    intros [= Hr] Hp Hq. by eapply replace_file_keeps; [exact Hr|done|].
  - by intros ?; simplify_eq.
  - destruct (lookup_node (fs wd) (Dir path)) as [[]|]; simpl.
    + by intros ?; simplify_eq.
    + intros [= Hr] Hp Hq. by eapply replace_file_keeps; [exact Hr|done|].
    + destruct (mkdirAll _ _ _ _ _ _ _) as [[wdm [err|]]|] eqn:Hm; [| |done].
      * intros ?; simplify_eq. intros _ Hq. simpl.
        eapply mkdirAll_keeps in Hm; [|exact Hq]. done.
      * intros [= Hr] Hp Hq. eapply replace_file_keeps; [exact Hr|done|].
        simpl. eapply mkdirAll_keeps in Hm; [|exact Hq]. done.
Qed.

(** The same content a second time: two reads, no write. *)
Lemma maybeUpdateFile_again fuel fuel' w path content wd wd' e :
  maybeUpdateFile o fuel w path content wd = Some (wd', (true, e)) →
  fault o (SysReadFile path) = false →
  ∃ wd2, maybeUpdateFile o fuel' w path content wd' = Some (wd2, (false, None))
         ∧ fs wd2 = fs wd'
         ∧ trace wd2 = trace wd' ++ [Sys (SysStat path) true; Sys (SysReadFile path) true].
Proof.
  intros Hm Hfault.
  assert (¬ dir_fixed path) as Hnf.
  { intros Hf. revert Hm. unfold maybeUpdateFile, Stat.
    rewrite (lookup_node_fixed _ _ Hf). by intros ?; simplify_eq. }
  apply maybeUpdateFile_ok in Hm as (uid & gid & Hfile).
  unfold maybeUpdateFile, Stat, ReadFile, lookup_node.
  rewrite bool_decide_eq_false_2 by (intros [Hp|Hp]; apply Hnf; [by right|by left]).
  rewrite Hfile. simpl. rewrite Hfile, Hfault. rewrite bool_decide_eq_true_2 by done.
  eexists. split; [done|]. split; [done|]. simpl.
  by rewrite <-app_assoc.
Qed.

End Frame.

Section Events.
Import Watch.
Context `{Libs} (o : os).

Lemma maybeRemoveDir_keeps_files d wd wd' r q c p u g :
  maybeRemoveDir d wd = (wd', r) →
  fs wd !! q = Some (File c p u g) → fs wd' !! q = Some (File c p u g).
Proof.
  intros (Hfs & _)%maybeRemoveDir_spec Hq. rewrite Hfs.
  destruct (is_directory (fs wd !! d)) eqn:Hd; simpl; [|done].
  destruct (has_entry (fs wd) d); simpl; [done|].
  rewrite lookup_delete_ne; [done|]. intros ->. by rewrite Hq in Hd.
Qed.

Lemma prune_keeps_files fuel w d wd wd' q c p u g :
  prune fuel w d wd = Some wd' →
  fs wd !! q = Some (File c p u g) → fs wd' !! q = Some (File c p u g).
Proof.
  revert d wd. induction fuel as [|fuel IH]; intros d wd; [done|].
  cbn [prune]. case_bool_decide; [by intros ?; simplify_eq|].
  destruct (maybeRemoveDir (Dir d) wd) as [wd1 [b e]] eqn:Hr.
  intros Hp Hq. eapply IH; [exact Hp|].
  eapply maybeRemoveDir_keeps_files in Hr; [|exact Hq].
  by destruct b, e.
Qed.

Lemma update_keeps fuel w report fn value wd wd' b q n :
  update o fuel w report fn value wd = Some (wd', b) → q ≠ fn →
  fs wd !! q = Some n → fs wd' !! q = Some n.
Proof.
  unfold update. destruct (snappy_decode value) as [data|]; [|by intros ?; simplify_eq].
  destruct (maybeUpdateFile _ _ _ _ _ _) as [[wd1 [b1 [err|]]]|] eqn:Hm; [| |done];
    intros ?; simplify_eq; intros Hne Hq; simpl;
    by eapply maybeUpdateFile_keeps in Hm.
Qed.

Lemma handle_event_keeps_files fuel w ev cnt wd wd' cnt' q c p u g :
  handle_event o fuel w ev cnt wd = Some (wd', cnt') →
  (∀ key, keyRelPath (prefix w) (Key ev) = Some key → Join [root w; key] ≠ q) →
  fs wd !! q = Some (File c p u g) → fs wd' !! q = Some (File c p u g).
Proof.
  unfold handle_event. destruct (keyRelPath _ _) as [key|]; [|by intros ?; simplify_eq].
  intros Hev Hne Hq. specialize (Hne key eq_refl).
  destruct (Type_ ev).
  - destruct (update _ _ _ _ _ _ _) as [[wd1 b]|] eqn:Hu; [|done]. simplify_eq.
    by eapply update_keeps in Hu.
  - revert Hev. unfold Unlink. destruct (is_file _); simpl.
    + destruct (prune _ _ _ _) as [wd1|] eqn:Hp; [|done]. intros ?; simplify_eq.
      eapply prune_keeps_files; [exact Hp|]. simpl. by rewrite lookup_delete_ne.
    + by intros ?; simplify_eq.
Qed.

Lemma handle_events_keeps_files fuel w (evts : list Event) cnt wd wd' cnt' q c p u g :
  handle_events o fuel w evts cnt wd = Some (wd', cnt') →
  (∀ ev key, ev ∈ evts → keyRelPath (prefix w) (Key ev) = Some key →
     Join [root w; key] ≠ q) →
  fs wd !! q = Some (File c p u g) → fs wd' !! q = Some (File c p u g).
Proof.
  revert cnt wd. induction evts as [|ev evts IH]; intros cnt wd; simpl.
  { by intros ?; simplify_eq. }
  destruct (handle_event _ _ _ _ _ _) as [[wd1 cnt1]|] eqn:Hev; [|done].
  intros Hevs Hne Hq. eapply IH; [exact Hevs| |].
  - intros ev' key Hin. apply Hne. by right.
  - eapply handle_event_keeps_files; [exact Hev| |done].
    intros key. apply Hne. by left.
Qed.

Lemma handle_event_delete_count fuel w ev cnt wd wd' cnt' :
  handle_event o fuel w ev cnt wd = Some (wd', cnt') →
  Type_ ev = EventTypeDelete → cnt' = cnt.
Proof.
  unfold handle_event. destruct (keyRelPath _ _) as [key|]; [|by intros ?; simplify_eq].
  intros Hev Hty. rewrite Hty in Hev. revert Hev.
  unfold Unlink. destruct (is_file _); simpl.
  - destruct (prune _ _ _ _); by intros ?; simplify_eq.
  - by intros ?; simplify_eq.
Qed.

Lemma handle_events_delete_count fuel w (evts : list Event) cnt wd wd' cnt' :
  handle_events o fuel w evts cnt wd = Some (wd', cnt') →
  Forall (λ ev, Type_ ev = EventTypeDelete) evts → cnt' = cnt.
Proof.
  revert cnt wd. induction evts as [|ev evts IH]; intros cnt wd; simpl.
  { by intros ?; simplify_eq. }
  destruct (handle_event _ _ _ _ _ _) as [[wd1 cnt1]|] eqn:Hev; [|done].
  intros Hevs [Hd Hds]%Forall_cons.
  apply handle_event_delete_count in Hev as ->; [|done]. by eapply IH.
Qed.

End Events.

Section Run.
Import Watch.
Context `{Libs} (o : os).

Lemma initialSync_kvs_spec fuel w kvs cnt wd wd' cnt' :
  initialSync_kvs o fuel w kvs cnt wd = Some (wd', cnt') →
  ∃ evs, trace wd' = trace wd ++ evs
         ∧ count is_exec evs = 0
         ∧ cnt' = cnt + count is_rename evs.
Proof.
  revert cnt wd. induction kvs as [|[k v] kvs IH]; intros cnt wd; cbn [initialSync_kvs].
  { intros ?; simplify_eq. exists []. rewrite app_nil_r. split_and!; [done..|].
    unfold count. simpl. lia. }
  destruct (keyRelPath _ _) as [key|]; [|by apply IH].
  destruct (update _ _ _ _ _ _ _) as [[wd1 b]|] eqn:Hu; [|done].
  apply update_spec in Hu as (evs1 & Htr1 & ? & Hren).
  intros (evs2 & Htr2 & ? & ->)%IH.
  exists (evs1 ++ evs2). split_and!.
  - by rewrite Htr2, Htr1, <-app_assoc.
  - rewrite count_app. lia.
  - rewrite count_app, Hren. destruct b; lia.
Qed.

Lemma initialSync_kvs_total fuel w kvs cnt wd :
  (∀ k v key, (k, v) ∈ kvs → keyRelPath (prefix w) k = Some key →
     length (split_slash (Dir (Join [root w; key]))) ≤ fuel) →
  is_Some (initialSync_kvs o fuel w kvs cnt wd).
Proof.
  revert cnt wd. induction kvs as [|[k v] kvs IH]; intros cnt wd Hfuel; [done|].
  cbn [initialSync_kvs].
  destruct (keyRelPath _ _) as [key|] eqn:Hkey.
  2:{ apply IH. intros k' v' key' Hin. eapply Hfuel. by right. }
  destruct (update_total o fuel w (sync_error (Join [root w; key]))
              (Join [root w; key]) v wd) as [[wd1 b] ->].
  { eapply Hfuel; [by left|done]. }
  apply IH. intros k' v' key' Hin. eapply Hfuel. by right.
Qed.

Lemma initialSync_kvs_fuel w (kvs : list (string * string)) :
  ∃ fuel0, ∀ k v key, (k, v) ∈ kvs → keyRelPath (prefix w) k = Some key →
     length (split_slash (Dir (Join [root w; key]))) ≤ fuel0.
Proof.
  induction kvs as [|[k v] kvs [fuel0 IH]].
  { exists 0. by intros k v key ?%elem_of_nil. }
  destruct (keyRelPath (prefix w) k) as [key|] eqn:Hkey.
  - exists (fuel0 `max` length (split_slash (Dir (Join [root w; key])))).
    intros k' v' key' [[= -> ->]|Hin]%elem_of_cons Hk.
    + assert (key' = key) as -> by congruence. lia.
    + specialize (IH k' v' key' Hin Hk). lia.
  - exists fuel0. intros k' v' key' [[= -> ->]|Hin]%elem_of_cons Hk; [congruence|].
    by eapply IH.
Qed.

Lemma initialSync_kvs_keeps fuel w kvs cnt wd wd' cnt' q n :
  initialSync_kvs o fuel w kvs cnt wd = Some (wd', cnt') →
  (∀ k v key, (k, v) ∈ kvs → keyRelPath (prefix w) k = Some key →
     Join [root w; key] ≠ q) →
  fs wd !! q = Some n → fs wd' !! q = Some n.
Proof.
  revert cnt wd. induction kvs as [|[k v] kvs IH]; intros cnt wd; cbn [initialSync_kvs].
  { by intros ?; simplify_eq. }
  destruct (keyRelPath _ _) as [key|] eqn:Hkey.
  2:{ intros Hs Hne. eapply IH; [exact Hs|]. intros k' v' key' Hin. eapply Hne. by right. }
  destruct (update _ _ _ _ _ _ _) as [[wd1 b]|] eqn:Hu; [|done].
  intros Hs Hne Hq. eapply IH; [exact Hs| |].
  - intros k' v' key' Hin. eapply Hne. by right.
  - eapply update_keeps; [exact Hu| |done]. apply not_eq_sym. eapply Hne; [by left|done].
Qed.

Lemma handle_response_keeps_files fuel w resp wd wd' q c p u g :
  handle_response o fuel w resp wd = Some wd' →
  (∀ ev key, ev ∈ Events resp → keyRelPath (prefix w) (Key ev) = Some key →
     Join [root w; key] ≠ q) →
  fs wd !! q = Some (File c p u g) → fs wd' !! q = Some (File c p u g).
Proof.
  unfold handle_response.
  destruct (handle_events _ _ _ _ _ _) as [[wd1 cnt]|] eqn:Hevs; [|done].
  intros ?; simplify_eq. intros Hne Hq.
  eapply handle_events_keeps_files in Hevs; [| done |].
  - by destruct (bool_decide _).
  - by destruct (Canceled resp).
Qed.

End Run.


(** X1.  The mode [mkdirAll] creates directories with is 0755 for -1;
    otherwise it is the file mode with the three execute bits added when
    the file mode lets others read (bit 04), and the file mode itself
    when it does not: 0644 gives 0755, while 0640 and 0600 stay as they
    are, without an execute bit for anyone. *)
Theorem mkdirAll_mode_follows_other_read :
  (∀ mode, Watch.dir_mode mode
           = if bool_decide (mode = -1)%Z then 493%Z
             else if Z.testbit mode 2 then Z.lor mode 73 else mode)
  ∧ Watch.dir_mode 420 = 493%Z
  ∧ Watch.dir_mode 416 = 416%Z
  ∧ Watch.dir_mode 384 = 384%Z.
Proof. split; [apply dir_mode_bits|done]. Qed.



(** X3.  A materialization that reports an update leaves a regular
    file with the content and the configured mode at the path.
    Materializing the same content again then reads the file and does
    nothing else: no temporary file, no rename, no update reported. *)
Theorem materialize_same_content_is_silent (o : Watch.os) (fuel : nat)
    (w : Watch.watcher) (path content : string) (wd wd' : Watch.world)
    (e : option Watch.error) :
  Watch.maybeUpdateFile o fuel w path content wd = Some (wd', (true, e)) →
  Watch.fault o (Watch.SysReadFile path) = false →
  (∃ uid gid, Watch.fs wd' !! path
              = Some (Watch.File content (Watch.rootMask w) uid gid))
  ∧ ∀ fuel', ∃ wd2,
      Watch.maybeUpdateFile o fuel' w path content wd' = Some (wd2, (false, None))
      ∧ Watch.fs wd2 = Watch.fs wd'
      ∧ Watch.trace wd2
        = Watch.trace wd' ++ [Watch.Sys (Watch.SysStat path) true;
                              Watch.Sys (Watch.SysReadFile path) true].
Proof.
  intros Hm Hf. split; [by eapply maybeUpdateFile_ok|].
  intros fuel'. by eapply maybeUpdateFile_again.
Qed.

Lemma materialize_same_content_is_silent_witness :
  let w := Sample.watcher_at "/etc/app" in
  let wd := {| Watch.fs := Sample.dirs ["/etc"; "/etc/app"]; Watch.trace := [] |} in
  ∃ wd' wd2,
    Watch.maybeUpdateFile Sample.calm 8 w "/etc/app/a.txt" "hello" wd
    = Some (wd', (true, None))
    ∧ Watch.fs wd' !! "/etc/app/a.txt" = Some (Sample.file "hello")
    ∧ Watch.maybeUpdateFile Sample.calm 8 w "/etc/app/a.txt" "hello" wd'
      = Some (wd2, (false, None))
    ∧ Watch.fs wd2 = Watch.fs wd'.
Proof.
  intros w wd.
  destruct (Watch.maybeUpdateFile Sample.calm 8 w "/etc/app/a.txt" "hello" wd)
    as [[wd' [[|] [err|]]]|] eqn:Hm; try (by vm_compute in Hm).
  destruct (materialize_same_content_is_silent Sample.calm 8 w "/etc/app/a.txt"
              "hello" wd wd' None Hm eq_refl) as (_ & Hagain).
  destruct (Hagain 8) as (wd2 & H2 & Hfs & _).
  exists wd', wd2. split_and!; [done| |done|done].
  pose proof Hm as Hv. vm_compute in Hv. injection Hv as <-. by vm_compute.
Defined.

(** X4.  Whatever [maybeUpdateFile] does and however it ends, every
    file and directory that existed before the call, other than the
    target path, is afterwards exactly as it was: the directories and
    the temporary file it creates are new, and only the target is
    renamed over. *)
Theorem materialize_keeps_other_entries (o : Watch.os) (fuel : nat)
    (w : Watch.watcher) (path content : string) (wd wd' : Watch.world)
    (r : bool * option Watch.error) (q : string) (n : Watch.node) :
  Watch.maybeUpdateFile o fuel w path content wd = Some (wd', r) →
  q ≠ path → Watch.fs wd !! q = Some n → Watch.fs wd' !! q = Some n.
Proof. apply maybeUpdateFile_keeps. Qed.

Lemma materialize_keeps_other_entries_witness :
  let w := Sample.watcher_at "/etc/app" in
  let wd := {| Watch.fs := <["/etc/app/b.txt" := Sample.file "keep"]>
                             (Sample.dirs ["/etc"; "/etc/app"]);
               Watch.trace := [] |} in
  ∃ wd' r, Watch.maybeUpdateFile Sample.calm 8 w "/etc/app/sub/a.txt" "hello" wd
           = Some (wd', r)
           ∧ Watch.fs wd' !! "/etc/app/b.txt" = Some (Sample.file "keep").
Proof.
  intros w wd.
  destruct (Watch.maybeUpdateFile Sample.calm 8 w "/etc/app/sub/a.txt" "hello" wd)
    as [[wd' r]|] eqn:Hm; [|by vm_compute in Hm].
  exists wd', r. split; [done|].
  by apply (materialize_keeps_other_entries Sample.calm 8 w "/etc/app/sub/a.txt"
              "hello" wd wd' r "/etc/app/b.txt" (Sample.file "keep") Hm).
Defined.

Section RunFacts.
Import Watch.
Context `{Libs} (o : os).

Lemma responses_keep_files fuel w (ch : list WatchResponse) wd wd' q c p u g :
  foldl (λ acc resp, acc ≫= handle_response o fuel w resp) (Some wd) ch = Some wd' →
  (∀ resp ev key, resp ∈ ch → ev ∈ Events resp →
     keyRelPath (prefix w) (Key ev) = Some key → Join [root w; key] ≠ q) →
  fs wd !! q = Some (File c p u g) → fs wd' !! q = Some (File c p u g).
Proof.
  revert wd. induction ch as [|resp ch IH]; intros wd; simpl.
  { by intros ?; simplify_eq. }
  destruct (handle_response o fuel w resp wd) as [wd1|] eqn:Hr.
  2:{ intros Hf. exfalso. clear -Hf. induction ch as [|? ? IHch]; [done|by apply IHch]. }
  intros Hf Hne Hq. eapply IH; [exact Hf| |].
  - intros resp' ev key Hin. apply Hne. by right.
  - eapply handle_response_keeps_files; [exact Hr| |done].
    intros ev key. apply Hne. by left.
Qed.

End RunFacts.

(** X5.  Through the initial sync and any sequence of watch responses,
    a regular file that no stored key and no event resolves to is never
    changed, replaced or removed: the watcher writes and unlinks only the
    paths its keys resolve to, and the pruning after a delete removes
    directories only. *)
Theorem watcher_keeps_unnamed_files `{Libs} (o : Watch.os) (fuel : nat)
    (w : Watch.watcher) (c : gmap string string) (ch : list Watch.WatchResponse)
    (wd wd' : Watch.world) (q content : string) (perm uid gid : Z) :
  Watch.run o fuel w c ch wd = Some wd' →
  (∀ k v key, (k, v) ∈ get_prefix c (Watch.prefix w) →
     Watch.keyRelPath (Watch.prefix w) k = Some key →
     Join [Watch.root w; key] ≠ q) →
  (∀ resp ev key, resp ∈ ch → ev ∈ Watch.Events resp →
     Watch.keyRelPath (Watch.prefix w) (Watch.Key ev) = Some key →
     Join [Watch.root w; key] ≠ q) →
  Watch.fs wd !! q = Some (Watch.File content perm uid gid) →
  Watch.fs wd' !! q = Some (Watch.File content perm uid gid).
Proof.
  unfold Watch.run, Watch.initialSync.
  destruct (Watch.initialSync_kvs _ _ _ _ _ _) as [[wd1 cnt]|] eqn:Hs; [|done].
  intros Hch Hkeys Hevs Hq.
  eapply responses_keep_files; [exact Hch|exact Hevs|].
  eapply initialSync_kvs_keeps in Hs; [|exact Hkeys|exact Hq].
  by destruct (bool_decide _).
Qed.

Lemma watcher_keeps_unnamed_files_witness :
  let w := Sample.watcher_at "/etc/app" in
  let wd := {| Watch.fs := <["/etc/app/local.conf" := Sample.file "mine"]>
                             (<["/etc/app/old/c.txt" := Sample.file "bye"]>
                                (Sample.dirs ["/etc"; "/etc/app"; "/etc/app/old"]));
               Watch.trace := [] |} in
  let c : gmap string string := {[ "/svc/app/a.txt" := "sz:hello" ]} in
  let ch := [{| Watch.Canceled := false;
                Watch.Events := [Sample.del "/svc/app/old/c.txt";
                                 Sample.put "/svc/app/b.txt" "world"] |}] in
  ∃ wd', Watch.run (H := Sample.libs) Sample.calm 8 w c ch wd = Some wd'
         ∧ Watch.fs wd' !! "/etc/app/local.conf" = Some (Sample.file "mine").
Proof.
  intros w wd c ch.
  destruct (Watch.run (H := Sample.libs) Sample.calm 8 w c ch wd) as [wd'|] eqn:Hrun;
    [|by vm_compute in Hrun].
  exists wd'. split; [done|].
  apply (watcher_keeps_unnamed_files (H := Sample.libs) Sample.calm 8 w c ch wd wd'
           "/etc/app/local.conf" "mine" 420 0 0 Hrun).
  - intros k v key Hin Hkey Heq.
    assert ((k, v) = ("/svc/app/a.txt", "sz:hello")) as [= -> ->].
    { revert Hin. unfold get_prefix, c. rewrite map_to_list_singleton.
      rewrite list_elem_of_filter. by intros [_ ?%list_elem_of_singleton]. }
    vm_compute in Hkey. injection Hkey as <-. vm_compute in Heq. discriminate Heq.
  - intros resp ev key ->%list_elem_of_singleton Hev Hkey Heq. simpl in Hev.
    apply elem_of_cons in Hev as [-> | ->%list_elem_of_singleton];
      vm_compute in Hkey; injection Hkey as <-; vm_compute in Heq; discriminate Heq.
  - done.
Defined.

(** X6.  A watch response that holds delete events only never runs the
    reload command, whatever it removes: only a put event that replaces
    a file counts towards the reload. *)
Theorem deletes_never_reload `{Libs} (o : Watch.os) (fuel : nat) (w : Watch.watcher)
    (resp : Watch.WatchResponse) (wd wd' : Watch.world) :
  Forall (λ ev, Watch.Type_ ev = Watch.EventTypeDelete) (Watch.Events resp) →
  Watch.handle_response o fuel w resp wd = Some wd' →
  ∃ evs, Watch.trace wd' = Watch.trace wd ++ evs ∧ Watch.count Watch.is_exec evs = 0.
Proof.
  intros Hdel. unfold Watch.handle_response.
  destruct (Watch.handle_events _ _ _ _ _ _) as [[wd1 cnt]|] eqn:Hevs; [|done].
  intros ?; simplify_eq.
  pose proof (handle_events_delete_count _ _ _ _ _ _ _ _ Hevs Hdel) as ->.
  apply handle_events_spec in Hevs as (evs & Htr & Hex & _).
  rewrite bool_decide_eq_false_2 by lia.
  destruct (Watch.Canceled resp); simpl in Htr.
  - exists (Watch.Stderr "watch was canceled" :: evs).
    split; [by rewrite Htr, <-app_assoc|]. by rewrite count_cons.
  - by exists evs.
Qed.

Lemma deletes_never_reload_witness :
  let w := Sample.watcher_at "/etc/app" in
  let wd := {| Watch.fs := <["/etc/app/old/c.txt" := Sample.file "bye"]>
                             (Sample.dirs ["/etc"; "/etc/app"; "/etc/app/old"]);
               Watch.trace := [] |} in
  let resp := {| Watch.Canceled := false;
                 Watch.Events := [Sample.del "/svc/app/old/c.txt"] |} in
  ∃ wd', Watch.handle_response (H := Sample.libs) Sample.calm 8 w resp wd = Some wd'
         ∧ Watch.fs wd' !! "/etc/app/old/c.txt" = None
         ∧ Watch.count Watch.is_exec (Watch.trace wd') = 0.
Proof.
  intros w wd resp.
  destruct (Watch.handle_response (H := Sample.libs) Sample.calm 8 w resp wd)
    as [wd'|] eqn:Hr; [|by vm_compute in Hr].
  assert (Forall (λ ev, Watch.Type_ ev = Watch.EventTypeDelete) (Watch.Events resp))
    as Hdel by (by repeat constructor).
  destruct (deletes_never_reload (H := Sample.libs) Sample.calm 8 w resp wd wd' Hdel Hr)
    as (evs & Htr & Hex).
  exists wd'. split_and!; [done| |].
  - pose proof Hr as Hv. vm_compute in Hv. injection Hv as <-. by vm_compute.
  - simpl in Htr. by rewrite Htr.
Defined.

(** X7.  The initial sync always ends: it walks the keys read under the
    prefix and has no loop that depends on the root.  It never runs the
    reload command while it materializes, and [run] runs it once after
    it exactly when a file was replaced. *)
Theorem initial_sync_ends_and_reloads_once `{Libs} (o : Watch.os) (w : Watch.watcher)
    (c : gmap string string) (wd : Watch.world) :
  ∃ fuel0, ∀ fuel, fuel0 ≤ fuel →
    ∃ wd' evs,
      Watch.run o fuel w c [] wd = Some wd'
      ∧ Watch.count Watch.is_exec evs = 0
      ∧ Watch.trace wd'
        = Watch.trace wd ++ evs
          ++ (if bool_decide (0 < Watch.count Watch.is_rename evs)
              then [Watch.Exec (Watch.cmd w) (Watch.args w) (Watch.root w)]
              else []).
Proof.
  destruct (initialSync_kvs_fuel w (get_prefix c (Watch.prefix w))) as [fuel0 Hfuel].
  exists fuel0. intros fuel Hle. unfold Watch.run, Watch.initialSync.
  destruct (initialSync_kvs_total o fuel w (get_prefix c (Watch.prefix w)) 0 wd)
    as [[wd1 cnt] Hs].
  { intros k v key Hin Hkey. etrans; [by eapply Hfuel|done]. }
  rewrite Hs. simpl.
  apply initialSync_kvs_spec in Hs as (evs & Htr & Hex & ->). simpl.
  eexists _, evs. split; [done|]. split; [done|].
  case_bool_decide; simpl; rewrite Htr; [by rewrite <-app_assoc|by rewrite app_nil_r].
Qed.

(** * From a pushed file to its key and back *)

Section RelFacts.

Lemma cut_no_slash e : no_slash e = true → cut e = (e, "").
Proof.
  induction e as [|c e IH]; simpl; [done|].
  intros [Hc He]%andb_prop. apply negb_true_iff in Hc. rewrite Hc.
  by rewrite IH.
Qed.

Lemma cut_sep e r : no_slash e = true → cut (e +:+ "/" +:+ r) = (e, r).
Proof.
  induction e as [|c e IH]; simpl; [done|].
  intros [Hc He]%andb_prop. apply negb_true_iff in Hc. rewrite Hc.
  by rewrite IH.
Qed.

Lemma cut_join e es :
  no_slash e = true → cut (join_slash (e :: es)) = (e, join_slash es).
Proof.
  intros He. destruct es as [|e' es]; [by apply cut_no_slash|].
  change (join_slash (e :: e' :: es)) with (e +:+ "/" +:+ join_slash (e' :: es)).
  by apply cut_sep.
Qed.

Lemma join_slash_nonempty e es : e ≠ "" → join_slash (e :: es) ≠ "".
Proof. destruct e; [done|]. intros _. by rewrite join_slash_cons_char. Qed.

Lemma rel_loop_extension n es names :
  Forall (λ e, e ≠ "" ∧ no_slash e = true) es →
  Forall (λ e, e ≠ "" ∧ no_slash e = true) names →
  rel_loop n (join_slash es) (join_slash (es ++ names))
  = if decide (length es ≤ n) then ("", join_slash names, "")
    else (join_slash (drop n es), join_slash (drop n es ++ names), "").
Proof.
  intros Hes Hn. revert n. induction Hes as [|e es [He Hns] Hes IH]; intros n.
  { rewrite (decide_True (P := length [] ≤ n)) by (simpl; lia). by destruct n. }
  destruct n as [|n];
    [cbn [rel_loop]; by rewrite (decide_False (P := length (e :: es) ≤ 0)) by (simpl; lia)|].
  cbn [rel_loop]. rewrite decide_False by by apply join_slash_nonempty.
  rewrite decide_False by by apply (join_slash_nonempty e (es ++ names)).
  rewrite cut_join by done.
  change ((e :: es) ++ names) with (e :: (es ++ names)). rewrite cut_join by done.
  rewrite decide_True by done. rewrite IH.
  destruct (decide (length es ≤ n)).
  - by rewrite (decide_True (P := length (e :: es) ≤ S n)) by (simpl; lia).
  - by rewrite (decide_False (P := length (e :: es) ≤ S n)) by (simpl; lia).
Qed.

Lemma string_length_app a b :
  String.length (a +:+ b) = String.length a + String.length b.
Proof. induction a as [|c a IH]; simpl; [done|]. by rewrite IH. Qed.

Lemma length_join_slash es :
  Forall (λ e, e ≠ "") es → length es ≤ String.length (join_slash es) + 0.
Proof.
  induction 1 as [|e es He Hes IH]; [done|].
  destruct es as [|e' es]; [destruct e; [done|simpl; lia]|].
  change (join_slash (e :: e' :: es)) with (e +:+ "/" +:+ join_slash (e' :: es)).
  rewrite !string_length_app. simpl in *. destruct e; [done|]. simpl. lia.
Qed.

Lemma valid_elems rt es :
  valid rt es → Forall (λ e, e ≠ "" ∧ no_slash e = true) es.
Proof.
  intros Hv. apply vstk_elems, Forall_rev in Hv. rewrite rev_involutive in Hv.
  eapply Forall_impl; [exact Hv|]. by intros ? (?&?&?).
Qed.

Lemma normal_elems names :
  Forall normal names → Forall (λ e, e ≠ "" ∧ no_slash e = true) names.
Proof. intros Hn. eapply Forall_impl; [exact Hn|]. by intros ? (?&?&?&?). Qed.

Lemma rel_loop_join es names :
  Forall (λ e, e ≠ "" ∧ no_slash e = true) es →
  Forall (λ e, e ≠ "" ∧ no_slash e = true) names →
  rel_loop (String.length (join_slash es)) (join_slash es) (join_slash (es ++ names))
  = ("", join_slash names, "").
Proof.
  intros Hes Hns. rewrite rel_loop_extension by done.
  rewrite decide_True; [done|].
  pose proof (length_join_slash es) as Hlen. etrans; [apply Hlen|lia].
  eapply Forall_impl; [exact Hes|]. by intros ? [? ?].
Qed.

Lemma rel_loop_rooted a b :
  rel_loop (String.length ("/" +:+ a)) ("/" +:+ a) ("/" +:+ b)
  = rel_loop (String.length a) a b.
Proof. done. Qed.

(** The relative path from a clean path to a path some names below it
    is those names. *)
Lemma Rel_render_app rt es names :
  valid rt es → Forall normal names → names ≠ [] →
  Rel (render rt es) (render rt (es ++ names)) = Some (join_slash names).
Proof.
  intros Hv Hn Hne.
  pose proof (valid_app_names _ _ _ Hv Hn) as Hv2.
  pose proof (valid_elems _ _ Hv) as Hes. pose proof (normal_elems _ Hn) as Hns.
  unfold Rel. rewrite !Clean_render by done.
  rewrite decide_False.
  2:{ intros Heq%render_inj; [|done..]. apply (f_equal length) in Heq.
      rewrite length_app in Heq. destruct names; [done|simpl in Heq; lia]. }
  destruct rt.
  - assert (render true es ≠ ".") as Hnd by done.
    destruct (decide (render true es = ".")) as [|_]; [done|].
    rewrite !rooted_render by done. cbn [eqb negb].
    unfold render. rewrite rel_loop_rooted.
    rewrite rel_loop_join by done. by rewrite decide_False, decide_True by done.
  - rewrite !rooted_render by done. cbn [eqb negb].
    destruct es as [|e es].
    + cbn [render]. rewrite decide_True by done. cbn [String.length rel_loop app].
      destruct names as [|e names]; [done|].
      by rewrite decide_False, decide_True by done.
    + assert (render false (e :: es) = join_slash (e :: es)) as -> by done.
      assert (render false ((e :: es) ++ names) = join_slash ((e :: es) ++ names))
        as -> by done.
      destruct (decide (join_slash (e :: es) = ".")) as [Heq|_].
      { apply Forall_cons in Hes as [[? ?] _].
        destruct e as [|c e]; [done|].
        rewrite join_slash_cons_char in Heq. injection Heq as -> Heq.
        destruct e; [|by destruct es]. destruct es; [|done].
        apply vstk_elems in Hv. simpl in Hv. inversion Hv as [|? ? (_&Hdot&_) _]. by destruct Hdot. }
      pose proof Hes as Hes'. apply Forall_cons in Hes' as [[? ?] _].
      rewrite (rooted_join e es) by done. cbn [eqb negb].
      rewrite rel_loop_join by done. by rewrite decide_False, decide_True by done.
Qed.

End RelFacts.

Section RoundTrip.

Lemma HasPrefix_dotdot_join names :
  Forall normal names → HasPrefix (join_slash names) "../" = false.
Proof.
  intros Hn. destruct Hn as [|e names (Hne & Hd & Hdd & Hns) _]; [done|].
  unfold HasPrefix.
  destruct e as [|c1 e]; [done|]. rewrite join_slash_cons_char. cbn [String.prefix].
  destruct (ascii_dec "." c1) as [<-|]; [|done].
  destruct e as [|c2 e]; [by destruct names|].
  rewrite join_slash_cons_char. cbn [String.prefix].
  destruct (ascii_dec "." c2) as [<-|]; [|done].
  destruct e as [|c3 e]; [done|].
  rewrite join_slash_cons_char. cbn [String.prefix].
  destruct (ascii_dec "/" c3) as [<-|]; [|done].
  by simpl in Hns.
Qed.

Lemma filter_nonempty_id (es : list string) :
  Forall (λ e, e ≠ "") es → filter (λ e, e ≠ "") es = es.
Proof.
  induction 1 as [|e es He _ IH]; [done|].
  by rewrite filter_cons_True, IH.
Qed.

Lemma Base_join names :
  Forall (λ e, e ≠ "" ∧ no_slash e = true) names → names ≠ [] →
  Some (Base (join_slash names)) = last names.
Proof.
  intros Hn Hne. unfold Base.
  assert (join_slash names ≠ "") as Hj.
  { destruct Hn as [|e names [? ?] _]; [done|]. by apply join_slash_nonempty. }
  rewrite decide_False by done.
  rewrite split_join; [|done|by eapply Forall_impl; [exact Hn|]; intros ? [? ?]].
  rewrite filter_nonempty_id by (by eapply Forall_impl; [exact Hn|]; intros ? [? ?]).
  destruct names as [|e names _] using rev_ind; [done|].
  by rewrite rev_unit, last_snoc.
Qed.

Lemma keyRelPath_Join prefix names :
  Clean prefix = prefix → Forall normal names → names ≠ [] →
  last names ≠ Some ".hash" →
  Join [prefix; join_slash names] ≠ prefix
  ∧ Watch.keyRelPath prefix (Join [prefix; join_slash names]) = Some (join_slash names).
Proof.
  intros Hc Hn Hne Hlast.
  destruct (Clean_is_render prefix) as (es & Hv & Hr & _). rewrite Hc in Hr.
  rewrite Hr. rewrite Join_render by done.
  pose proof (valid_app_names _ _ _ Hv Hn) as Hv2.
  assert (render (rooted prefix) (es ++ names) ≠ render (rooted prefix) es) as Hkey.
  { intros Heq%render_inj; [|done..]. apply (f_equal length) in Heq.
    rewrite length_app in Heq. destruct names; [done|simpl in Heq; lia]. }
  split; [done|]. unfold Watch.keyRelPath.
  rewrite bool_decide_eq_false_2 by done.
  rewrite Rel_render_app, HasPrefix_dotdot_join by done. simpl.
  rewrite bool_decide_eq_false_2; [done|].
  intros Hb. apply Hlast. rewrite <-Base_join, Hb; [done| |done].
  by apply normal_elems.
Qed.

Lemma Rel_Join root names :
  Clean root = root → Forall normal names → names ≠ [] →
  Rel root (Join [root; join_slash names]) = Some (join_slash names).
Proof.
  intros Hc Hn Hne.
  destruct (Clean_is_render root) as (es & Hv & Hr & _). rewrite Hc in Hr.
  rewrite Hr. rewrite Join_render by done. by apply Rel_render_app.
Qed.

End RoundTrip.


(** X8.  Push stores the file at [root/rel] under the key [prefix/rel];
    a watcher with the same prefix resolves that key back to [rel], and a
    put event that carries the file's compressed bytes and is
    materialized with success leaves the file's raw bytes at [rel] below
    the watcher's root.  Here the prefix and the push root are cleaned
    paths, [rel] is made of one or more names, the last of them not
    ".hash", and the decompressor undoes the compressor. *)
Theorem push_key_resolves_back `{Libs} (prefix root : string) (names : list string) :
  Clean prefix = prefix → Clean root = root →
  Forall normal names → names ≠ [] → last names ≠ Some ".hash" →
  let rel := join_slash names in
  let key := Join [prefix; default "" (Rel root (Join [root; rel]))] in
  key = Join [prefix; rel]
  ∧ Watch.keyRelPath prefix key = Some rel
  ∧ ∀ (o : Watch.os) (fuel : nat) (w : Watch.watcher) (content : string) (cnt : nat)
      (wd wd' : Watch.world),
      Watch.prefix w = prefix →
      snappy_decode (snappy_encode content) = Some content →
      Watch.handle_event o fuel w
        {| Watch.Type_ := Watch.EventTypePut; Watch.Key := key;
           Watch.Value := snappy_encode content |} cnt wd = Some (wd', S cnt) →
      ∃ uid gid, Watch.fs wd' !! Join [Watch.root w; rel]
                 = Some (Watch.File content (Watch.rootMask w) uid gid).
Proof.
  intros Hp Hr Hn Hne Hlast rel key.
  assert (key = Join [prefix; rel]) as Hkey.
  { unfold key, rel. by rewrite Rel_Join. }
  destruct (keyRelPath_Join prefix names Hp Hn Hne Hlast) as [_ Hres].
  split; [done|]. split; [by rewrite Hkey|]. fold rel in Hres.
  intros o fuel w content cnt wd wd' Hw Hrt. unfold Watch.handle_event.
  cbn [Watch.Key Watch.Type_ Watch.Value]. rewrite Hw, Hkey, Hres.
  destruct (Watch.update _ _ _ _ _ _ _) as [[wd1 [|]]|] eqn:Hu; [|intros [= _ ?]; lia|done].
  intros ?; simplify_eq.
  apply update_ok in Hu as (data & uid & gid & Hd & Hfile).
  rewrite Hrt in Hd. simplify_eq. eauto.
Qed.

Lemma push_key_resolves_back_witness :
  Join ["/svc/app"; default "" (Rel "/work" (Join ["/work"; "sub/b.txt"]))]
  = "/svc/app/sub/b.txt"
  ∧ Watch.keyRelPath "/svc/app" "/svc/app/sub/b.txt" = Some "sub/b.txt".
Proof.
  assert (Forall normal ["sub"; "b.txt"]) as Hn by (by repeat constructor).
  destruct (push_key_resolves_back (H := Sample.libs) "/svc/app" "/work" ["sub"; "b.txt"]
              eq_refl eq_refl Hn ltac:(done) ltac:(done)) as (Hkey & Hres & _).
  split; [exact Hkey|]. etrans; [|exact Hres]. by rewrite Hkey.
Defined.

(** * What a push reports *)

Section PushFacts.
Import Put.
Context `{Libs}.

(** A description and the sub-transaction it stands for. *)
Lemma visit_pairs e prefix root p info st :
  Forall2 (λ o d, isDel d = false
                  ∧ ∃ data digest,
                      o = put_txn (path d) (Join [path d; ".hash"]) data digest)
          (ops st) (opsDesc st) →
  Forall2 (λ o d, isDel d = false
                  ∧ ∃ data digest,
                      o = put_txn (path d) (Join [path d; ".hash"]) data digest)
          (ops (visit e prefix root p info st).1)
          (opsDesc (visit e prefix root p info st).1).
Proof.
  intros Hst. unfold visit. destruct (IsDir info).
  { case_bool_decide; [done|]. by destruct (Match _ _ _). }
  destruct (_ || _); [done|].
  destruct (getFile info) as [[data digest]|]; [|done]. simpl.
  apply Forall2_app; [done|]. repeat constructor. simpl. eauto.
Qed.

Lemma walked_pairs e c prefix root0 root st :
  walked e c prefix root0 = inr (root, st) →
  Forall2 (λ o d, isDel d = false
                  ∧ ∃ data digest,
                      o = put_txn (path d) (Join [path d; ".hash"]) data digest)
          (ops st) (opsDesc st).
Proof.
  unfold walked. destruct (resolve_root e root0) as [[root' gi0]|]; [|done].
  set (st0 := {| tree := _ |}).
  pose proof (Walk_preserves _ e prefix root' st0 (visit_pairs e prefix root')) as Hinv.
  destruct (Walk e prefix root' st0) as [st' err]. simpl in Hinv.
  specialize (Hinv ltac:(constructor)). destruct err; naive_solver.
Qed.

Lemma transaction_pairs e c prefix root0 root st :
  walked e c prefix root0 = inr (root, st) →
  Forall2 pair_ok (transaction prefix root st).1 (transaction prefix root st).2.
Proof.
  intros Hw%walked_pairs. unfold transaction. simpl. apply Forall2_app.
  - eapply Forall2_impl; [exact Hw|]. intros o d ?. by left.
  - apply Forall2_fmap, Forall_Forall2_diag, Forall_forall. intros k _. by right.
Qed.

Lemma put_txn_changes view key hashKey data digest (s : gmap string string) q :
  apply_op view (put_txn key hashKey data digest) s !! q ≠ s !! q →
  (q = key ∨ q = hashKey)
  ∧ response view (put_txn key hashKey data digest) = Some false.
Proof.
  unfold put_txn. cbn [apply_op response].
  destruct (cmps_hold view _); cbn [fold_left apply_op]; [done|].
  intros Hne. split; [|done].
  destruct (decide (q = hashKey)) as [|Hh]; [by right|].
  destruct (decide (q = key)) as [|Hk]; [by left|].
  by rewrite !lookup_insert_ne in Hne.
Qed.

Lemma del_txn_changes view key (s : gmap string string) q :
  apply_op view (del_txn key) s !! q ≠ s !! q →
  q = key ∨ q = Join [key; ".hash"].
Proof.
  unfold del_txn. cbn [apply_op cmps_hold forallb fold_left].
  intros Hne.
  destruct (decide (q = Join [key; ".hash"])) as [|Hh]; [by right|].
  destruct (decide (q = key)) as [|Hk]; [by left|].
  by rewrite !lookup_delete_ne in Hne.
Qed.

(** Every key a transaction changes is named by a line of the report. *)
Lemma changes_are_reported view os ds (s : gmap string string) q :
  Forall2 pair_ok os ds →
  fold_left (λ s o, apply_op view o s) os s !! q ≠ s !! q →
  ∃ k, (q = k ∨ q = Join [k; ".hash"])
       ∧ ("updated " +:+ k ∈ concat (zip_with report ds (map (response view) os))
          ∨ "removed " +:+ k ∈ concat (zip_with report ds (map (response view) os))).
Proof.
  intros Hp. revert s. induction Hp as [|o d os ds Hod _ IH]; intros s; [done|].
  cbn [fold_left map zip_with concat]. intros Hne.
  destruct (decide (fold_left (λ s o, apply_op view o s) os (apply_op view o s) !! q
                    = apply_op view o s !! q)) as [Heq|Hlater].
  - rewrite Heq in Hne. clear IH Heq.
    destruct Hod as [[Hd (data & digest & ->)]|[Hd ->]].
    + apply put_txn_changes in Hne as [Hq Hr]. exists (path d). split; [done|].
      left. apply elem_of_app. left. unfold report. rewrite Hr, Hd. by left.
    + apply del_txn_changes in Hne. exists (path d). split; [done|].
      right. apply elem_of_app. left. unfold report, del_txn.
      cbn [response cmps_hold forallb]. rewrite Hd. by left.
  - destruct (IH _ Hlater) as (k & Hq & Hline). exists k. split; [done|].
    destruct Hline; [left|right]; apply elem_of_app; by right.
Qed.

Lemma removed_line_inj k k' : "removed " +:+ k = "removed " +:+ k' → k = k'.
Proof. by intros [=]. Qed.

(** The lines that say "removed" name the deletions, all of them. *)
Lemma removed_lines view os ds k :
  Forall2 pair_ok os ds →
  "removed " +:+ k ∈ concat (zip_with report ds (map (response view) os))
  ↔ ∃ d, d ∈ ds ∧ isDel d = true ∧ path d = k.
Proof.
  intros Hp. induction Hp as [|o d os ds Hod _ IH].
  { split; [by intros ?%elem_of_nil|by intros (? & ?%elem_of_nil & _)]. }
  cbn [map zip_with concat]. rewrite elem_of_app, IH. split.
  - intros [Hhere|(d' & ? & ? & ?)]; [|exists d'; split; [by right|done]].
    exists d. split; [by left|].
    destruct Hod as [[Hd (data & digest & ->)]|[Hd ->]];
      unfold report, put_txn, del_txn in Hhere; cbn [response] in Hhere;
      rewrite Hd in Hhere.
    + destruct (cmps_hold _ _); [by apply elem_of_nil in Hhere|].
      by apply list_elem_of_singleton in Hhere.
    + by apply list_elem_of_singleton, removed_line_inj in Hhere.
  - intros (d' & [->|Hin]%elem_of_cons & Hd & Hk); [|right; eauto].
    left. destruct Hod as [[Hd' _]|[_ ->]]; [congruence|].
    unfold report, del_txn. cbn [response cmps_hold forallb]. rewrite Hd, Hk. by left.
Qed.

Lemma deletes_keep_None view dels (s : gmap string string) q :
  s !! q = None →
  fold_left (λ s o, apply_op view o s) (map del_txn dels) s !! q = None.
Proof.
  revert s. induction dels as [|d dels IH]; intros s Hq; [done|].
  cbn [map fold_left]. apply IH. unfold del_txn.
  cbn [apply_op cmps_hold forallb fold_left].
  destruct (decide (q = Join [d; ".hash"])) as [->|]; [by rewrite lookup_delete_eq|].
  rewrite lookup_delete_ne by done.
  destruct (decide (q = d)) as [->|]; [by rewrite lookup_delete_eq|].
  by rewrite lookup_delete_ne.
Qed.

Lemma deletes_remove view dels (s : gmap string string) d :
  d ∈ dels →
  fold_left (λ s o, apply_op view o s) (map del_txn dels) s !! d = None
  ∧ fold_left (λ s o, apply_op view o s) (map del_txn dels) s !! Join [d; ".hash"]
    = None.
Proof.
  revert s. induction dels as [|d' dels IH]; intros s; [by intros ?%elem_of_nil|].
  intros [->|Hin]%elem_of_cons; [|by apply IH].
  cbn [map fold_left]. unfold del_txn at 2 4.
  cbn [apply_op cmps_hold forallb fold_left].
  split; apply deletes_keep_None.
  - destruct (decide (d' = Join [d'; ".hash"])) as [Heq|];
      [rewrite <-Heq; by rewrite lookup_delete_eq|].
    by rewrite lookup_delete_ne, lookup_delete_eq.
  - by rewrite lookup_delete_eq.
Qed.

End PushFacts.

(** X9.  Whatever a push changes in the store it reports: a key whose
    value after the run differs from its value before is the key, or the
    ".hash" companion, named by an "updated" or a "removed" line of the
    output. *)
Theorem push_reports_every_change `{Libs} (e : Put.env) (c c' : gmap string string)
    (prefix root0 : string) (stdout : list string) (q : string) :
  Put.updateTreeRecursively e c prefix root0 = Put.Pushed c' stdout →
  c' !! q ≠ c !! q →
  ∃ k, (q = k ∨ q = Join [k; ".hash"])
       ∧ ("updated " +:+ k ∈ stdout ∨ "removed " +:+ k ∈ stdout).
Proof.
  unfold Put.updateTreeRecursively.
  destruct (Put.walked e c prefix root0) as [msg|[root st]] eqn:Hw; [done|].
  pose proof (transaction_pairs _ _ _ _ _ _ Hw) as Hp.
  destruct (Put.transaction prefix root st) as [os ds]. simpl in Hp.
  unfold commit. intros ?; simplify_eq. by apply changes_are_reported.
Qed.

Lemma push_reports_every_change_witness :
  let c : gmap string string := {[ "/svc/app/gone.txt" := "sz:old" ]} in
  ∃ c' stdout,
    Put.updateTreeRecursively (H := Sample.libs) Sample.work_env c "/svc/app" ""
    = Put.Pushed c' stdout
    ∧ c' !! "/svc/app/a.txt" ≠ c !! "/svc/app/a.txt"
    ∧ ∃ k, ("/svc/app/a.txt" = k ∨ "/svc/app/a.txt" = Join [k; ".hash"])
           ∧ ("updated " +:+ k ∈ stdout ∨ "removed " +:+ k ∈ stdout).
Proof.
  intros c.
  destruct (Put.updateTreeRecursively (H := Sample.libs) Sample.work_env c "/svc/app" "")
    as [msg|c' stdout] eqn:Hrun; [by vm_compute in Hrun|].
  assert (c' !! "/svc/app/a.txt" ≠ c !! "/svc/app/a.txt") as Hnew.
  { pose proof Hrun as Hv. vm_compute in Hv. injection Hv as <- _. by vm_compute. }
  exists c', stdout. split_and!; [done..|].
  exact (push_reports_every_change (H := Sample.libs) Sample.work_env c c'
           "/svc/app" "" stdout "/svc/app/a.txt" Hrun Hnew).
Defined.

(** X10.  A key that a push reports as removed was listed under the prefix
    before the run and is not a ".hash" companion; after the run neither
    the key nor its companion is in the store, whatever else the same
    transaction wrote. *)
Theorem removed_keys_are_gone `{Libs} (e : Put.env) (c c' : gmap string string)
    (prefix root0 : string) (stdout : list string) (k : string) :
  Put.updateTreeRecursively e c prefix root0 = Put.Pushed c' stdout →
  "removed " +:+ k ∈ stdout →
  k ∈ get_prefix_keys c (Join [prefix; "/"])
  ∧ Base k ≠ ".hash"
  ∧ c' !! k = None
  ∧ c' !! Join [k; ".hash"] = None.
Proof.
  unfold Put.updateTreeRecursively.
  destruct (Put.walked e c prefix root0) as [msg|[root st]] eqn:Hw; [done|].
  pose proof (transaction_pairs _ _ _ _ _ _ Hw) as Hp.
  pose proof (walked_pairs _ _ _ _ _ _ Hw) as Hputs.
  pose proof (walked_inv _ _ _ _ _ _ Hw) as (Hsub & _ & _).
  unfold Put.transaction in *. simpl in Hp. unfold commit.
  intros ?; simplify_eq. intros Hline.
  apply (removed_lines c _ _ k Hp) in Hline as (d & Hd & Hdel & <-).
  apply elem_of_app in Hd as [Hd|Hd].
  { apply list_elem_of_lookup in Hd as [i Hi].
    destruct (Forall2_lookup_r _ _ _ _ _ Hputs Hi) as (o & _ & Hf & _). congruence. }
  apply list_elem_of_fmap in Hd as (key & -> & Hkey). simpl.
  pose proof Hkey as Hkey'. apply elem_of_deletions in Hkey' as [Htree _].
  apply Hsub, elem_of_initial_tree in Htree as [? ?].
  split_and!; [done..| |]; rewrite fold_left_app; by apply deletes_remove.
Qed.

Lemma removed_keys_are_gone_witness :
  let c : gmap string string :=
    {[ "/svc/app/gone.txt" := "sz:old"; "/svc/app/gone.txt/.hash" := "sha:old" ]} in
  ∃ c' stdout,
    Put.updateTreeRecursively (H := Sample.libs) Sample.work_env c "/svc/app" ""
    = Put.Pushed c' stdout
    ∧ "removed /svc/app/gone.txt" ∈ stdout
    ∧ c' !! "/svc/app/gone.txt" = None
    ∧ c' !! "/svc/app/gone.txt/.hash" = None.
Proof.
  intros c.
  destruct (Put.updateTreeRecursively (H := Sample.libs) Sample.work_env c "/svc/app" "")
    as [msg|c' stdout] eqn:Hrun; [by vm_compute in Hrun|].
  assert ("removed /svc/app/gone.txt" ∈ stdout) as Hline.
  { pose proof Hrun as Hv. vm_compute in Hv. injection Hv as _ <-.
    apply list_elem_of_In. simpl. tauto. }
  destruct (removed_keys_are_gone (H := Sample.libs) Sample.work_env c c' "/svc/app" ""
              stdout "/svc/app/gone.txt" Hrun Hline) as (_ & _ & Hk & Hh).
  exists c', stdout. by split_and!.
Defined.

(** * The command line of watch *)

Section SplitFacts.

Lemma Split_lacks sep e : lacks sep e = true → Split e sep = [e].
Proof.
  induction e as [|c e IH]; simpl; [done|].
  intros [Hc He]%andb_prop. apply negb_true_iff in Hc. rewrite Hc. by rewrite IH.
Qed.

Lemma Split_nonnil s sep : Split s sep ≠ [].
Proof.
  destruct s as [|c s]; simpl; [done|].
  destruct (Ascii.eqb c sep); [done|]. by destruct (Split s sep).
Qed.

Lemma Split_app a b sep :
  Split (a +:+ String sep b) sep = Split a sep ++ Split b sep.
Proof.
  induction a as [|c a IH]; simpl.
  - by rewrite Ascii.eqb_refl.
  - destruct (Ascii.eqb c sep); [by rewrite IH|].
    rewrite IH. pose proof (Split_nonnil a sep). by destruct (Split a sep).
Qed.

(** The first field is the text before the first separator. *)
Lemma Split_first s sep a l :
  Split s sep = a :: l →
  lacks sep a = true ∧ (s = a ∨ ∃ rest, s = a +:+ String sep rest).
Proof.
  revert a l. induction s as [|c s IH]; simpl; intros a l.
  { intros [= <- <-]. split; [done|by left]. }
  destruct (Ascii.eqb c sep) eqn:Hc.
  - intros [= <- <-]. split; [done|]. right. exists s.
    apply Ascii.eqb_eq in Hc as ->. done.
  - destruct (Split s sep) as [|e es] eqn:Hs; [by destruct (Split_nonnil s sep)|].
    intros [= <- <-]. destruct (IH e es eq_refl) as [He Hrest].
    split; [simpl; by rewrite Hc, He|].
    destruct Hrest as [->|[rest ->]]; [by left|right; by exists rest].
Qed.

Lemma parse_digits_nonneg base s acc r :
  (0 ≤ base)%Z → (0 ≤ acc)%Z → parse_digits base s acc = Some r → (0 ≤ r)%Z.
Proof.
  intros Hb. revert acc. induction s as [|c s IH]; simpl; intros acc Hacc.
  { by intros [= <-]. }
  destruct (digit_val c) as [d|] eqn:Hd; [|done].
  case_bool_decide; [|done]. apply IH.
  assert (0 ≤ d)%Z; [|nia].
  unfold digit_val in Hd. repeat case_bool_decide; simplify_eq; lia.
Qed.

(** What [ParseInt] returns fits the bit size asked for. *)
Lemma ParseInt_range s base bitSize i :
  (0 ≤ base)%Z → (1 ≤ bitSize)%Z → ParseInt s base bitSize = Some i →
  (- 2 ^ (bitSize - 1) ≤ i < 2 ^ (bitSize - 1))%Z.
Proof.
  intros Hb Hbits. unfold ParseInt.
  destruct (match s with
            | String "+" r => (false, r)
            | String "-" r => (true, r)
            | _ => (false, s)
            end) as [neg digits].
  case_bool_decide; [done|].
  destruct (parse_digits base digits 0) as [un|] eqn:Hun; [|done].
  apply parse_digits_nonneg in Hun; [|done..].
  pose proof (Z.pow_pos_nonneg 2 (bitSize - 1)).
  destruct neg; simpl; repeat case_bool_decide; intros ?; simplify_eq; lia.
Qed.

End SplitFacts.

Section ParseRootFacts.
Import WatchCmd.
Context (db : accounts).

Lemma parse_ids_fields root uid gid umask r o g m :
  parse_ids root uid gid umask = inr (r, o, g, m) → r = root ∧ m = umask.
Proof.
  unfold parse_ids. repeat case_bool_decide;
    repeat (destruct (ParseInt _ _ _)); by intros ?; simplify_eq.
Qed.

Lemma parse_umask_range a3 m :
  parse_umask a3 = inr m → m = 420%Z ∨ (-128 ≤ m ≤ 127)%Z.
Proof.
  unfold parse_umask. case_bool_decide; [|intros [= <-]; by left].
  destruct (ParseInt a3 8 8) as [i|] eqn:Hi; [|done]. intros [= <-]. right.
  apply ParseInt_range in Hi; [|lia..]. simpl in Hi. lia.
Qed.

(** Where a successful [parseRoot] takes its results from. *)
Lemma parseRoot_fields arg r o g m :
  parseRoot db arg = inr (r, o, g, m) →
  ∃ a l, Split arg ":" = a :: l ∧ r = a
         ∧ (m = 420%Z ∨ (-128 ≤ m ≤ 127)%Z).
Proof.
  unfold parseRoot.
  destruct (Split arg ":") as [|a0 [|a1 [|a2 [|a3 [|? ?]]]]] eqn:Hs; [done| | | | |done].
  - intros [-> ->]%parse_ids_fields. exists a0, []. split_and!; [done..|by left].
  - destruct (parse_owner db a1 "") as [|[uid gid]]; [done|].
    intros [-> ->]%parse_ids_fields. exists a0, [a1]. split_and!; [done..|by left].
  - destruct (parse_group db a2) as [|gid0]; [done|].
    destruct (parse_owner db a1 gid0) as [|[uid gid]]; [done|].
    intros [-> ->]%parse_ids_fields. exists a0, [a1; a2]. split_and!; [done..|by left].
  - destruct (parse_umask a3) as [|umask] eqn:Hm; [done|].
    destruct (parse_group db a2) as [|gid0]; [done|].
    destruct (parse_owner db a1 gid0) as [|[uid gid]]; [done|].
    intros [-> ->]%parse_ids_fields. exists a0, [a1; a2; a3].
    split_and!; [done..|]. by apply parse_umask_range in Hm.
Qed.

End ParseRootFacts.

(** X16.  [parseRoot] hands the root on as it was typed: an argument
    without a colon is the root itself, with no owner, no group and mode
    0644, and in every successful parse the root is the text before the
    first colon, byte for byte; it is not cleaned, so a trailing slash
    stays. *)
Theorem parseRoot_keeps_root_as_typed (db : WatchCmd.accounts) :
  (∀ arg, lacks ":" arg = true →
     WatchCmd.parseRoot db arg = inr (arg, (-1)%Z, (-1)%Z, 420%Z))
  ∧ (∀ arg root owner group umask,
       WatchCmd.parseRoot db arg = inr (root, owner, group, umask) →
       lacks ":" root = true
       ∧ (arg = root ∨ ∃ rest, arg = root +:+ ":" +:+ rest))
  ∧ WatchCmd.parseRoot db "/etc/app/" = inr ("/etc/app/", (-1)%Z, (-1)%Z, 420%Z).
Proof.
  assert (∀ arg, lacks ":" arg = true →
            WatchCmd.parseRoot db arg = inr (arg, (-1)%Z, (-1)%Z, 420%Z)) as Hplain.
  { intros arg Hl. unfold WatchCmd.parseRoot. by rewrite Split_lacks. }
  split_and!; [done| |by apply Hplain].
  intros arg root owner group umask (a & l & Hs & -> & _)%parseRoot_fields.
  by apply Split_first in Hs.
Qed.

(** X17.  The mode field is read as an octal number of 8 bits with a
    sign: a root that parses has the default mode 0644 or a mode between
    -128 and 127, that is, at most 0177.  A mode such as 644 or 600 is
    refused, whatever the other fields are. *)
Theorem parseRoot_mode_is_int8 (db : WatchCmd.accounts) :
  (∀ arg root owner group umask,
     WatchCmd.parseRoot db arg = inr (root, owner, group, umask) →
     umask = 420%Z ∨ (-128 ≤ umask ≤ 127)%Z)
  ∧ (∀ root owner group mode,
       lacks ":" root = true → lacks ":" owner = true → lacks ":" group = true →
       lacks ":" mode = true → mode ≠ "" → ParseInt mode 8 8 = None →
       WatchCmd.parseRoot db (root +:+ ":" +:+ owner +:+ ":" +:+ group +:+ ":" +:+ mode)
       = inl "invalid file umask")
  ∧ ParseInt "644" 8 8 = None ∧ ParseInt "600" 8 8 = None
  ∧ ParseInt "177" 8 8 = Some 127%Z.
Proof.
  split_and!; [| |done..].
  - intros arg root owner group umask (a & l & _ & _ & Hm)%parseRoot_fields. done.
  - intros root owner group mode Hr Ho Hg Hm Hne Hp. unfold WatchCmd.parseRoot.
    change (root +:+ ":" +:+ owner +:+ ":" +:+ group +:+ ":" +:+ mode)
      with (root +:+ String ":" (owner +:+ String ":" (group +:+ String ":" mode))).
    rewrite !Split_app, !Split_lacks by done. simpl.
    unfold WatchCmd.parse_umask. by rewrite bool_decide_eq_true_2, Hp.
Qed.

(** X18.  An owner given by name or by number is looked up as a user,
    and the owner id the watcher gets is that user's primary group id
    ([usr.Gid]), not the user id; with no group field the group is the
    same id. *)
Theorem parseRoot_owner_is_group_id (db : WatchCmd.accounts) (root name : string)
    (usr : WatchCmd.User) (id : Z) :
  lacks ":" root = true → lacks ":" name = true → name ≠ "" →
  (WatchCmd.Lookup db name = Some usr
   ∨ (WatchCmd.Lookup db name = None ∧ WatchCmd.LookupId db name = Some usr)) →
  ParseInt (WatchCmd.Gid usr) 10 64 = Some id →
  WatchCmd.parseRoot db (root +:+ ":" +:+ name) = inr (root, id, id, 420%Z).
Proof.
  intros Hr Hn Hne Hu Hid. unfold WatchCmd.parseRoot.
  change (root +:+ ":" +:+ name) with (root +:+ String ":" name).
  rewrite Split_app, !Split_lacks by done. simpl.
  assert (WatchCmd.Gid usr ≠ "") as Hg.
  { intros Hemp. by rewrite Hemp in Hid. }
  unfold WatchCmd.parse_owner. rewrite bool_decide_eq_true_2 by done.
  destruct Hu as [->|[-> ->]]; rewrite bool_decide_eq_true_2 by done;
    unfold WatchCmd.parse_ids; by rewrite !bool_decide_eq_true_2, Hid by done.
Qed.

Lemma parseRoot_owner_is_group_id_witness :
  WatchCmd.Lookup Host.db "www"
  = Some {| WatchCmd.Uid := "33"; WatchCmd.Gid := "34" |}
  ∧ WatchCmd.parseRoot Host.db "/etc/app:www" = inr ("/etc/app", 34%Z, 34%Z, 420%Z).
Proof.
  split; [done|].
  exact (parseRoot_owner_is_group_id Host.db "/etc/app" "www"
           {| WatchCmd.Uid := "33"; WatchCmd.Gid := "34" |} 34
           eq_refl eq_refl ltac:(done) (or_introl eq_refl) eq_refl).
Defined.

(** X19.  A group is accepted only when [LookupGroup] knows it by
    name: when that lookup fails the root is refused, also for a numeric
    group id that [LookupGroupId] would find, because the test after
    [LookupGroupId] is made on the error of the first lookup. *)
Theorem parseRoot_group_by_name_only (db : WatchCmd.accounts)
    (root owner group : string) :
  lacks ":" root = true → lacks ":" owner = true → lacks ":" group = true →
  group ≠ "" → WatchCmd.LookupGroup db group = None →
  WatchCmd.parseRoot db (root +:+ ":" +:+ owner +:+ ":" +:+ group)
  = inl ("no group " +:+ group +:+ " found").
Proof.
  intros Hr Ho Hg Hne Hl. unfold WatchCmd.parseRoot.
  change (root +:+ ":" +:+ owner +:+ ":" +:+ group)
    with (root +:+ String ":" (owner +:+ String ":" group)).
  rewrite !Split_app, !Split_lacks by done. simpl.
  unfold WatchCmd.parse_group. by rewrite bool_decide_eq_true_2, Hl by done.
Qed.

Lemma parseRoot_group_by_name_only_witness :
  WatchCmd.LookupGroupId Host.db "50" = Some {| WatchCmd.GroupGid := "50" |}
  ∧ WatchCmd.parseRoot Host.db "/etc/app:www:50" = inl "no group 50 found".
Proof.
  split; [done|].
  exact (parseRoot_group_by_name_only Host.db "/etc/app" "www" "50"
           eq_refl eq_refl eq_refl ltac:(done) eq_refl).
Defined.

Section DefinitionsFacts.
Import WatchCmd.
Context (db : accounts) (LookPath : string → option string).

Lemma cut_group_none l : "--" ∉ l → cut_group l = None.
Proof.
  induction l as [|a l IH]; [done|]. intros [Ha Hl]%not_elem_of_cons. simpl.
  rewrite bool_decide_eq_false_2 by done. by rewrite IH.
Qed.

Lemma cut_group_app l after : "--" ∉ l → cut_group (l ++ "--" :: after) = Some (l, after).
Proof.
  induction l as [|a l IH]; [done|]. intros [Ha Hl]%not_elem_of_cons. simpl.
  rewrite bool_decide_eq_false_2 by done. by rewrite IH.
Qed.

(** One definition followed by "--" and more words. *)
Lemma definitions_step n wp d w after acc :
  watcher_of db LookPath wp d = Some w → "--" ∉ def_args d →
  definitions db LookPath (S n) wp (words d ++ "--" :: after) acc
  = definitions db LookPath n wp after (acc ++ [w]).
Proof.
  unfold watcher_of, words. intros Hw Hsep. cbn [definitions app].
  destruct (LookPath (def_cmd d)) as [cmd|]; [|done].
  destruct (parseRoot db (def_root d)) as [|[[[root owner] group] umask]]; [done|].
  rewrite cut_group_app by done. by simplify_eq.
Qed.

Lemma definitions_last n wp d w acc :
  watcher_of db LookPath wp d = Some w → "--" ∉ def_args d →
  definitions db LookPath (S n) wp (words d) acc = Some (inr (acc ++ [w])).
Proof.
  unfold watcher_of, words. intros Hw Hsep. cbn [definitions].
  destruct (LookPath (def_cmd d)) as [cmd|]; [|done].
  destruct (parseRoot db (def_root d)) as [|[[[root owner] group] umask]]; [done|].
  rewrite cut_group_none by done. by simplify_eq.
Qed.

Lemma definitions_line n wp (ds : list definition) ws acc :
  Forall2 (λ d w, watcher_of db LookPath wp d = Some w) ds ws →
  Forall (λ d, "--" ∉ def_args d) ds → ds ≠ [] →
  definitions db LookPath (length ds + n) wp (command_line ds) acc
  = Some (inr (acc ++ ws)).
Proof.
  intros Hws. revert acc. induction Hws as [|d w ds ws Hw Hrest IH]; intros acc; [done|].
  intros [Hd Hds]%Forall_cons _. destruct Hrest as [|d' w' ds ws Hw' Hrest].
  { simpl. by apply definitions_last. }
  change (command_line (d :: d' :: ds))
    with (words d ++ "--" :: command_line (d' :: ds)).
  cbn [length Nat.add]. rewrite (definitions_step _ _ _ w) by done.
  rewrite IH by done. by rewrite <-app_assoc.
Qed.

Lemma definitions_line_more n wp (ds : list definition) ws tail acc :
  Forall2 (λ d w, watcher_of db LookPath wp d = Some w) ds ws →
  Forall (λ d, "--" ∉ def_args d) ds → ds ≠ [] →
  definitions db LookPath (length ds + n) wp (command_line ds ++ "--" :: tail) acc
  = definitions db LookPath n wp tail (acc ++ ws).
Proof.
  intros Hws. revert acc. induction Hws as [|d w ds ws Hw Hrest IH]; intros acc; [done|].
  intros [Hd Hds]%Forall_cons _. destruct Hrest as [|d' w' ds ws Hw' Hrest].
  { simpl. by apply definitions_step. }
  change (command_line (d :: d' :: ds))
    with (words d ++ "--" :: command_line (d' :: ds)).
  rewrite <-app_assoc. cbn [length Nat.add app].
  rewrite (definitions_step _ _ _ w) by done.
  rewrite IH by done. by rewrite <-app_assoc.
Qed.

Lemma command_line_length (ds : list definition) :
  3 * length ds ≤ length (command_line ds).
Proof.
  induction ds as [|d [|d' ds] IH]; [simpl; lia|simpl; lia|].
  change (command_line (d :: d' :: ds))
    with (words d ++ "--" :: command_line (d' :: ds)).
  rewrite length_app. unfold words at 1. simpl in *. lia.
Qed.

Lemma command_line_nonnil (ds : list definition) : ds ≠ [] → command_line ds ≠ [].
Proof. by destruct ds as [|d [|d' ds]]. Qed.

(** What holds of every watcher the loop hands on. *)
Lemma definitions_watchers (P : Watch.watcher → Prop) fuel wp args acc ws :
  (∀ a0 root owner group umask cmd word rest,
     LookPath word = Some cmd →
     P {| Watch.prefix := Join ["/"; wp; a0]; Watch.root := root;
          Watch.rootOwner := owner; Watch.rootGroup := group;
          Watch.rootMask := umask; Watch.cmd := cmd;
          Watch.args := word :: rest |}) →
  definitions db LookPath fuel wp args acc = Some (inr ws) →
  Forall P acc → Forall P ws.
Proof.
  intros HP. revert args acc. induction fuel as [|fuel IH]; intros args acc; [done|].
  cbn [definitions]. destruct args as [|a0 [|a1 [|a2 rest]]]; [done..|].
  destruct (LookPath a2) as [cmd|] eqn:Hcmd; [|done].
  destruct (parseRoot db a1) as [|[[[root owner] group] umask]]; [done|].
  destruct (cut_group rest) as [[before after]|].
  - intros Hd Hacc. eapply IH; [exact Hd|].
    apply Forall_app. split; [done|]. repeat constructor. by apply HP.
  - intros [= <-] Hacc. apply Forall_app. split; [done|].
    repeat constructor. by apply HP.
Qed.

End DefinitionsFacts.

Section PrefixFacts.

Lemma rooted_Clean p : rooted (Clean p) = rooted p.
Proof.
  destruct (Clean_is_render p) as (es & Hv & -> & _). by apply rooted_render.
Qed.

(** A key prefix joined onto "/" is a cleaned absolute path. *)
Lemma Join_slash_first rest :
  IsAbs (Join ("/" :: rest)) = true ∧ Clean (Join ("/" :: rest)) = Join ("/" :: rest).
Proof.
  cbn [Join]. rewrite decide_False by done. unfold IsAbs.
  rewrite rooted_Clean, Clean_idemp. split; [|done]. by destruct rest.
Qed.

End PrefixFacts.

(** X20.  Watcher definitions written one after the other with "--"
    between them are read back as one watcher each, in order: the key
    prefix is the definition's prefix joined onto "/" and the common
    prefix, the command is looked up on the PATH, and the arguments are
    the command word as typed followed by the words up to the next "--".
    Here every command is found, every root parses, no further word
    of a definition is "--", and no keepalived flag is set. *)
Theorem watch_command_line_round_trip (db : WatchCmd.accounts)
    (LookPath : string → option string) (f : WatchCmd.flags)
    (ds : list WatchCmd.definition) (ws : list Watch.watcher) :
  mapM (WatchCmd.watcher_of db LookPath (WatchCmd.watchPrefix f)) ds = Some ws →
  Forall (λ d, "--" ∉ WatchCmd.def_args d) ds → ds ≠ [] →
  WatchCmd.keepalivedFifo f = "" → WatchCmd.keepalivedInstance f = "" →
  WatchCmd.watchCommandFunc db LookPath f (WatchCmd.command_line ds)
  = Some (inr (ws, WatchCmd.keepalivedPrefix f)).
Proof.
  intros Hws%mapM_Some Hsep Hne Hfifo Hinst. unfold WatchCmd.watchCommandFunc.
  rewrite bool_decide_eq_false_2 by by apply command_line_nonnil.
  pose proof (command_line_length ds) as Hlen.
  replace (length (WatchCmd.command_line ds))
    with (length ds + (length (WatchCmd.command_line ds) - length ds)) by lia.
  rewrite (definitions_line _ _ _ _ _ ws) by done. simpl.
  rewrite Hfifo, Hinst. by rewrite !bool_decide_eq_false_2 by (by intros [? ?]).
Qed.

Lemma watch_command_line_round_trip_witness :
  WatchCmd.watchCommandFunc Host.db Host.LookPath (Host.no_keepalived "/svc")
    ["app"; "/etc/app/"; "sv"; "reload"; "app"; "--"; "db"; "/etc/db:www"; "sv"]
  = Some (inr ([{| Watch.prefix := "/svc/app"; Watch.root := "/etc/app/";
                   Watch.rootOwner := -1; Watch.rootGroup := -1;
                   Watch.rootMask := 420; Watch.cmd := "/usr/bin/sv";
                   Watch.args := ["sv"; "reload"; "app"] |};
                {| Watch.prefix := "/svc/db"; Watch.root := "/etc/db";
                   Watch.rootOwner := 34; Watch.rootGroup := 34;
                   Watch.rootMask := 420; Watch.cmd := "/usr/bin/sv";
                   Watch.args := ["sv"] |}],
               "")).
Proof.
  set (ds := [{| WatchCmd.def_prefix := "app"; WatchCmd.def_root := "/etc/app/";
                 WatchCmd.def_cmd := "sv"; WatchCmd.def_args := ["reload"; "app"] |};
              {| WatchCmd.def_prefix := "db"; WatchCmd.def_root := "/etc/db:www";
                 WatchCmd.def_cmd := "sv"; WatchCmd.def_args := [] |}]).
  assert (Forall (λ d, "--" ∉ WatchCmd.def_args d) ds) as Hsep.
  { repeat constructor; simpl; rewrite ?not_elem_of_cons; split_and?;
      (done || apply not_elem_of_nil). }
  exact (watch_command_line_round_trip Host.db Host.LookPath (Host.no_keepalived "/svc")
           ds _ eq_refl Hsep ltac:(done) eq_refl eq_refl).
Defined.

(** X21.  Every watcher the command line yields has a key prefix that is
    an absolute, cleaned path, whatever was typed, and an argument list
    that begins with the command word, whose place on the PATH is the
    command it runs. *)
Theorem watcher_prefix_is_clean_absolute (db : WatchCmd.accounts)
    (LookPath : string → option string) (f : WatchCmd.flags) (args : list string)
    (ws : list Watch.watcher) (kaPrefix : string) (w : Watch.watcher) :
  WatchCmd.watchCommandFunc db LookPath f args = Some (inr (ws, kaPrefix)) →
  w ∈ ws →
  IsAbs (Watch.prefix w) = true
  ∧ Clean (Watch.prefix w) = Watch.prefix w
  ∧ ∃ word rest, Watch.args w = word :: rest ∧ LookPath word = Some (Watch.cmd w).
Proof.
  unfold WatchCmd.watchCommandFunc. intros Hrun Hw.
  destruct (bool_decide (args = [])).
  { repeat case_bool_decide; simpl in Hrun; simplify_eq; by apply elem_of_nil in Hw. }
  destruct (WatchCmd.definitions _ _ _ _ _ _) as [[err|ws']|] eqn:Hd; [done| |done].
  assert (ws' = ws) as -> by (repeat case_bool_decide; simpl in Hrun; by simplify_eq).
  eapply (definitions_watchers db LookPath
            (λ w, IsAbs (Watch.prefix w) = true
                  ∧ Clean (Watch.prefix w) = Watch.prefix w
                  ∧ ∃ word rest, Watch.args w = word :: rest
                                 ∧ LookPath word = Some (Watch.cmd w)))
    in Hd; [|..|constructor].
  - rewrite Forall_forall in Hd. by apply Hd.
  - intros a0 root owner group umask cmd word rest Hcmd. cbn.
    destruct (Join_slash_first [WatchCmd.watchPrefix f; a0]) as [? ?].
    split_and!; [done..|]. eauto.
Qed.

Lemma watcher_prefix_is_clean_absolute_witness :
  ∃ w, WatchCmd.watchCommandFunc Host.db Host.LookPath (Host.no_keepalived "svc//x/")
         ["../app/."; "/etc/app"; "sv"] = Some (inr ([w], ""))
       ∧ Watch.prefix w = "/svc/app"
       ∧ IsAbs (Watch.prefix w) = true
       ∧ Clean (Watch.prefix w) = Watch.prefix w.
Proof.
  destruct (WatchCmd.watchCommandFunc Host.db Host.LookPath (Host.no_keepalived "svc//x/")
              ["../app/."; "/etc/app"; "sv"]) as [[err|[ws kp]]|] eqn:Hrun;
    [by vm_compute in Hrun| |by vm_compute in Hrun].
  pose proof Hrun as Hv. vm_compute in Hv.
  match type of Hv with Some (inr ([?w0], _)) = _ => exists w0 end.
  injection Hv as <- <-.
  destruct (watcher_prefix_is_clean_absolute Host.db Host.LookPath
              (Host.no_keepalived "svc//x/") ["../app/."; "/etc/app"; "sv"] _ _ _ Hrun
              ltac:(by left)) as (Habs & Hclean & _).
  by split_and!.
Defined.

(** X22.  After well-formed definitions, a trailing "--" or a further
    definition of fewer than three words makes the whole command fail,
    and no watcher is started, the well-formed ones included. *)
Theorem watch_command_line_incomplete (db : WatchCmd.accounts)
    (LookPath : string → option string) (f : WatchCmd.flags)
    (ds : list WatchCmd.definition) (ws : list Watch.watcher) :
  mapM (WatchCmd.watcher_of db LookPath (WatchCmd.watchPrefix f)) ds = Some ws →
  Forall (λ d, "--" ∉ WatchCmd.def_args d) ds → ds ≠ [] →
  let line := WatchCmd.command_line ds in
  WatchCmd.watchCommandFunc db LookPath f (line ++ ["--"])
  = Some (inl "empty watcher definition (trailing --?)")
  ∧ (∀ a, WatchCmd.watchCommandFunc db LookPath f (line ++ ["--"; a])
          = Some (inl "watcher root directory missing"))
  ∧ (∀ a b, WatchCmd.watchCommandFunc db LookPath f (line ++ ["--"; a; b])
            = Some (inl "watcher command missing")).
Proof.
  intros Hws%mapM_Some Hsep Hne line. subst line.
  set (line := WatchCmd.command_line ds).
  pose proof (command_line_length ds) as Hlen. fold line in Hlen.
  assert (∀ tail, ∃ n, length (line ++ "--" :: tail) = length ds + S n) as Hfuel.
  { intros tail. exists (length line - length ds + length tail).
    rewrite length_app. simpl. lia. }
  assert (∀ tail, bool_decide (line ++ "--" :: tail = []) = false) as Hnil.
  { intros tail. apply bool_decide_eq_false_2. by destruct line. }
  unfold WatchCmd.watchCommandFunc. split_and!; intros.
  - destruct (Hfuel []) as [n ->]. rewrite Hnil. unfold line.
    by rewrite (definitions_line_more _ _ _ _ _ ws).
  - destruct (Hfuel [a]) as [n ->]. rewrite Hnil. unfold line.
    by rewrite (definitions_line_more _ _ _ _ _ ws).
  - destruct (Hfuel [a; b]) as [n ->]. rewrite Hnil. unfold line.
    by rewrite (definitions_line_more _ _ _ _ _ ws).
Qed.

Lemma watch_command_line_incomplete_witness :
  WatchCmd.watchCommandFunc Host.db Host.LookPath (Host.no_keepalived "/svc")
    ["app"; "/etc/app"; "sv"; "reload"; "app"; "--"]
  = Some (inl "empty watcher definition (trailing --?)").
Proof.
  set (ds := [{| WatchCmd.def_prefix := "app"; WatchCmd.def_root := "/etc/app";
                 WatchCmd.def_cmd := "sv"; WatchCmd.def_args := ["reload"; "app"] |}]).
  assert (Forall (λ d, "--" ∉ WatchCmd.def_args d) ds) as Hsep.
  { repeat constructor; simpl; rewrite ?not_elem_of_cons; split_and?;
      (done || apply not_elem_of_nil). }
  exact (proj1 (watch_command_line_incomplete Host.db Host.LookPath
                  (Host.no_keepalived "/svc") ds _ eq_refl Hsep ltac:(done))).
Defined.

(** * Pushing the same tree again *)

Section PushAgain.
Import Put.
Context `{Libs}.

(** The callback reads the deletion candidates nowhere: what it appends
    and what it returns depend on the rest of the state only. *)
Lemma visit_same e prefix root p info st1 st2 :
  same_push st1 st2 →
  same_push (visit e prefix root p info st1).1 (visit e prefix root p info st2).1
  ∧ (visit e prefix root p info st1).2 = (visit e prefix root p info st2).2.
Proof.
  destruct st1 as [t1 o1 d1 g1], st2 as [t2 o2 d2 g2].
  intros (Ho & Hd & Hg). simpl in Ho, Hd, Hg. subst o2 d2 g2.
  unfold visit. cbn [tree ops opsDesc gi]. destruct (IsDir info).
  { destruct (bool_decide _); [done|]. by destruct (Match _ _ _). }
  destruct (_ || _); [done|].
  by destruct (getFile info) as [[data digest]|].
Qed.

Lemma walk_same e prefix root info :
  ∀ p st1 st2, same_push st1 st2 →
    same_push (walk e prefix root p info st1).1 (walk e prefix root p info st2).1
    ∧ (walk e prefix root p info st1).2 = (walk e prefix root p info st2).2.
Proof.
  induction info as [content readable|entries IH] using fsnode_nested_ind;
    intros p st1 st2 Hst.
  - by apply visit_same.
  - cbn [walk].
    pose proof (visit_same e prefix root p (FDir entries) _ _ Hst) as [Hv Hr].
    destruct (visit e prefix root p (FDir entries) st1) as [st1' r1].
    destruct (visit e prefix root p (FDir entries) st2) as [st2' r2].
    simpl in Hv, Hr. subst r2. destruct r1; [|done..].
    clear Hst. revert st1' st2' Hv.
    induction IH as [|[name child] rest Hchild _ IHrest]; intros st1' st2' Hv; [done|].
    simpl in Hchild.
    pose proof (Hchild (Join [p; name]) _ _ Hv) as [Hc Hr].
    destruct (walk e prefix root (Join [p; name]) child st1') as [s1 err1].
    destruct (walk e prefix root (Join [p; name]) child st2') as [s2 err2].
    simpl in Hc, Hr. subst err2. destruct err1; [by apply IHrest| |done].
    destruct (IsDir child); [by apply IHrest|done].
Qed.

(** The walk of a push does not depend on what the store holds. *)
Lemma walked_same e c c' prefix root0 root st :
  walked e c prefix root0 = inr (root, st) →
  ∃ st', walked e c' prefix root0 = inr (root, st') ∧ same_push st st'.
Proof.
  unfold walked. destruct (resolve_root e root0) as [[root' gi0]|]; [|done].
  set (st0 := {| tree := initial_tree c prefix |}).
  set (st0' := {| tree := initial_tree c' prefix |}).
  assert (same_push st0 st0') as H0 by done.
  unfold Walk. destruct (Stat e root') as [info|]; [|done].
  pose proof (walk_same e prefix root' info root' _ _ H0) as [Hs Hr].
  destruct (walk e prefix root' root' info st0) as [s1 err1].
  destruct (walk e prefix root' root' info st0') as [s2 err2].
  simpl in Hs, Hr. subst err2.
  destruct err1; intros ?; simplify_eq; by exists s2.
Qed.

(** The companion of a key has the base name ".hash", whatever the
    key. *)
Lemma Base_Join_name k n : normal n → Base (Join [k; n]) = n.
Proof.
  intros Hn. pose proof Hn as (Hne & Hd & Hdd & Hns).
  assert (∀ rt es, valid rt es → Base (render rt (es ++ [n])) = n) as Hbase.
  { intros rt es Hv.
    pose proof (valid_snoc_name _ _ _ Hv Hn) as Hv2.
    pose proof (valid_elems _ _ Hv2) as Hel.
    assert (Forall (λ e, no_slash e = true) (es ++ [n])) as Hns2
      by (eapply Forall_impl; [exact Hel|]; by intros ? [? ?]).
    assert (Forall (λ e : string, e ≠ "") (es ++ [n])) as Hne2
      by (eapply Forall_impl; [exact Hel|]; by intros ? [? ?]).
    unfold Base. rewrite decide_False.
    2:{ destruct rt; [done|]. unfold render.
        destruct (es ++ [n]) as [|e l] eqn:Heq; [by destruct es|].
        apply join_slash_nonempty. by apply Forall_cons in Hne2 as [? _]. }
    destruct rt.
    - rewrite split_render_true by done.
      rewrite decide_False by by destruct es.
      rewrite filter_cons_False by (intros Hx; by apply Hx).
      rewrite filter_nonempty_id by done. by rewrite rev_unit.
    - rewrite split_render_false by (done || by destruct es).
      rewrite filter_nonempty_id by done. by rewrite rev_unit. }
  cbn [Join]. destruct (decide (k = "")) as [->|Hk].
  - rewrite decide_False by done.
    change (join_slash [n]) with (render false ([] ++ [n])).
    rewrite Clean_render by (apply valid_snoc_name; [apply valid_nil|done]).
    apply Hbase, valid_nil.
  - change (join_slash [k; n]) with (k +:+ "/" +:+ n).
    unfold Clean. rewrite rooted_app_sep by done.
    rewrite split_slash_app, (split_slash_single n) by done.
    unfold clean_elems. rewrite fold_left_app. cbn [fold_left].
    rewrite clean_step_name by done. cbn [rev].
    apply Hbase. unfold valid. rewrite rev_involutive.
    apply fold_clean_step_vstk; [constructor|apply split_slash_no_slash].
Qed.

(** A put-pair writes its own two keys, nothing else. *)
Lemma puts_frame view os ds (s : gmap string string) q :
  Forall2 (λ o d, isDel d = false
                  ∧ ∃ data digest,
                      o = put_txn (path d) (Join [path d; ".hash"]) data digest)
          os ds →
  q ∉ written_keys ds →
  fold_left (λ s o, apply_op view o s) os s !! q = s !! q.
Proof.
  intros Hp. revert s. induction Hp as [|o d os ds Hod _ IH]; intros s Hq; [done|].
  unfold written_keys in Hq. rewrite bind_cons in Hq.
  apply not_elem_of_app in Hq as [Hd Hrest].
  apply not_elem_of_cons in Hd as [Hk Hh%not_elem_of_cons]. destruct Hh as [Hh _].
  cbn [fold_left]. rewrite IH by done.
  destruct Hod as [_ (data & digest & ->)].
  destruct (decide (apply_op view (put_txn (path d) (Join [path d; ".hash"]) data digest) s
                    !! q = s !! q)) as [|Hne]; [done|].
  apply put_txn_changes in Hne as [[?|?] _]; congruence.
Qed.

(** After the put-pairs of one transaction, the guard of each of them
    holds, when no two of them write the same key. *)
Lemma puts_settle view os ds (s : gmap string string) :
  Forall2 (λ o d, isDel d = false
                  ∧ ∃ data digest,
                      o = put_txn (path d) (Join [path d; ".hash"]) data digest)
          os ds →
  NoDup (written_keys ds) →
  (∀ q, q ∈ written_keys ds → s !! q = view !! q) →
  Forall (λ o, ∀ s', response (fold_left (λ s o, apply_op view o s) os s) o = Some true
                     ∧ apply_op (fold_left (λ s o, apply_op view o s) os s) o s' = s')
         os.
Proof.
  intros Hp. revert s. induction Hp as [|o d os ds Hod Hp IH]; intros s Hnd Hs;
    [constructor|].
  unfold written_keys in Hnd, Hs.
  rewrite bind_cons in Hnd. setoid_rewrite bind_cons in Hs. fold (written_keys ds) in Hnd, Hs.
  cbn [app] in Hnd, Hs.
  apply NoDup_cons in Hnd as [Hk Hnd]. apply NoDup_cons in Hnd as [Hh Hnd].
  apply not_elem_of_cons in Hk as [Hkh Hk].
  cbn [fold_left]. destruct Hod as [_ (data & digest & ->)].
  set (key := path d) in *. set (hashKey := Join [key; ".hash"]) in *.
  set (s1 := apply_op view (put_txn key hashKey data digest) s).
  assert (is_Some (s1 !! key) ∧ is_Some (s1 !! hashKey) ∧ s1 !! hashKey = Some digest)
    as Hguard.
  { destruct (decide (is_Some (view !! key) ∧ is_Some (view !! hashKey)
                      ∧ view !! hashKey = Some digest)) as [Hg|Hg].
    - destruct (put_txn_unchanged view key hashKey data digest s Hg) as [Heq _].
      unfold s1. rewrite Heq.
      rewrite !Hs by (rewrite !elem_of_cons; tauto). done.
    - destruct (put_txn_changed view key hashKey data digest s Hg) as [Heq _].
      unfold s1. rewrite Heq.
      rewrite lookup_insert_eq, lookup_insert_ne, lookup_insert_eq by done. eauto. }
  constructor.
  - intros s'.
    destruct (put_txn_unchanged (fold_left (λ s o, apply_op view o s) os s1)
                key hashKey data digest s') as [Ha Hr]; [|done].
    rewrite !(puts_frame view os ds s1) by done. exact Hguard.
  - apply IH; [done|]. intros q Hq. rewrite <-Hs by (rewrite !elem_of_cons; tauto).
    unfold s1.
    destruct (decide (apply_op view (put_txn key hashKey data digest) s !! q = s !! q))
      as [|Hne]; [done|].
    apply put_txn_changes in Hne as [[->| ->] _]; done.
Qed.

(** Put-pairs whose guards hold change nothing and report nothing. *)
Lemma puts_silent view os ds (s : gmap string string) :
  Forall2 (λ o d, isDel d = false
                  ∧ ∃ data digest,
                      o = put_txn (path d) (Join [path d; ".hash"]) data digest)
          os ds →
  Forall (λ o, ∀ s', response view o = Some true ∧ apply_op view o s' = s') os →
  fold_left (λ s o, apply_op view o s) os s = s
  ∧ concat (zip_with report ds (map (response view) os)) = [].
Proof.
  intros Hp. revert s. induction Hp as [|o d os ds [Hd _] _ IH]; intros s Hall; [done|].
  apply Forall_cons in Hall as [Ho Hall]. cbn [fold_left map zip_with concat].
  destruct (Ho s) as [Hr Ha]. rewrite Ha, Hr.
  destruct (IH s Hall) as [-> ->]. unfold report. by rewrite Hd.
Qed.

Lemma deletions_nil prefix root st : tree st = ∅ → deletions prefix root st = [].
Proof. unfold deletions. intros ->. by rewrite elements_empty. Qed.

End PushAgain.

(** X11.  When nothing is stored
    under the prefix before a push, and no two pushed files write the
    same key (content key or companion), pushing the same tree again
    prints nothing and leaves the store as the first push left it. *)
Theorem second_push_of_fresh_prefix_is_silent `{Libs} (e : Put.env)
    (c0 c1 : gmap string string) (prefix root0 root : string) (st : Put.state)
    (stdout : list string) :
  get_prefix_keys c0 (Join [prefix; "/"]) = [] →
  Put.walked e c0 prefix root0 = inr (root, st) →
  NoDup (written_keys (Put.opsDesc st)) →
  Put.updateTreeRecursively e c0 prefix root0 = Put.Pushed c1 stdout →
  Put.updateTreeRecursively e c1 prefix root0 = Put.Pushed c1 [].
Proof.
  intros Hfresh Hw Hnd. unfold Put.updateTreeRecursively. rewrite Hw.
  pose proof (walked_pairs _ _ _ _ _ _ Hw) as Hp.
  pose proof (walked_inv _ _ _ _ _ _ Hw) as (Hsub & _ & _).
  assert (Put.tree st = ∅) as Ht.
  { apply set_eq. intros k. split; [|by intros ?%elem_of_empty].
    intros Hk%Hsub%elem_of_initial_tree. rewrite Hfresh in Hk.
    by destruct Hk as [?%elem_of_nil _]. }
  unfold Put.transaction. rewrite deletions_nil by done.
  cbn [map]. rewrite !app_nil_r. unfold commit. intros [= <- _].
  set (c1 := fold_left (λ s o, apply_op c0 o s) (Put.ops st) c0).
  destruct (walked_same e c0 c1 prefix root0 root st Hw) as (st' & Hw' & Ho & Hd & _).
  rewrite Hw'.
  pose proof (walked_inv _ _ _ _ _ _ Hw') as (Hsub' & Hdesc' & _).
  assert (Put.tree st' = ∅) as Ht'.
  { apply set_eq. intros k. split; [|by intros ?%elem_of_empty].
    intros Hk. exfalso.
    pose proof (Hsub' _ Hk) as [Hlisted Hbase]%elem_of_initial_tree.
    destruct (decide (k ∈ written_keys (Put.opsDesc st))) as [Hin|Hnin].
    - unfold written_keys in Hin. apply list_elem_of_bind in Hin as (d & Hkd & Hd').
      rewrite Hd in Hd'.
      apply elem_of_cons in Hkd as [->|Hkd].
      + by destruct (Hdesc' d Hd').
      + apply list_elem_of_singleton in Hkd as ->. by rewrite Base_Join_name in Hbase.
    - unfold get_prefix_keys in Hlisted, Hfresh.
      apply list_elem_of_filter in Hlisted as [Hpre Hdom].
      apply elem_of_elements, elem_of_dom in Hdom.
      unfold c1 in Hdom. rewrite (puts_frame c0 _ _ c0 k Hp Hnin) in Hdom.
      assert (k ∈ filter (λ k, HasPrefix k (Join [prefix; "/"]) = true)
                         (elements (dom c0))) as Hk0.
      { apply list_elem_of_filter. split; [done|]. by apply elem_of_elements, elem_of_dom. }
      rewrite Hfresh in Hk0. by apply elem_of_nil in Hk0. }
  rewrite deletions_nil by done. cbn [map]. rewrite !app_nil_r, <-Ho, <-Hd.
  pose proof (puts_settle c0 _ _ c0 Hp Hnd (λ _ _, eq_refl)) as Hall.
  fold c1 in Hall.
  by destruct (puts_silent c1 _ _ c1 Hp Hall) as [-> ->].
Qed.

Lemma second_push_of_fresh_prefix_is_silent_witness :
  let c0 : gmap string string := {[ "/other/key" := "sz:kept" ]} in
  ∃ c1 stdout,
    Put.updateTreeRecursively (H := Sample.libs) Sample.work_env c0 "/svc/app" ""
    = Put.Pushed c1 stdout
    ∧ stdout ≠ []
    ∧ Put.updateTreeRecursively (H := Sample.libs) Sample.work_env c1 "/svc/app" ""
      = Put.Pushed c1 [].
Proof.
  intros c0.
  destruct (Put.walked (H := Sample.libs) Sample.work_env c0 "/svc/app" "")
    as [msg|[root st]] eqn:Hw; [by vm_compute in Hw|].
  destruct (Put.updateTreeRecursively (H := Sample.libs) Sample.work_env c0 "/svc/app" "")
    as [msg|c1 stdout] eqn:Hrun; [by vm_compute in Hrun|].
  assert (NoDup (written_keys (Put.opsDesc st))) as Hnd.
  { pose proof Hw as Hv. vm_compute in Hv. injection Hv as _ <-.
    refine (bool_decide_unpack _ _). by vm_compute. }
  assert (stdout ≠ []) as Hout.
  { pose proof Hrun as Hv. vm_compute in Hv. by injection Hv as _ <-. }
  exists c1, stdout. split_and!; [done..|].
  exact (second_push_of_fresh_prefix_is_silent (H := Sample.libs) Sample.work_env c0 c1
           "/svc/app" "" root st stdout eq_refl Hw Hnd Hrun).
Defined.

(** * The client configuration *)

Section ClientFacts.
Import Client.

Lemma prefix_length a b : String.prefix a b = true → String.length a ≤ String.length b.
Proof.
  revert b. induction a as [|c a IH]; intros b; [simpl; lia|].
  destruct b as [|c' b]; [done|]. cbn [String.prefix String.length].
  destruct (ascii_dec c c'); [|done]. intros Hp%IH. lia.
Qed.

Lemma secure_only_spec eps ep :
  ep ∈ secure_only eps ↔ ep ∈ eps ∧ HasPrefix "http://" ep = false.
Proof.
  induction eps as [|e eps IH]; cbn [secure_only].
  { split; [by intros ?%elem_of_nil|by intros [?%elem_of_nil _]]. }
  destruct (HasPrefix "http://" e) eqn:He.
  - rewrite IH, elem_of_cons. split.
    + intros [? ?]. split; [by right|done].
    + intros [[->|?] Hp]; [congruence|done].
  - rewrite !elem_of_cons, IH. split.
    + intros [->|[? ?]]; [by split; [left|]|by split; [right|]].
    + intros [[->|?] ?]; [by left|by right].
Qed.

Lemma SplitN2_lacks sep s : lacks sep s = true → SplitN2 s sep = [s].
Proof.
  induction s as [|c s IH]; simpl; [done|].
  intros [Hc Hs]%andb_prop. apply negb_true_iff in Hc. rewrite Hc. by rewrite IH.
Qed.

Lemma SplitN2_app sep a b :
  lacks sep a = true → SplitN2 (a +:+ String sep b) sep = [a; b].
Proof.
  induction a as [|c a IH]; simpl.
  - by rewrite Ascii.eqb_refl.
  - intros [Hc Ha]%andb_prop. apply negb_true_iff in Hc. rewrite Hc. by rewrite IH.
Qed.

Lemma pick_endpoints_nonempty h g eps : pick_endpoints h g = inr eps → eps ≠ [].
Proof.
  unfold pick_endpoints. case_bool_decide as Hlen.
  { intros [= <-]. by destruct (endpoints g); [simpl in Hlen; lia|]. }
  case_bool_decide; [|by intros [= <-]].
  destruct (GetClient h (serviceName g)) as [found|]; [|done].
  case_bool_decide as Hz; [done|]. intros [= <-] Hnil. by rewrite Hnil in Hz.
Qed.

Lemma mustClient_parts h g cfg :
  mustClient h g = inr cfg →
  pick_endpoints h g = inr (Endpoints cfg)
  ∧ pick_tls h g = inr (TLS cfg)
  ∧ pick_user h g = inr (Username cfg, Password cfg).
Proof.
  unfold mustClient. destruct (pick_endpoints h g) as [|eps]; [done|].
  destruct (pick_tls h g) as [|t]; [done|].
  destruct (pick_user h g) as [|[name pw]]; [done|]. by intros [= <-].
Qed.

End ClientFacts.

(** X23.  A configuration [mustClient] arrives at always names an endpoint:
    the ones given on the command line when there are any, local port
    2379 when neither endpoints nor a domain are given, and otherwise the
    discovered ones, of which one or more must be left. *)
Theorem client_endpoints_never_empty (h : Client.host) (g : Client.globals)
    (cfg : Client.Config) :
  Client.mustClient h g = inr cfg →
  Client.Endpoints cfg ≠ []
  ∧ (Client.endpoints g ≠ [] → Client.Endpoints cfg = Client.endpoints g)
  ∧ (Client.endpoints g = [] → Client.serviceName g = "" →
     Client.Endpoints cfg = ["127.0.0.1:2379"]).
Proof.
  intros (Heps & _ & _)%mustClient_parts. split_and!.
  - by eapply pick_endpoints_nonempty.
  - intros Hne. revert Heps. unfold Client.pick_endpoints.
    rewrite bool_decide_eq_true_2; [by intros [= <-]|].
    destruct (Client.endpoints g); [done|simpl; lia].
  - intros Hnil Hname. revert Heps. unfold Client.pick_endpoints.
    rewrite Hnil, Hname. simpl. by intros [= <-].
Qed.

Lemma client_endpoints_never_empty_witness :
  let h := {| Client.GetClient := λ _, None; Client.ClientConfig := λ _, true;
              Client.Ask := None |} in
  let g := {| Client.endpoints := []; Client.serviceName := ""; Client.insecure := true;
              Client.insecureDiscovery := true; Client.insecureSkipVerify := false;
              Client.tls := {| Client.certFile := ""; Client.keyFile := "";
                               Client.caFile := "" |};
              Client.user := "" |} in
  ∃ cfg, Client.mustClient h g = inr cfg ∧ Client.Endpoints cfg = ["127.0.0.1:2379"].
Proof.
  intros h g. eexists. split; [reflexivity|].
  by apply (client_endpoints_never_empty h g _ eq_refl).
Defined.

(** X24.  With insecure discovery switched off, the discovered endpoints
    that are dropped are exactly those that are a beginning of the string
    "http://" (the arguments of the prefix test are the other way round);
    an endpoint "http://host" with a host is therefore kept and
    used. *)
Theorem client_insecure_filter_keeps_http (h : Client.host) (g : Client.globals)
    (cfg : Client.Config) (found : list string) (host : string) :
  Client.endpoints g = [] → Client.serviceName g ≠ "" →
  Client.insecureDiscovery g = false →
  Client.GetClient h (Client.serviceName g) = Some found →
  host ≠ "" → "http://" +:+ host ∈ found →
  Client.mustClient h g = inr cfg →
  "http://" +:+ host ∈ Client.Endpoints cfg
  ∧ ∀ ep, ep ∈ Client.Endpoints cfg
          ↔ ep ∈ found ∧ String.prefix ep "http://" = false.
Proof.
  intros Hnil Hname Hdisc Hfound Hhost Hin (Heps & _ & _)%mustClient_parts.
  revert Heps. unfold Client.pick_endpoints.
  rewrite Hnil, Hfound, Hdisc. simpl. rewrite bool_decide_eq_true_2 by done.
  case_bool_decide; [done|]. intros [= <-].
  assert (∀ ep, ep ∈ Client.secure_only found
                ↔ ep ∈ found ∧ String.prefix ep "http://" = false) as Hspec.
  { intros ep. apply secure_only_spec. }
  split; [|done]. apply Hspec. split; [done|].
  destruct (String.prefix ("http://" +:+ host) "http://") eqn:Hp; [|done].
  apply prefix_length in Hp. destruct host; [done|]. simpl in Hp. lia.
Qed.

Lemma client_insecure_filter_keeps_http_witness :
  let h := {| Client.GetClient := λ _, Some ["http://10.0.0.1:2379"; "https://10.0.0.2:2379"];
              Client.ClientConfig := λ _, true; Client.Ask := None |} in
  let g := {| Client.endpoints := []; Client.serviceName := "example.org";
              Client.insecure := true; Client.insecureDiscovery := false;
              Client.insecureSkipVerify := false;
              Client.tls := {| Client.certFile := ""; Client.keyFile := "";
                               Client.caFile := "" |};
              Client.user := "" |} in
  ∃ cfg, Client.mustClient h g = inr cfg
         ∧ "http://10.0.0.1:2379" ∈ Client.Endpoints cfg.
Proof.
  intros h g. eexists. split; [reflexivity|].
  assert ("http://" +:+ "10.0.0.1:2379"
          ∈ ["http://10.0.0.1:2379"; "https://10.0.0.2:2379"]) as Hin by (by left).
  exact (proj1 (client_insecure_filter_keeps_http h g _
                  ["http://10.0.0.1:2379"; "https://10.0.0.2:2379"] "10.0.0.1:2379"
                  eq_refl ltac:(done) eq_refl eq_refl ltac:(done) Hin eq_refl)).
Defined.

(** X25.  In a configuration [mustClient] arrives at, transport security
    is left out exactly when insecure transport is allowed and neither a
    certificate nor a CA file is given; a certificate and a key come
    together or not at all; and when transport security is on, server
    verification is skipped exactly when the flag says so. *)
Theorem client_tls_unset_iff (h : Client.host) (g : Client.globals)
    (cfg : Client.Config) :
  Client.mustClient h g = inr cfg →
  (Client.TLS cfg = None
   ↔ Client.insecure g = true ∧ Client.certFile (Client.tls g) = ""
     ∧ Client.caFile (Client.tls g) = "")
  ∧ (Client.certFile (Client.tls g) = "" ↔ Client.keyFile (Client.tls g) = "")
  ∧ (∀ t, Client.TLS cfg = Some t →
          Client.InsecureSkipVerify t = Client.insecureSkipVerify g).
Proof.
  intros (_ & Htls & _)%mustClient_parts. revert Htls. unfold Client.pick_tls.
  destruct (Client.TLS cfg) as [t|];
    repeat (case_bool_decide; simpl);
    repeat (match goal with
            | |- context [Client.ClientConfig ?a ?b] =>
                destruct (Client.ClientConfig a b); simpl
            | |- context [Client.insecure ?a] => destruct (Client.insecure a); simpl
            | |- context [Client.insecureSkipVerify ?a] =>
                destruct (Client.insecureSkipVerify a); simpl
            end);
    intros ?; simplify_eq; split_and!; try done; try (split; by intros);
    try (split; [done|by intros (?&?&?)]);
    try (by intros ? [= <-]).
Qed.

Lemma client_tls_unset_iff_witness :
  let h := {| Client.GetClient := λ _, None; Client.ClientConfig := λ _, true;
              Client.Ask := None |} in
  let g := {| Client.endpoints := ["10.0.0.1:2379"]; Client.serviceName := "";
              Client.insecure := false; Client.insecureDiscovery := true;
              Client.insecureSkipVerify := true;
              Client.tls := {| Client.certFile := ""; Client.keyFile := "";
                               Client.caFile := "" |};
              Client.user := "" |} in
  ∃ cfg t, Client.mustClient h g = inr cfg ∧ Client.TLS cfg = Some t
           ∧ Client.InsecureSkipVerify t = true.
Proof.
  intros h g. eexists _, _. split; [reflexivity|]. split; [reflexivity|].
  by apply (client_tls_unset_iff h g _ eq_refl).
Defined.

(** X26.  A user flag with a colon is cut at its first colon: the name is
    what comes before it and the password all that follows, further
    colons included, and nobody is asked.  A user flag without a colon
    is the name, and the password is what is typed at the prompt. *)
Theorem client_user_password (h : Client.host) (g : Client.globals)
    (cfg : Client.Config) :
  Client.mustClient h g = inr cfg →
  (∀ name password,
     lacks ":" name = true → Client.user g = name +:+ ":" +:+ password →
     Client.Username cfg = name ∧ Client.Password cfg = password)
  ∧ (lacks ":" (Client.user g) = true → Client.user g ≠ "" →
     Client.Username cfg = Client.user g
     ∧ Client.Ask h = Some (Client.Password cfg)).
Proof.
  intros (_ & _ & Hu)%mustClient_parts. revert Hu. unfold Client.pick_user. split.
  - intros name password Hl Huser. revert Hu. rewrite Huser.
    rewrite bool_decide_eq_true_2 by (by destruct name).
    change (name +:+ ":" +:+ password) with (name +:+ String ":" password).
    rewrite SplitN2_app by done. by intros [= <- <-].
  - intros Hl Hne. revert Hu. rewrite bool_decide_eq_true_2 by done.
    rewrite SplitN2_lacks by done.
    destruct (Client.Ask h); [|done]. by intros [= <- <-].
Qed.

Lemma client_user_password_witness :
  let h := {| Client.GetClient := λ _, None; Client.ClientConfig := λ _, true;
              Client.Ask := None |} in
  let g := {| Client.endpoints := ["10.0.0.1:2379"]; Client.serviceName := "";
              Client.insecure := true; Client.insecureDiscovery := true;
              Client.insecureSkipVerify := false;
              Client.tls := {| Client.certFile := ""; Client.keyFile := "";
                               Client.caFile := "" |};
              Client.user := "root:s3:cr3t" |} in
  ∃ cfg, Client.mustClient h g = inr cfg
         ∧ Client.Username cfg = "root" ∧ Client.Password cfg = "s3:cr3t".
Proof.
  intros h g. eexists. split; [reflexivity|].
  by apply (proj1 (client_user_password h g _ eq_refl) "root" "s3:cr3t").
Defined.
